(** * pydrsom: the dimension-reduced trust-region engine

    A shallow embedding of the DRSOM optimizers of [pydrsom]
    ([drsomnd_profile.py]: class [DRSOMF] and the root finder;
     [drsom.py] / [drsomb.py]: class [DRSOMB]) and the properties of the
    specification that concern them.

    Floating-point tensors are read as tensors of real numbers.  The
    reduced model ([Q], [c], [G], [alpha]) lives in a subspace of size
    [dim <= 4]; such a tensor is represented by its index function and
    its size is passed alongside, as the source does with
    [dim = c.size()[0]] and [dim = len(directions)]. *)

From Stdlib Require Import Reals Lra Lia.
From stdpp Require Import base list strings.

Local Open Scope R_scope.

(** Comparisons of reals are decided, as the program does at run time. *)
#[global] Instance Rlt_decision (x y : R) : Decision (x < y) := Rlt_dec x y.
#[global] Instance Rle_decision (x y : R) : Decision (x <= y) := Rle_dec x y.
#[global] Instance Req_decision : EqDecision R := Req_dec_T.

(** ** Small dense tensors *)

Definition vec := nat -> R.
Definition mat := nat -> nat -> R.

Definition vec_of (l : list R) : vec := fun i => nth i l 0.
Definition mat_of (rows : list (list R)) : mat :=
  fun i j => nth j (nth i rows []) 0.

Fixpoint sum_n (n : nat) (f : nat -> R) : R :=
  match n with
  | O => 0
  | S k => sum_n k f + f k
  end.

(** [u.dot(v)] *)
Definition dot (n : nat) (u v : vec) : R := sum_n n (fun i => u i * v i).

(** [M @ v] *)
Definition matvec (n : nat) (M : mat) (v : vec) : vec :=
  fun i => sum_n n (fun j => M i j * v j).

(** [A + B], [M * s], [-c], [torch.eye], [torch.zeros] *)
Definition madd (A B : mat) : mat := fun i j => A i j + B i j.
Definition mscale (M : mat) (s : R) : mat := fun i j => M i j * s.
Definition vneg (c : vec) : vec := fun i => - c i.
Definition vscale (v : vec) (s : R) : vec := fun i => v i * s.
Definition eye : mat := fun i j => if Nat.eqb i j then 1 else 0.
Definition zeros1 : vec := fun _ => 0.
Definition zeros2 : mat := fun _ _ => 0.

(** [v[k] = x] and [M[i, j] = x] *)
Definition vset (v : vec) (k : nat) (x : R) : vec :=
  fun i => if Nat.eqb i k then x else v i.
Definition mset (M : mat) (i j : nat) (x : R) : mat :=
  fun i' j' => if Nat.eqb i' i && Nat.eqb j' j then x else M i' j'.

(** The quadratic form [(M @ v).dot(v)]. *)
Definition quad (n : nat) (M : mat) (v : vec) : R := dot n (matvec n M v) v.

Definition symmetric (n : nat) (M : mat) : Prop :=
  forall i j, (i < n)%nat -> (j < n)%nat -> M i j = M j i.

(** ** Exceptions

    A call either returns or raises.  An exception ends the run of the
    model: the state it leaves behind is not followed. *)

Inductive exn :=
  | ValueError (msg : string)
  | LinAlgError
  | TypeError
  | IndexError
  | KeyError
  | ZeroDivisionError
  | FloatingPointError.

Inductive result (A : Type) :=
  | Ok (x : A)
  | Raise (e : exn).
Arguments Ok {A} x.
Arguments Raise {A} e.

#[global] Instance result_bind : MBind result := fun A B f m =>
  match m with
  | Ok x => f x
  | Raise e => Raise e
  end.

(** Python's [min] and [max] over a sequence raise on an empty one. *)
Definition py_min (l : list R) : result R :=
  match l with
  | [] => Raise (ValueError "min() arg is an empty sequence")
  | x :: l' => Ok (fold_left Rmin l' x)
  end.

Definition py_max (l : list R) : result R :=
  match l with
  | [] => Raise (ValueError "max() arg is an empty sequence")
  | x :: l' => Ok (fold_left Rmax l' x)
  end.

(** ** The linear-algebra kernel

    [torch.linalg.eigh] and [torch.linalg.solve] are library calls; the
    model takes them as an interface.  [eigvalsh n Q] is the vector [D]
    of [D, V = torch.linalg.eigh(Q)]; [lsolve n A b] is [None] where
    the library raises [LinAlgError]. *)

Record LinAlgKernel := {
  eigvalsh : nat -> mat -> list R;
  lsolve : nat -> mat -> vec -> option vec
}.

(** What the interface promises at one call. *)
Definition nonzero (n : nat) (v : vec) : Prop := exists i, (i < n)%nat /\ v i <> 0.

Definition singular (n : nat) (A : mat) : Prop :=
  exists v, nonzero n v /\ forall i, (i < n)%nat -> matvec n A v i = 0.

Definition lsolve_ok (K : LinAlgKernel) (n : nat) (A : mat) (b : vec) : Prop :=
  (forall x, lsolve K n A b = Some x ->
     forall i, (i < n)%nat -> matvec n A x i = b i) /\
  (lsolve K n A b = None -> singular n A).

(** The smallest returned eigenvalue bounds the Rayleigh quotient. *)
Definition eigh_ok (K : LinAlgKernel) (n : nat) (Q : mat) : Prop :=
  exists lmin, py_min (eigvalsh K n Q) = Ok lmin /\
    forall v, lmin * dot n v v <= quad n Q v.

(** A closed-form kernel for subspaces of size 1 and 2, used to run the
    solver on concrete inputs.  [eigh] reads the lower triangle; the
    eigenvalues come in ascending order.  Larger sizes are not
    provided. *)
Definition exact_eigvalsh (n : nat) (Q : mat) : list R :=
  match n with
  | 1%nat => [Q 0%nat 0%nat]
  | 2%nat =>
      let a := Q 0%nat 0%nat in
      let b := Q 1%nat 0%nat in
      let d := Q 1%nat 1%nat in
      let m := (a + d) / 2 in
      let r := sqrt (((a - d) / 2) * ((a - d) / 2) + b * b) in
      [m - r; m + r]
  | _ => []
  end.

Definition exact_lsolve (n : nat) (A : mat) (b : vec) : option vec :=
  match n with
  | 1%nat =>
      if decide (A 0%nat 0%nat = 0) then None
      else Some (vec_of [b 0%nat / A 0%nat 0%nat])
  | 2%nat =>
      let det := A 0%nat 0%nat * A 1%nat 1%nat - A 0%nat 1%nat * A 1%nat 0%nat in
      if decide (det = 0) then None
      else Some (vec_of
        [(b 0%nat * A 1%nat 1%nat - A 0%nat 1%nat * b 1%nat) / det;
         (A 0%nat 0%nat * b 1%nat - A 1%nat 0%nat * b 0%nat) / det])
  | _ => None
  end.

Definition exact_kernel : LinAlgKernel :=
  {| eigvalsh := exact_eigvalsh; lsolve := exact_lsolve |}.

(** ** Flat tensors of parameter space

    A parameter, a gradient or a momentum buffer is its flattened data.
    Dividing a tensor by zero yields non-finite entries; [tdiv] answers
    [None] for such a result. *)

Definition tensor := list R.

Definition tsum (v : tensor) : R := fold_right Rplus 0 v.
Definition tmul (u v : tensor) : tensor := zip_with Rmult u v.
Definition tadd (u v : tensor) : tensor := zip_with Rplus u v.
Definition tsub (u v : tensor) : tensor := zip_with Rminus u v.
Definition tscale (s : R) (v : tensor) : tensor := map (Rmult s) v.
Definition zeros_like (v : tensor) : tensor := map (fun _ => 0) v.

(** [torch.linalg.norm(v)] *)
Definition tnorm (v : tensor) : R := sqrt (tsum (tmul v v)).

Definition tdiv (v : tensor) (s : R) : option tensor :=
  if decide (s = 0) then None else Some (map (fun x => x / s) v).

(** ** drsomnd_profile.py *)

Module DRSOMF.

(** [_norm(alpha, tr)].  The square root of a negative number is [nan]
    in the program and [0] here; where a statement speaks of this norm
    the metric is positive semidefinite. *)
Definition _norm (n : nat) (alpha : vec) (tr : mat) : R :=
  sqrt (dot n (matvec n tr alpha) alpha).

(** [_compute_root(Q, c, gamma, tr)]; the size [n] of the subspace is
    the shape of [Q]. *)
Definition _compute_root (K : LinAlgKernel) (n : nat)
    (Q : mat) (c : vec) (gamma : R) (tr : mat)
    : result (nat * R * vec * R * bool) :=
  let D := eigvalsh K n Q in
  lmin ← py_min D;
  lmax ← py_max D;
  let lb := Rmax 0 (- lmin) in
  let lmax := if decide (lb < lmax) then lmax else lb + 10000 in
  let _lmb_this := gamma * lmax + Rmax (1 - gamma) 0 * lb in
  let it := O in
  alpha ←
    match lsolve K n (madd Q (mscale tr _lmb_this)) (vneg c) with
    | Some alpha => Ok alpha
    | None =>
        match lsolve K n (madd Q (mscale tr (_lmb_this + 1 / 10000))) (vneg c) with
        | Some alpha => Ok alpha
        | None => Raise LinAlgError
        end
    end;
  let norm := _norm n alpha tr in
  Ok (it, _lmb_this, alpha, norm, true).

(** The fields of the optimizer that the solver reads and writes. *)
Record t := {
  iter : nat;
  dim : nat;          (* the size of [self.c] *)
  Q : mat;
  c : vec;
  G : mat;
  alpha : vec;
  alpha_norm : R;
  gamma : R;
  delta_max : R
}.

(** [alpha.norm()] *)
Definition vnorm (n : nat) (alpha : vec) : R := sqrt (dot n alpha alpha).

(** [solve_alpha(self, Q, c, tr)] *)
Definition solve_alpha (K : LinAlgKernel) (self : t)
    (Q' : mat) (c' : vec) (tr : mat) : result (vec * R) :=
  let dim := dim self in
  if (iter self =? 0)%nat || bool_decide (Q self (dim - 1)%nat (dim - 1)%nat < 1 / 10000) then
    let alpha := zeros1 in
    let alpha :=
      vset alpha 0
        (if decide (0 < Q' 0%nat 0%nat)
         then - c' 0%nat / Q' 0%nat 0%nat / (1 + gamma self)
         else 1 / 10000) in
    let norm := _norm dim alpha tr in
    let alpha :=
      if decide (delta_max self < norm)
      then vscale (vscale alpha (/ vnorm dim alpha)) (delta_max self)
      else alpha in
    Ok (alpha, norm)
  else
    '(it, lmd, alpha, norm, active) ← _compute_root K dim Q' c' (gamma self) tr;
    Ok (alpha, norm).

Definition set_alpha (self : t) (a : vec) (nrm : R) : t :=
  {| iter := iter self; dim := dim self; Q := Q self; c := c self; G := G self;
     alpha := a; alpha_norm := nrm;
     gamma := gamma self; delta_max := delta_max self |}.

(** The predicted decrease of the reduced model at [alpha]. *)
Definition trs_est (n : nat) (Q : mat) (c alpha : vec) : R :=
  - 1 / 2 * dot n (matvec n Q alpha) alpha - dot n c alpha.

(** [compute_step(self, option_tr)] returns the predicted decrease and
    leaves [alpha], [alpha_norm] in the optimizer. *)
Definition compute_step (K : LinAlgKernel) (self : t) (option_tr : string)
    : result (t * R) :=
  self' ←
    (if String.eqb option_tr "a" then
       '(a, nrm) ← solve_alpha K self (Q self) (c self) eye;
       Ok (set_alpha self a nrm)
     else if String.eqb option_tr "p" then
       '(a, nrm) ← solve_alpha K self (Q self) (c self) (G self);
       Ok (set_alpha self a nrm)
     else Raise (ValueError "unknown option for trust-region option"));
  Ok (self', trs_est (dim self') (Q self') (c self') (alpha self')).

(** [normalize(self, v)] on a flat vector. *)
Definition normalize (v : tensor) : option tensor :=
  let v_norm := tnorm v in
  let v_norm := if decide (v_norm = 0) then 1 else v_norm in
  tdiv v v_norm.

End DRSOMF.

(** ** Floating-point results outside the reals

    [loss_dec / trs_est] is a tensor division and [np.log] a numpy call:
    neither raises, they answer an infinity or a NaN.  Only the
    comparisons the optimizer makes on such values are needed. *)

Inductive xreal := Finite (r : R) | PInf | NInf | NaN.

Definition torch_div (x y : R) : xreal :=
  if decide (y = 0) then
    if decide (0 < x) then PInf else if decide (x < 0) then NInf else NaN
  else Finite (x / y).

Definition np_log (x : R) : xreal :=
  if decide (0 < x) then Finite (ln x)
  else if decide (x = 0) then NInf else NaN.

(** [a <= b], [a >= b], [a > b] with a float on the left. *)
Definition xle (a : xreal) (b : R) : bool :=
  match a with Finite r => bool_decide (r <= b) | NInf => true | _ => false end.
Definition xge (a : xreal) (b : R) : bool :=
  match a with Finite r => bool_decide (b <= r) | PInf => true | _ => false end.
Definition xgt (a : xreal) (b : R) : bool :=
  match a with Finite r => bool_decide (b < r) | PInf => true | _ => false end.

(** Python's [min(a, b)] answers [b] if [b < a] and [a] otherwise;
    [max(a, b)] answers [b] if [b > a] and [a] otherwise. *)
Definition py_min2 (a : R) (b : xreal) : xreal :=
  match b with
  | Finite r => if decide (r < a) then Finite r else Finite a
  | NInf => NInf
  | _ => Finite a
  end.

Definition py_max2 (a : R) (b : xreal) : R :=
  match b with
  | Finite r => if decide (a < r) then r else a
  | _ => a
  end.

(** Loops over [range(a, b)]. *)
Definition range (a b : nat) : list nat := seq a (b - a).

Definition for_ {A B} (l : list B) (f : B -> A -> A) (a : A) : A :=
  fold_left (fun a b => f b a) l a.

Fixpoint forM {A B} (l : list B) (f : B -> A -> result A) (a : A) : result A :=
  match l with
  | [] => Ok a
  | b :: l' => a' ← f b a; forM l' f a'
  end.

(** ** drsom.py

    The class [DRSOMB] of [drsom.py].  The class of the same name in
    [drsomb.py] is a variant of it: the inner loop of its [step] and
    the restart after the loop are the same statements, with the
    adjustment rules as attributes of the optimizer and the global
    [DRSOM_DIRECTIONS] for [self.directions]. *)

Module DRSOMB.

(** A tensor object is known by its identity. *)
Definition loc := nat.

(** A direction is a dict from parameters to tensors, in the order of
    [self._params], from which every such dict is built. *)
Definition direction := list (loc * tensor).

Fixpoint dget (d : direction) (p : loc) : tensor :=
  match d with
  | [] => []
  | (q, v) :: d' => if decide (q = p) then v else dget d' p
  end.

(** The objective and automatic differentiation, as the closure and
    [torch.autograd] give them at the current parameter values. *)
Record Closure := {
  objective : list tensor -> R;
  gradient : list tensor -> loc -> tensor;
  hessian_vector : list tensor -> direction -> list tensor
}.

(** The configuration types of [drsom_utils], by the members and
    attributes that the optimizer uses. *)
Inductive DRSOMModeQP := AutomaticDiff | FiniteDiff | Interpolation | OtherModeQP.
Inductive DRSOMQPSolver := QRegP | TRSP | OtherQPSolver.

Record DRSOMAdjustRules := {
  beta1 : R; beta2 : R; eta : R; zeta1 : R; zeta2 : R
}.

Record DRSOMDecayRules := {
  decay_radius_step : R; qp_rate : R; qp_freq : nat
}.

Record t := {
  heap : list tensor;   (* the parameter tensors and their clones, by object identity *)
  _params : list loc;
  grads : loc -> tensor;   (* [p.grad] *)
  state : loc -> string -> option tensor;   (* [self.state[p][k]]; [None]: no such key *)
  directions : list string;
  bool_normalize : bool;
  fixed_momentum : R;
  qpmode : DRSOMModeQP;
  qpsolver : DRSOMQPSolver;
  Hv : option (list (list tensor));
  _max_iter_adj : nat;
  dim : nat;   (* the size of [self.Q], [self.c], [self.G] *)
  Q : mat;
  c : vec;
  G : mat;
  iter : nat;
  alpha : vec;
  alpha_norm : R;
  gamma : R;
  gammalb : R;
  radius : R;
  radiusub : R;
  decayrule : DRSOMDecayRules;
  adjrule : DRSOMAdjustRules;
  delta : R;
  ghg : R
}.

(** Assignments to the attributes that [step] writes. *)
Definition set_heap (self : t) (x : list tensor) : t :=
  {| heap := x; _params := _params self; grads := grads self; state := state
  self; directions := directions self; bool_normalize := bool_normalize self;
  fixed_momentum := fixed_momentum self; qpmode := qpmode self; qpsolver :=
  qpsolver self; Hv := Hv self; _max_iter_adj := _max_iter_adj self; dim :=
  dim self; Q := Q self; c := c self; G := G self; iter := iter self; alpha :=
  alpha self; alpha_norm := alpha_norm self; gamma := gamma self; gammalb :=
  gammalb self; radius := radius self; radiusub := radiusub self; decayrule :=
  decayrule self; adjrule := adjrule self; delta := delta self; ghg := ghg
  self |}.

Definition set_grads (self : t) (x : loc -> tensor) : t :=
  {| heap := heap self; _params := _params self; grads := x; state := state
  self; directions := directions self; bool_normalize := bool_normalize self;
  fixed_momentum := fixed_momentum self; qpmode := qpmode self; qpsolver :=
  qpsolver self; Hv := Hv self; _max_iter_adj := _max_iter_adj self; dim :=
  dim self; Q := Q self; c := c self; G := G self; iter := iter self; alpha :=
  alpha self; alpha_norm := alpha_norm self; gamma := gamma self; gammalb :=
  gammalb self; radius := radius self; radiusub := radiusub self; decayrule :=
  decayrule self; adjrule := adjrule self; delta := delta self; ghg := ghg
  self |}.

Definition set_state (self : t) (x : loc -> string -> option tensor) : t :=
  {| heap := heap self; _params := _params self; grads := grads self; state :=
  x; directions := directions self; bool_normalize := bool_normalize self;
  fixed_momentum := fixed_momentum self; qpmode := qpmode self; qpsolver :=
  qpsolver self; Hv := Hv self; _max_iter_adj := _max_iter_adj self; dim :=
  dim self; Q := Q self; c := c self; G := G self; iter := iter self; alpha :=
  alpha self; alpha_norm := alpha_norm self; gamma := gamma self; gammalb :=
  gammalb self; radius := radius self; radiusub := radiusub self; decayrule :=
  decayrule self; adjrule := adjrule self; delta := delta self; ghg := ghg
  self |}.

Definition set_Hv (self : t) (x : option (list (list tensor))) : t :=
  {| heap := heap self; _params := _params self; grads := grads self; state :=
  state self; directions := directions self; bool_normalize := bool_normalize
  self; fixed_momentum := fixed_momentum self; qpmode := qpmode self; qpsolver
  := qpsolver self; Hv := x; _max_iter_adj := _max_iter_adj self; dim := dim
  self; Q := Q self; c := c self; G := G self; iter := iter self; alpha :=
  alpha self; alpha_norm := alpha_norm self; gamma := gamma self; gammalb :=
  gammalb self; radius := radius self; radiusub := radiusub self; decayrule :=
  decayrule self; adjrule := adjrule self; delta := delta self; ghg := ghg
  self |}.

Definition set_dim (self : t) (x : nat) : t :=
  {| heap := heap self; _params := _params self; grads := grads self; state :=
  state self; directions := directions self; bool_normalize := bool_normalize
  self; fixed_momentum := fixed_momentum self; qpmode := qpmode self; qpsolver
  := qpsolver self; Hv := Hv self; _max_iter_adj := _max_iter_adj self; dim :=
  x; Q := Q self; c := c self; G := G self; iter := iter self; alpha := alpha
  self; alpha_norm := alpha_norm self; gamma := gamma self; gammalb := gammalb
  self; radius := radius self; radiusub := radiusub self; decayrule :=
  decayrule self; adjrule := adjrule self; delta := delta self; ghg := ghg
  self |}.

Definition set_Q (self : t) (x : mat) : t :=
  {| heap := heap self; _params := _params self; grads := grads self; state :=
  state self; directions := directions self; bool_normalize := bool_normalize
  self; fixed_momentum := fixed_momentum self; qpmode := qpmode self; qpsolver
  := qpsolver self; Hv := Hv self; _max_iter_adj := _max_iter_adj self; dim :=
  dim self; Q := x; c := c self; G := G self; iter := iter self; alpha :=
  alpha self; alpha_norm := alpha_norm self; gamma := gamma self; gammalb :=
  gammalb self; radius := radius self; radiusub := radiusub self; decayrule :=
  decayrule self; adjrule := adjrule self; delta := delta self; ghg := ghg
  self |}.

Definition set_c (self : t) (x : vec) : t :=
  {| heap := heap self; _params := _params self; grads := grads self; state :=
  state self; directions := directions self; bool_normalize := bool_normalize
  self; fixed_momentum := fixed_momentum self; qpmode := qpmode self; qpsolver
  := qpsolver self; Hv := Hv self; _max_iter_adj := _max_iter_adj self; dim :=
  dim self; Q := Q self; c := x; G := G self; iter := iter self; alpha :=
  alpha self; alpha_norm := alpha_norm self; gamma := gamma self; gammalb :=
  gammalb self; radius := radius self; radiusub := radiusub self; decayrule :=
  decayrule self; adjrule := adjrule self; delta := delta self; ghg := ghg
  self |}.

Definition set_G (self : t) (x : mat) : t :=
  {| heap := heap self; _params := _params self; grads := grads self; state :=
  state self; directions := directions self; bool_normalize := bool_normalize
  self; fixed_momentum := fixed_momentum self; qpmode := qpmode self; qpsolver
  := qpsolver self; Hv := Hv self; _max_iter_adj := _max_iter_adj self; dim :=
  dim self; Q := Q self; c := c self; G := x; iter := iter self; alpha :=
  alpha self; alpha_norm := alpha_norm self; gamma := gamma self; gammalb :=
  gammalb self; radius := radius self; radiusub := radiusub self; decayrule :=
  decayrule self; adjrule := adjrule self; delta := delta self; ghg := ghg
  self |}.

Definition set_iter (self : t) (x : nat) : t :=
  {| heap := heap self; _params := _params self; grads := grads self; state :=
  state self; directions := directions self; bool_normalize := bool_normalize
  self; fixed_momentum := fixed_momentum self; qpmode := qpmode self; qpsolver
  := qpsolver self; Hv := Hv self; _max_iter_adj := _max_iter_adj self; dim :=
  dim self; Q := Q self; c := c self; G := G self; iter := x; alpha := alpha
  self; alpha_norm := alpha_norm self; gamma := gamma self; gammalb := gammalb
  self; radius := radius self; radiusub := radiusub self; decayrule :=
  decayrule self; adjrule := adjrule self; delta := delta self; ghg := ghg
  self |}.

Definition set_alpha (self : t) (x : vec) : t :=
  {| heap := heap self; _params := _params self; grads := grads self; state :=
  state self; directions := directions self; bool_normalize := bool_normalize
  self; fixed_momentum := fixed_momentum self; qpmode := qpmode self; qpsolver
  := qpsolver self; Hv := Hv self; _max_iter_adj := _max_iter_adj self; dim :=
  dim self; Q := Q self; c := c self; G := G self; iter := iter self; alpha :=
  x; alpha_norm := alpha_norm self; gamma := gamma self; gammalb := gammalb
  self; radius := radius self; radiusub := radiusub self; decayrule :=
  decayrule self; adjrule := adjrule self; delta := delta self; ghg := ghg
  self |}.

Definition set_alpha_norm (self : t) (x : R) : t :=
  {| heap := heap self; _params := _params self; grads := grads self; state :=
  state self; directions := directions self; bool_normalize := bool_normalize
  self; fixed_momentum := fixed_momentum self; qpmode := qpmode self; qpsolver
  := qpsolver self; Hv := Hv self; _max_iter_adj := _max_iter_adj self; dim :=
  dim self; Q := Q self; c := c self; G := G self; iter := iter self; alpha :=
  alpha self; alpha_norm := x; gamma := gamma self; gammalb := gammalb self;
  radius := radius self; radiusub := radiusub self; decayrule := decayrule
  self; adjrule := adjrule self; delta := delta self; ghg := ghg self |}.

Definition set_gamma (self : t) (x : R) : t :=
  {| heap := heap self; _params := _params self; grads := grads self; state :=
  state self; directions := directions self; bool_normalize := bool_normalize
  self; fixed_momentum := fixed_momentum self; qpmode := qpmode self; qpsolver
  := qpsolver self; Hv := Hv self; _max_iter_adj := _max_iter_adj self; dim :=
  dim self; Q := Q self; c := c self; G := G self; iter := iter self; alpha :=
  alpha self; alpha_norm := alpha_norm self; gamma := x; gammalb := gammalb
  self; radius := radius self; radiusub := radiusub self; decayrule :=
  decayrule self; adjrule := adjrule self; delta := delta self; ghg := ghg
  self |}.

Definition set_radius (self : t) (x : R) : t :=
  {| heap := heap self; _params := _params self; grads := grads self; state :=
  state self; directions := directions self; bool_normalize := bool_normalize
  self; fixed_momentum := fixed_momentum self; qpmode := qpmode self; qpsolver
  := qpsolver self; Hv := Hv self; _max_iter_adj := _max_iter_adj self; dim :=
  dim self; Q := Q self; c := c self; G := G self; iter := iter self; alpha :=
  alpha self; alpha_norm := alpha_norm self; gamma := gamma self; gammalb :=
  gammalb self; radius := x; radiusub := radiusub self; decayrule := decayrule
  self; adjrule := adjrule self; delta := delta self; ghg := ghg self |}.

Definition set_ghg (self : t) (x : R) : t :=
  {| heap := heap self; _params := _params self; grads := grads self; state :=
  state self; directions := directions self; bool_normalize := bool_normalize
  self; fixed_momentum := fixed_momentum self; qpmode := qpmode self; qpsolver
  := qpsolver self; Hv := Hv self; _max_iter_adj := _max_iter_adj self; dim :=
  dim self; Q := Q self; c := c self; G := G self; iter := iter self; alpha :=
  alpha self; alpha_norm := alpha_norm self; gamma := gamma self; gammalb :=
  gammalb self; radius := radius self; radiusub := radiusub self; decayrule :=
  decayrule self; adjrule := adjrule self; delta := delta self; ghg := x |}.

(** The functions of [drsom_utils] and of numpy that the optimizer
    calls.  Their code is not part of the optimizer; they are taken as
    given. *)
Record Utils := {
  TRS_solve_alpha : t -> mat -> vec -> mat -> result (vec * R);
  adjust_gamma_and_radius : t -> t;
  update_running_stat : tensor -> tensor -> R -> tensor;
  np_linalg_solve : list (list R) -> list R -> result (list R);
  np_linalg_lstsq : list (list R) -> list R -> result (list R)
}.

Definition read (h : list tensor) (p : loc) : tensor := default [] (h !! p).

(** The data of the parameters, in order. *)
Definition param_values (self : t) : list tensor :=
  map (read (heap self)) (_params self).

(** [p.clone()]: a new object with the data of [p]. *)
Definition clone (h : list tensor) (p : loc) : list tensor * loc :=
  (h ++ [read h p], length h).

Fixpoint clone_all (h : list tensor) (ps : list loc) : list tensor * list loc :=
  match ps with
  | [] => (h, [])
  | p :: ps' =>
      let '(h1, q) := clone h p in
      let '(h2, qs) := clone_all h1 ps' in
      (h2, q :: qs)
  end.

Definition _clone_param (self : t) : t * list loc :=
  let '(h, qs) := clone_all (heap self) (_params self) in
  (set_heap self h, qs).

(** [p.copy_(pdata)] for each pair of the zip. *)
Definition _set_param (self : t) (params_data : list loc) : t :=
  set_heap self
    (for_ (zip (_params self) params_data)
       (fun '(p, pdata) h => <[p := read h pdata]> h) (heap self)).

(** [p.add_(d_new[p])] *)
Definition _use_new_d (self : t) (d_new : direction) : t :=
  set_heap self
    (for_ (_params self)
       (fun p h => <[p := tadd (read h p) (dget d_new p)]> h) (heap self)).

Definition sset (st : loc -> string -> option tensor) (p : loc) (k : string)
    (v : tensor) : loc -> string -> option tensor :=
  fun p' k' => if decide (p' = p) then (if decide (k' = k) then Some v else st p' k')
               else st p' k'.

Definition sget (st : loc -> string -> option tensor) (p : loc) (k : string) : tensor :=
  default [] (st p k).

(** [self.state[p][k]] where the key may be missing. *)
Definition sread (st : loc -> string -> option tensor) (p : loc) (k : string)
    : result tensor :=
  match st p k with
  | Some v => Ok v
  | None => Raise KeyError
  end.

Fixpoint mapR {A B} (f : A -> result B) (l : list A) : result (list B) :=
  match l with
  | [] => Ok []
  | x :: l' => y ← f x; ys ← mapR f l'; Ok (y :: ys)
  end.

Definition _clear_momentum (self : t) : t :=
  set_state self
    (for_ (_params self) (fun p st =>
       for_ (directions self) (fun k st =>
         match st p k with
         | Some buf => sset st p k (zeros_like buf)
         | None => st
         end) st) (state self)).

Section WithUtils.
Context (U : Utils).

Definition _save_momentum (self : t) (vlist : direction) (key : string)
    : result t :=
  st ← forM (_params self) (fun p st =>
          buf ← sread st p key;
          Ok (sset st p key
                (update_running_stat U (dget vlist p) buf
                   (qp_rate (decayrule self))))) (state self);
  Ok (set_state self st).

Definition update_fixed_momentum (grad : tensor)
    (st : loc -> string -> option tensor) (p : loc) (momentum : R)
    : (loc -> string -> option tensor) * tensor :=
  let st :=
    match st p "fixed_momentum_buffer" with
    | Some _ => st
    | None => sset st p "fixed_momentum_buffer" (zeros_like grad)
    end in
  let buf := sget st p "fixed_momentum_buffer" in
  let buf := tadd (tscale momentum buf) (tscale (-1) grad) in
  (sset st p "fixed_momentum_buffer" buf, buf).

Definition use_fixed_momentum (self : t) (momentum : R) : t * direction :=
  let '(st, d) :=
    for_ (_params self) (fun p '(st, d) =>
      let '(st', buf) := update_fixed_momentum (grads self p) st p momentum in
      (st', d ++ [(p, buf)])) (state self, []) in
  (set_state self st, d).

Definition solve_alpha (self : t) (Q c : _) (tr : mat) : result (vec * R) :=
  TRS_solve_alpha U self Q c tr.

Definition trs_est (n : nat) (Q : mat) (c alpha : vec) : R :=
  - 1 / 2 * dot n (matvec n Q alpha) alpha - dot n c alpha.

(** [compute_step(self)] *)
Definition compute_step (self : t) : result (t * R) :=
  '(a, nrm) ← solve_alpha self (Q self) (c self) (G self);
  let self := set_alpha_norm (set_alpha self a) nrm in
  Ok (self, trs_est (dim self) (Q self) (c self) (alpha self)).

(** [normalize(self, direction)].  Python's [sum] over an empty dict is
    the integer [0], which [torch.sqrt] rejects.  A division by zero
    would fill the result with non-finite entries, which the model
    does not follow: it stops there with [FloatingPointError]. *)
Definition v_norm (d : direction) : result R :=
  match d with
  | [] => Raise TypeError
  | _ => Ok (sqrt (fold_left (fun acc '(p, v) => acc + tnorm v ^ 2) d 0))
  end.

Definition normalize (d : direction) : result direction :=
  v_norm ← v_norm d;
  let v_norm := if decide (v_norm = 0) then 1 else v_norm in
  forM d (fun '(p, v) acc =>
    match tdiv v v_norm with
    | Some v' => Ok (acc ++ [(p, v')])
    | None => Raise FloatingPointError
    end) [].

Definition gather_normalized_grad (self : t) (bool_normalized : bool) (alpha : R)
    : result direction :=
  let d := map (fun p => (p, tscale alpha (grads self p))) (_params self) in
  if bool_normalized then normalize d else Ok d.

Definition gather_normalize (self : t) (k : string) (bool_normalized : bool)
    : result direction :=
  d ← mapR (fun p => v ← sread (state self) p k; Ok (p, v)) (_params self);
  if bool_normalized then normalize d else Ok d.

(** [self.hv(directions)]: the Hessian at the current point applied to
    the direction, one tensor per parameter. *)
Definition hv (cl : Closure) (self : t) (d : direction) : list tensor :=
  hessian_vector cl (param_values self) d.

(** The loop that closes [compute_Q_via_hvp],
    [compute_Q_via_interpolation] and the Gram branch of
    [update_trust_region]: [M[i, j] = M[j, i]] for [j < i]. *)
Definition keep_symmetry (dim : nat) (M : mat) : mat :=
  for_ (range 0 dim) (fun i M =>
    for_ (range 0 i) (fun j M => mset M i j (M j i)) M) M.

Definition compute_Q_via_hvp (cl : Closure) (self : t)
    (directions : list direction) (style : nat) : result (t * mat) :=
  let dim := length directions in
  let Q := zeros2 in
  let Hv0 := match Hv self with None => replicate dim [] | Some l => l end in
  Hv1 ← forM (range 0 dim) (fun i Hvl =>
    if decide (style = 0%nat) then
      if decide (i < length Hvl)%nat
      then Ok (<[i := hv cl self (nth i directions [])]> Hvl)
      else Raise IndexError
    else if decide (style = 1%nat) then
      Raise (ValueError "the finite diff option is unused,")
    else Raise (ValueError "not implemented,")) Hv0;
  let self := set_Hv self (Some Hv1) in
  let Q :=
    for_ (range 0 dim) (fun i Q =>
      for_ (range i dim) (fun j Q =>
        for_ (imap (fun idx p => (idx, p)) (_params self)) (fun '(idx, p) Q =>
          let u := dget (nth i directions []) p in
          let hv := nth idx (nth j Hv1 []) [] in
          mset Q i j (Q i j + tsum (tmul u hv))) Q) Q) Q in
  let Q := keep_symmetry dim Q in
  Ok (self, Q).

Definition build_natural_basis (v : list R) : list R :=
  let _len := length v in
  flat_map (fun i =>
    map (fun j =>
      if decide (i = j) then nth i v 0 * nth j v 0 / 2
      else nth i v 0 * nth j v 0) (range i _len)) (range 0 _len).

(** The local functions of [compute_Q_via_interpolation]. *)
Definition coordinates (dim k : nat) (scaler : R) : list R :=
  <[k := scaler]> (replicate dim 0).

Definition sampling (dim k_diag : nat) (delta : R) : list (list R) :=
  let a2 :=
    flat_map (fun j =>
      map (fun s => coordinates dim j (exp (- INR s) * delta)) (range 0 k_diag))
      (range 0 dim) in
  let a :=
    if decide (1 < dim)%nat then
      map (fun s =>
        map (fun x => x / 2)
          (fold_left (zip_with Rplus)
             (map (fun j => coordinates dim j (exp (- INR s) * delta)) (range 0 dim))
             (replicate dim 0))) (range 0 k_diag)
    else [] in
  a2 ++ a.

(** The trial step [sum_i coef[i] * directions[i][p]] for every [p]. *)
Definition build_direction (self : t) (directions : list direction)
    (coef : nat -> R) : direction :=
  let dim := length directions in
  map (fun p =>
    (p, for_ (range 0 dim) (fun i d_p =>
          tadd d_p (tscale (coef i) (dget (nth i directions []) p)))
          (zeros_like (read (heap self) p)))) (_params self).

Definition compute_Q_via_interpolation (cl : Closure) (self : t)
    (directions : list direction) (fx : R) (c : vec) (p_copy : list loc)
    (delta : R) (multiples : nat) : result (t * mat) :=
  let dim := length directions in
  let k_diag := (multiples * 2)%nat in
  let a := sampling dim k_diag delta in
  let ff := map (fun v => dot dim (vec_of v) c) a in
  let k := length a in
  let K := map build_natural_basis a in
  let '(self, df) :=
    for_ (range 0 k) (fun j '(self, df) =>
      let d_new := build_direction self directions (vec_of (nth j a [])) in
      let self := _use_new_d self d_new in
      let loss_est := objective cl (param_values self) in
      let df := <[j := loss_est - fx - nth j ff 0]> df in
      (* set back *)
      let self := _set_param self p_copy in
      (self, df)) (self, replicate k 0) in
  let m := length K in
  let n := length (nth 0 K []) in
  q ← (if decide (m = n) then np_linalg_solve U K df
       else np_linalg_lstsq U K df);
  Q ← forM (range 0 dim) (fun i Q =>
    forM (range i dim) (fun j Q =>
      match q !! (j * (j + 1) / 2 + i)%nat with
      | Some x => Ok (mset Q i j x)
      | None => Raise IndexError
      end) Q) zeros2;
  let Q := keep_symmetry dim Q in
  Ok (self, Q).

(** [self.zero_grad()] *)
Definition zero_grad (self : t) : t :=
  set_grads self (fun p => zeros_like (grads self p)).

(** The metric [G] that [update_trust_region] constructs. *)
Definition construct_G (self : t) (directions : list direction) : mat :=
  let dim := length directions in
  let G := zeros2 in
  match qpsolver self with
  | QRegP | TRSP =>
      let G :=
        for_ (range 0 dim) (fun i G =>
          for_ (range i dim) (fun j G =>
            for_ (_params self) (fun p G =>
              let v := dget (nth i directions []) p in
              let u := dget (nth j directions []) p in
              mset G i j (G i j + tsum (tmul u v))) G) G) G in
      (* keep symmetry *)
      keep_symmetry dim G
  | _ =>
      (* simply use the eye matrix *)
      for_ (range 0 dim) (fun i G => mset G i i 1) G
  end.

Definition construct_c (self : t) (directions : list direction) : vec :=
  let dim := length directions in
  for_ (range 0 dim) (fun i c =>
    for_ (_params self) (fun p c =>
      let u := dget (nth i directions []) p in
      vset c i (c i + tsum (tmul (grads self p) u))) c) zeros1.

Definition update_trust_region (cl : Closure) (self : t) (p_copy : list loc)
    (directions : list direction) (fx : R) : result t :=
  let dim := length directions in
  let G := construct_G self directions in
  let c := construct_c self directions in
  if decide (qp_freq (decayrule self) = 0%nat) then Raise ZeroDivisionError
  else if negb (iter self mod qp_freq (decayrule self) =? 0)%nat then Ok self
  else
    '(self, Q) ←
      match qpmode self with
      | FiniteDiff =>
          '(self, Q) ← compute_Q_via_hvp cl self directions 1;
          Ok (zero_grad self, Q)
      | AutomaticDiff =>
          '(self, Q) ← compute_Q_via_hvp cl self directions 0;
          Ok (zero_grad self, Q)
      | Interpolation =>
          compute_Q_via_interpolation cl self directions fx c p_copy (delta self) 1
      | OtherModeQP => Raise (ValueError "not handled yet")
      end;
    let self :=
      set_ghg self
        ((Q 0%nat 0%nat + ghg self * INR (iter self)) / (INR (iter self) + 1)) in
    Ok (set_G (set_c (set_Q (set_dim self dim) Q) c) G).

(** The update of [gamma] and [radius] from the ratio [rho]. *)
Definition update_by_rho (self : t) (rho : xreal) : t :=
  if xle rho (zeta1 (adjrule self)) then
    (* be more conservative *)
    let self := set_gamma self (Rmax (gamma self * beta1 (adjrule self)) (1 / 10000)) in
    set_radius self
      (Rmax (radius self * decay_radius_step (decayrule self)) (1 / 100000000))
  else if xge rho (zeta2 (adjrule self)) then
    (* be more aggressive *)
    let self :=
      set_gamma self
        (py_max2 (gammalb self)
           (py_min2 (gamma self / beta2 (adjrule self)) (np_log (gamma self)))) in
    (* cannot exceed radius max *)
    set_radius self
      (Rmin (radius self / decay_radius_step (decayrule self)) (radiusub self))
  else self.

(** The variables of the inner loop of [step]. *)
Record locals := { self_ : t; acc_step : bool; iter_adj : nat }.

(** How one pass through the body of the loop ends: at [continue], at
    [break], or at the end of the body.  The list [directions] of
    [step] is [dirs] below, the attribute [self.directions] keeps its
    name. *)
Inductive flow := Continue (L : locals) | Break (L : locals) | Next (L : locals).

Definition loop_body (cl : Closure) (dirs : list direction)
    (p_copy : list loc) (loss : R) (L : locals) : result flow :=
  (* solve alpha *)
  '(self, trs_est) ← compute_step (self_ L);
  if decide (trs_est < 0) then
    let self := set_gamma self (Rmax (gamma self * beta1 (adjrule self)) (1 / 10000)) in
    let self :=
      set_radius self (Rmax (radius self / sqrt (beta1 (adjrule self))) (1 / 1000000000000)) in
    Ok (Continue {| self_ := self; acc_step := acc_step L; iter_adj := iter_adj L |})
  else
    let alpha := alpha self in
    (* build direction *)
    let d_new := build_direction self dirs alpha in
    let self := _use_new_d self d_new in
    let loss_est := objective cl (param_values self) in
    (* accept or not? *)
    let loss_dec := loss - loss_est in
    let rho := torch_div loss_dec trs_est in
    let self := update_by_rho self rho in
    let acc_step := xgt rho (eta (adjrule self)) in
    if negb acc_step then
      (* set back to old ~ trial step failed *)
      let self := _set_param self p_copy in
      Ok (Next {| self_ := self; acc_step := acc_step;
                  iter_adj := (iter_adj L + 1)%nat |})
    else
      self ←
        (if bool_decide ("momentum_g" ∈ directions self) then
           Raise (ValueError "not implemented")
         else if bool_decide ("momentum" ∈ directions self) then
           _save_momentum self d_new "momentum"
         else Ok self);
      Ok (Break {| self_ := self; acc_step := acc_step; iter_adj := iter_adj L |}).

(** [while iter_adj < self._max_iter_adj: ...].  The loop is run on
    fuel, one unit for each pass through its body; [None] says that the
    fuel was used up before the loop ended. *)
Fixpoint while_loop (fuel : nat) (cl : Closure) (dirs : list direction)
    (p_copy : list loc) (loss : R) (L : locals) : option (result locals) :=
  if (iter_adj L <? _max_iter_adj (self_ L))%nat then
    match fuel with
    | O => None
    | S fuel' =>
        match loop_body cl dirs p_copy loss L with
        | Ok (Continue L') => while_loop fuel' cl dirs p_copy loss L'
        | Ok (Next L') => while_loop fuel' cl dirs p_copy loss L'
        | Ok (Break L') => Some (Ok L')
        | Raise e => Some (Raise e)
        end
    end
  else Some (Ok L).

(** The passes of the loop within the fuel, by the way each one ended:
    a retry after a negative predicted decrease, a rejected trial step,
    or an accepted one. *)
Inductive pass := Retry | Rejected | Accepted.

#[global] Instance pass_eq_dec : EqDecision pass.
Proof. solve_decision. Defined.

Fixpoint passes (fuel : nat) (cl : Closure) (dirs : list direction)
    (p_copy : list loc) (loss : R) (L : locals) : list pass :=
  if (iter_adj L <? _max_iter_adj (self_ L))%nat then
    match fuel with
    | O => []
    | S fuel' =>
        match loop_body cl dirs p_copy loss L with
        | Ok (Continue L') => Retry :: passes fuel' cl dirs p_copy loss L'
        | Ok (Next L') => Rejected :: passes fuel' cl dirs p_copy loss L'
        | Ok (Break L') => [Accepted]
        | Raise e => []
        end
    end
  else [].

(** The states of the loop that a run reaches from [L0] while no step
    is accepted. *)
Inductive loop_reach (cl : Closure) (dirs : list direction)
    (p_copy : list loc) (loss : R) (L0 : locals) : locals -> Prop :=
  | reach_first : loop_reach cl dirs p_copy loss L0 L0
  | reach_continue L L' :
      loop_reach cl dirs p_copy loss L0 L ->
      loop_body cl dirs p_copy loss L = Ok (Continue L') ->
      loop_reach cl dirs p_copy loss L0 L'
  | reach_next L L' :
      loop_reach cl dirs p_copy loss L0 L ->
      loop_body cl dirs p_copy loss L = Ok (Next L') ->
      loop_reach cl dirs p_copy loss L0 L'.

(** The part of [step] before the loop: the loss, the snapshot, the
    directions and the reduced model. *)
Definition step_prologue (self : t) (cl : Closure)
    : result (t * list direction * list loc * R) :=
  let self := adjust_gamma_and_radius U self in
  let loss := objective cl (param_values self) in
  let self := set_grads self (gradient cl (param_values self)) in
  (* copy of it at last step *)
  let '(self, p_copy) := _clone_param self in
  g_old ← gather_normalized_grad self (bool_normalize self) (-1);
  '(self, dirs) ←
    (if decide (fixed_momentum self < 0) then
       ds ← mapR (fun k => gather_normalize self k (bool_normalize self))
              (directions self);
       Ok (self, g_old :: ds)
     else
       let '(self, d) := use_fixed_momentum self (fixed_momentum self) in
       Ok (self, [d]));
  self ← update_trust_region cl self p_copy dirs loss;
  Ok (self, dirs, p_copy, loss).

(** The part of [step] after the loop. *)
Definition step_epilogue (L : locals) : t :=
  let self := set_iter (self_ L) (iter (self_ L) + 1)%nat in
  if negb (acc_step L) then
    let self := _clear_momentum self in
    set_gamma self (gammalb self)
  else self.

(** [step(self, closure)] *)
Definition step (fuel : nat) (self : t) (closure : option Closure)
    : option (result (t * R)) :=
  match closure with
  | None => Some (Raise (ValueError "must provide a closure for DRSOM"))
  | Some cl =>
      match step_prologue self cl with
      | Raise e => Some (Raise e)
      | Ok (self, dirs, p_copy, loss) =>
          (* accept or not? *)
          let acc_step := false in
          (* adjust lambda: (and thus trust region radius) *)
          let iter_adj := 1%nat in
          r ← while_loop fuel cl dirs p_copy loss
                {| self_ := self; acc_step := acc_step; iter_adj := iter_adj |};
          Some (L ← r; Ok (step_epilogue L, loss))
      end
  end.

End WithUtils.
End DRSOMB.

(** * Statements

    What follows are the notions the properties are stated with, and
    the inputs on which the program is run in the examples. *)

(** ** The solver *)

Section SolverDefinitions.
Import DRSOMF.

(** The multiplier [_lmb_this] of [_compute_root] as a function of the
    extreme eigenvalues: the expression of the source, with [lmin] and
    [lmax] for [min(D)] and [max(D)]. *)
Definition code_lambda (lmin lmax gamma : R) : R :=
  let lb := Rmax 0 (- lmin) in
  gamma * (if decide (lb < lmax) then lmax else lb + 10000) + Rmax (1 - gamma) 0 * lb.

(** The multiplier as the specification words it:
    [gamma * max(lmax, lb + 1) + max(1 - gamma, 0) * lb]. *)
Definition spec_lambda (lmin lmax gamma : R) : R :=
  let lb := Rmax 0 (- lmin) in
  gamma * Rmax lmax (lb + 1) + Rmax (1 - gamma) 0 * lb.

(** Two matrices with the same entries on the subspace. *)
Definition agrees (n : nat) (A B : mat) : Prop :=
  forall i j, (i < n)%nat -> (j < n)%nat -> A i j = B i j.

(** Scenario A of the specification, past the first iteration. *)
Definition scenario_A : DRSOMF.t :=
  {| iter := 1; dim := 1;
     Q := mat_of [[2]]; c := vec_of [-1]; G := mat_of [[1]];
     alpha := zeros1; alpha_norm := 0;
     gamma := 1 / 10; delta_max := 10 |}.

(** An indefinite model under an anisotropic Gram metric: the two
    directions are orthogonal, the gradient direction has squared
    length [1 / 40004] and the momentum direction has length one. *)
Definition Q_indef : mat := mat_of [[-1; 0]; [0; 1]].

Definition G_aniso : mat := mat_of [[1 / 40004; 0]; [0; 1]].

Definition c_aniso : vec := vec_of [- (1 / 40004); 0].

Definition aniso (g : R) : DRSOMF.t :=
  {| iter := 1; dim := 2;
     Q := Q_indef; c := c_aniso; G := G_aniso;
     alpha := zeros1; alpha_norm := 0;
     gamma := g; delta_max := 10 |}.

(** The local [lmd] of [solve_alpha(self, Q, c, tr)], the multiplier
    that it writes to its log line: [0.0] on the one-dimensional
    branch, where [_compute_root] is not called, and the multiplier that
    [_compute_root] returns otherwise. *)
Definition solve_alpha_lmd (K : LinAlgKernel) (self : DRSOMF.t)
    (Q' : mat) (c' : vec) (tr : mat) : result R :=
  let dim := dim self in
  if (iter self =? 0)%nat || bool_decide (Q self (dim - 1)%nat (dim - 1)%nat < 1 / 10000) then
    let lmd := 0 in
    Ok lmd
  else
    '(it, lmd, alpha, norm, active) ← _compute_root K dim Q' c' (gamma self) tr;
    Ok lmd.

(** Scenario A on the first iteration. *)
Definition scenario_A_first : DRSOMF.t :=
  {| iter := 0; dim := 1;
     Q := mat_of [[2]]; c := vec_of [-1]; G := mat_of [[1]];
     alpha := zeros1; alpha_norm := 0;
     gamma := 1 / 10; delta_max := 10 |}.

End SolverDefinitions.

(** ** The step *)

Section StepDefinitions.
Import DRSOMB.

(** [qs] holds a snapshot of the parameters [ps] in the heap [h]. *)
Definition snapshot (h : list tensor) (ps qs : list loc) : Prop :=
  length qs = length ps /\
  (forall p, p ∈ ps -> (p < length h)%nat) /\
  (forall q, q ∈ qs -> (q < length h)%nat /\ q ∉ ps) /\
  (forall p q, (p, q) ∈ zip ps qs -> read h q = read h p).

(** [s'] has the parameters of [s], with the same data, and the
    snapshot is still in place. *)
Definition keeps (p_copy : list loc) (s s' : DRSOMB.t) : Prop :=
  snapshot (heap s) (_params s) p_copy ->
  snapshot (heap s') (_params s') p_copy /\
  param_values s' = param_values s /\ _params s' = _params s.

(** The trial of a pass that evaluates a step. *)
Definition trial (cl : Closure) (dirs : list direction) (loss est : R)
    (s : DRSOMB.t) : DRSOMB.t * xreal * direction :=
  let d_new := build_direction s dirs (alpha s) in
  let s1 := _use_new_d s d_new in
  let rho := torch_div (loss - objective cl (param_values s1)) est in
  (update_by_rho s1 rho, rho, d_new).

(** A pass evaluates a trial step unless it is a retry. *)
Definition evaluated (p : pass) : bool :=
  match p with Retry => false | _ => true end.

Definition count_retries (l : list pass) : nat := length (filter (fun p => p = Retry) l).

Definition count_evaluated (l : list pass) : nat :=
  length (filter (fun p => evaluated p = true) l).

(** A buffer of zeros, and a state whose momentum buffers are all
    such. *)
Definition all_zero (v : tensor) : Prop := Forall (fun x => x = 0) v.

Definition cleared (ps : list loc) (ks : list string)
    (st : loc -> string -> option tensor) : Prop :=
  forall p k buf, p ∈ ps -> k ∈ ks -> st p k = Some buf -> all_zero buf.

(** ** Scenario R: a trial step that is rejected

    One parameter [x = 1] with the objective [x * x]; the momentum
    buffer holds [3].  The reduced model is the one of the previous
    iteration ([iter = 1] with [qp_freq = 2]) and the budget of the
    inner loop is [_max_iter_adj = 2]. *)
Definition cl_sq : Closure := {|
  objective := fun vals => nth 0 (nth 0 vals []) 0 * nth 0 (nth 0 vals []) 0;
  gradient := fun vals _ => [2 * nth 0 (nth 0 vals []) 0];
  hessian_vector := fun vals d => [tscale 2 (dget d 0%nat)]
|}.

Definition adj0 : DRSOMAdjustRules :=
  {| beta1 := 50; beta2 := 30; eta := 8 / 100; zeta1 := 1 / 4; zeta2 := 3 / 4 |}.

Definition decay0 : DRSOMDecayRules :=
  {| decay_radius_step := 1 / 5; qp_rate := 98 / 100; qp_freq := 2 |}.

Definition opt0 : DRSOMB.t := {|
  heap := [[1]];
  _params := [0%nat];
  grads := fun _ => [0];
  state := sset (fun _ _ => None) 0%nat "momentum" [3];
  directions := ["momentum"%string];
  bool_normalize := false;
  fixed_momentum := -1;
  qpmode := AutomaticDiff;
  qpsolver := OtherQPSolver;
  Hv := None;
  _max_iter_adj := 2;
  dim := 2;
  Q := zeros2;
  c := vec_of [-4; 6];
  G := eye;
  iter := 1;
  alpha := zeros1;
  alpha_norm := 1 / 10;
  gamma := 1 / 1000000;
  gammalb := 1 / 10000000000;
  radius := 10;
  radiusub := 10;
  decayrule := decay0;
  adjrule := adj0;
  delta := 1 / 1000;
  ghg := 0
|}.

(** A stand-in for [drsom_utils] whose solver answers the step [a]:
    [U_fwd] steps along the negative gradient, with a positive
    predicted decrease; [U_back] steps against it, with a negative
    one. *)
Definition fixed_solver (a : vec) (nrm : R) : Utils := {|
  TRS_solve_alpha := fun _ _ _ _ => Ok (a, nrm);
  adjust_gamma_and_radius := fun s => s;
  update_running_stat := fun v buf rate => tadd (tscale rate buf) (tscale (1 - rate) v);
  np_linalg_solve := fun _ _ => Raise LinAlgError;
  np_linalg_lstsq := fun _ _ => Raise LinAlgError
|}.

Definition U_fwd : Utils := fixed_solver (vec_of [1; 0]) 1.

Definition U_back : Utils := fixed_solver (vec_of [-1; 0]) 1.

(** The loss, the directions and the optimizer after the prologue of
    [step] on [opt0]; the snapshot is the tensor [1] of the heap. *)
Definition loss0 : R := 1 * 1.

Definition dirs0 : list direction :=
  [[(0%nat, [-1 * (2 * 1)])]; [(0%nat, [3])]].

Definition s1_0 : DRSOMB.t :=
  set_heap (set_grads opt0 (fun _ => [2 * 1])) [[1]; [1]].

Definition L_start : locals := {| self_ := s1_0; acc_step := false; iter_adj := 1 |}.

(** The optimizer after [compute_step], after the trial step, after
    the update of [gamma] and [radius], and after the rejection. *)
Definition s_try (a : vec) (nrm : R) : DRSOMB.t :=
  set_alpha_norm (set_alpha s1_0 a) nrm.

Definition s_moved (a : vec) : DRSOMB.t :=
  _use_new_d (s_try a 1) (build_direction (s_try a 1) dirs0 a).

Definition s_shrunk : DRSOMB.t :=
  set_radius
    (set_gamma (s_moved (vec_of [1; 0])) (Rmax (1 / 1000000 * 50) (1 / 10000)))
    (Rmax (10 * (1 / 5)) (1 / 100000000)).

Definition L_rej : locals :=
  {| self_ := _set_param s_shrunk [1%nat]; acc_step := false; iter_adj := 2 |}.

(** Scenario R in fixed-momentum mode: the optimizer of Scenario R
    with [fixed_momentum = 1/2]. *)
Definition opt_fixed : DRSOMB.t := {|
  heap := heap opt0;
  _params := _params opt0;
  grads := grads opt0;
  state := state opt0;
  directions := directions opt0;
  bool_normalize := bool_normalize opt0;
  fixed_momentum := 1 / 2;
  qpmode := qpmode opt0;
  qpsolver := qpsolver opt0;
  Hv := Hv opt0;
  _max_iter_adj := _max_iter_adj opt0;
  dim := dim opt0;
  Q := Q opt0;
  c := c opt0;
  G := G opt0;
  iter := iter opt0;
  alpha := alpha opt0;
  alpha_norm := alpha_norm opt0;
  gamma := gamma opt0;
  gammalb := gammalb opt0;
  radius := radius opt0;
  radiusub := radiusub opt0;
  decayrule := decayrule opt0;
  adjrule := adjrule opt0;
  delta := delta opt0;
  ghg := ghg opt0
|}.

(** The heavy-ball buffer after the prologue of [step] on [opt_fixed],
    the optimizer and the direction there, and the state of the loop
    after the rejected pass. *)
Definition buf_fixed : tensor := [1 / 2 * 0 + -1 * (2 * 1)].

Definition s1_fixed : DRSOMB.t :=
  set_state
    (set_heap (set_grads opt_fixed (fun _ => [2 * 1])) [[1]; [1]])
    (sset (sset (state opt_fixed) 0%nat "fixed_momentum_buffer" [0])
       0%nat "fixed_momentum_buffer" buf_fixed).

Definition dirs_fixed : list direction := [[(0%nat, buf_fixed)]].

Definition s_moved_fixed : DRSOMB.t :=
  _use_new_d (set_alpha_norm (set_alpha s1_fixed (vec_of [1; 0])) 1)
    (build_direction (set_alpha_norm (set_alpha s1_fixed (vec_of [1; 0])) 1)
       dirs_fixed (vec_of [1; 0])).

Definition L_rej_fixed : locals :=
  {| self_ :=
       _set_param
         (set_radius
            (set_gamma s_moved_fixed (Rmax (1 / 1000000 * 50) (1 / 10000)))
            (Rmax (10 * (1 / 5)) (1 / 100000000)))
         [1%nat];
     acc_step := false; iter_adj := 2 |}.

End StepDefinitions.

(** ** The reduced model and the accepted step *)

Section ModelDefinitions.
Import DRSOMB.

(** The sum of [f] over a list, added up from the left as a [for] loop
    with [+=] does. *)
Definition sum_over {B} (l : list B) (f : B -> R) : R :=
  fold_left (fun acc x => acc + f x) l 0.

(** The inner product of two flat tensors, [torch.mul(u, v).sum()]. *)
Definition tdot (u v : tensor) : R := tsum (tmul u v).

(** The loop of [compute_Q_via_hvp] that fills [self.Hv]. *)
Definition fill_Hv (cl : Closure) (s : DRSOMB.t) (dirs : list direction)
    (style : nat) (i : nat) (Hvl : list (list tensor)) : result (list (list tensor)) :=
  if decide (style = 0%nat) then
    if decide (i < length Hvl)%nat
    then Ok (<[i := hv cl s (nth i dirs [])]> Hvl)
    else Raise IndexError
  else if decide (style = 1%nat) then
    Raise (ValueError "the finite diff option is unused,")
  else Raise (ValueError "not implemented,").


(** A direction as [step] gathers them: a dict over [self._params] whose
    tensor at [p] has the shape of [p], as [p.grad] has. *)
Definition shaped (s : DRSOMB.t) (d : direction) : Prop :=
  d.*1 = _params s /\
  forall p, p ∈ _params s ->
    length (dget d p) = length (read (heap s) p) /\
    length (grads s p) = length (read (heap s) p).

(** The configuration of the optimizer and its counter [iter]: the
    attributes that [step] reads and writes nowhere but at [self.iter += 1]. *)
Definition setup (s : DRSOMB.t) :=
  (_params s, directions s, bool_normalize s, fixed_momentum s, qpmode s,
   qpsolver s, _max_iter_adj s, gammalb s, radiusub s, decayrule s, adjrule s,
   delta s, iter s).

(** ** Scenario S: a trial step that is accepted

    Scenario R with a solver that answers half the step: the trial
    point is the minimizer [x = 0]. *)
Definition U_half : Utils := fixed_solver (vec_of [1 / 2; 0]) (1 / 2).

Definition s_half : DRSOMB.t := s_try (vec_of [1 / 2; 0]) (1 / 2).

Definition est_half : R := trs_est 2 zeros2 (vec_of [-4; 6]) (vec_of [1 / 2; 0]).

(** The optimizer of Scenario R at the head of the loop, with the
    direction [momentum_g] configured. *)
Definition s1_g : DRSOMB.t := {|
  heap := heap s1_0;
  _params := _params s1_0;
  grads := grads s1_0;
  state := sset (fun _ _ => None) 0%nat "momentum_g" [3];
  directions := ["momentum_g"%string];
  bool_normalize := bool_normalize s1_0;
  fixed_momentum := fixed_momentum s1_0;
  qpmode := qpmode s1_0;
  qpsolver := qpsolver s1_0;
  Hv := Hv s1_0;
  _max_iter_adj := _max_iter_adj s1_0;
  dim := dim s1_0;
  Q := Q s1_0;
  c := c s1_0;
  G := G s1_0;
  iter := iter s1_0;
  alpha := alpha s1_0;
  alpha_norm := alpha_norm s1_0;
  gamma := gamma s1_0;
  gammalb := gammalb s1_0;
  radius := radius s1_0;
  radiusub := radiusub s1_0;
  decayrule := decayrule s1_0;
  adjrule := adjrule s1_0;
  delta := delta s1_0;
  ghg := ghg s1_0
|}.

Definition s_half_g : DRSOMB.t :=
  set_alpha_norm (set_alpha s1_g (vec_of [1 / 2; 0])) (1 / 2).

End ModelDefinitions.

(** Settles the next comparison of two real constants in the goal. *)
Ltac real_decide :=
  match goal with
  | |- context [@decide ?P ?d] =>
      let H := fresh "Hd" in
      destruct (@decide P d) as [H|H];
      [ try (exfalso; cbv [mat_of vec_of nth madd mscale vneg] in H; lra)
      | try (exfalso; apply H; cbv [mat_of vec_of nth madd mscale vneg]; lra) ]
  | |- context [bool_decide ?P] =>
      first
        [ rewrite (bool_decide_eq_true_2 P) by (cbv [mat_of vec_of nth madd mscale vneg]; lra)
        | rewrite (bool_decide_eq_false_2 P) by (cbv [mat_of vec_of nth madd mscale vneg]; lra) ]
  end.

(** * Properties *)

(** ** Sums, inner products and quadratic forms *)

Lemma sum_n_ext n f g :
  (forall i, (i < n)%nat -> f i = g i) -> sum_n n f = sum_n n g.
Proof.
  induction n as [|n IH]; intros H; simpl; [reflexivity|].
  rewrite IH by (intros; apply H; lia). rewrite H by lia. reflexivity.
Qed.

Lemma sum_n_plus n f g :
  sum_n n (fun i => f i + g i) = sum_n n f + sum_n n g.
Proof. induction n as [|n IH]; simpl; [lra|rewrite IH; lra]. Qed.

Lemma sum_n_scal n a f :
  sum_n n (fun i => a * f i) = a * sum_n n f.
Proof. induction n as [|n IH]; simpl; [lra|rewrite IH; lra]. Qed.

Lemma sum_n_nonneg n f :
  (forall i, (i < n)%nat -> 0 <= f i) -> 0 <= sum_n n f.
Proof.
  induction n as [|n IH]; intros H; simpl; [lra|].
  assert (0 <= sum_n n f) by (apply IH; intros; apply H; lia).
  assert (0 <= f n) by (apply H; lia). lra.
Qed.

Lemma sum_n_pos n f :
  (forall i, (i < n)%nat -> 0 <= f i) ->
  (exists i, (i < n)%nat /\ 0 < f i) -> 0 < sum_n n f.
Proof.
  induction n as [|n IH]; intros H [i [Hi Hp]]; [lia|]. simpl.
  assert (0 <= f n) by (apply H; lia).
  assert (0 <= sum_n n f) by (apply sum_n_nonneg; intros; apply H; lia).
  destruct (decide (i = n)) as [->|Hne]; [lra|].
  assert (0 < sum_n n f); [|lra].
  apply IH; [intros; apply H; lia|]. exists i. split; [lia|assumption].
Qed.

Lemma dot_ext_l n u u' v :
  (forall i, (i < n)%nat -> u i = u' i) -> dot n u v = dot n u' v.
Proof. intros H. apply sum_n_ext. intros i Hi. rewrite H by assumption. reflexivity. Qed.

Lemma dot_comm n u v : dot n u v = dot n v u.
Proof. apply sum_n_ext. intros. lra. Qed.

Lemma dot_self_nonneg n v : 0 <= dot n v v.
Proof. apply sum_n_nonneg. intros. nra. Qed.

Lemma dot_self_pos n v : nonzero n v -> 0 < dot n v v.
Proof.
  intros [i [Hi Hv]]. apply sum_n_pos; [intros; nra|].
  exists i. split; [assumption|]. nra.
Qed.

Lemma dot_vneg_l n c v : dot n (vneg c) v = - dot n c v.
Proof.
  unfold dot, vneg.
  replace (- sum_n n (fun i => c i * v i)) with (-1 * sum_n n (fun i => c i * v i)) by lra.
  rewrite <- sum_n_scal. apply sum_n_ext. intros. lra.
Qed.

Lemma dot_sub_r n u v w :
  dot n u (fun i => v i - w i) = dot n u v - dot n u w.
Proof.
  unfold dot.
  replace (sum_n n (fun i => u i * v i) - sum_n n (fun i => u i * w i))
    with (sum_n n (fun i => u i * v i) + -1 * sum_n n (fun i => u i * w i)) by lra.
  rewrite <- sum_n_scal, <- sum_n_plus. apply sum_n_ext. intros. lra.
Qed.

Lemma dot_scal_l n a u v : dot n (fun i => a * u i) v = a * dot n u v.
Proof. unfold dot. rewrite <- sum_n_scal. apply sum_n_ext. intros. lra. Qed.

Lemma sum_n_zero n : sum_n n (fun _ => 0) = 0.
Proof. induction n as [|n IH]; simpl; [reflexivity|rewrite IH; lra]. Qed.

Lemma matvec_eye n v i : (i < n)%nat -> matvec n eye v i = v i.
Proof.
  intros Hi. unfold matvec, eye. revert Hi. induction n as [|n IH]; intros Hi; [lia|].
  simpl. destruct (decide (i = n)) as [->|Hne].
  - rewrite Nat.eqb_refl.
    rewrite (sum_n_ext n _ (fun _ => 0)).
    + rewrite sum_n_zero. lra.
    + intros j Hj. destruct (Nat.eqb_spec n j); [lia|lra].
  - rewrite IH by lia. destruct (Nat.eqb_spec i n); [lia|lra].
Qed.

Lemma matvec_madd n A B v i :
  matvec n (madd A B) v i = matvec n A v i + matvec n B v i.
Proof. unfold matvec, madd. rewrite <- sum_n_plus. apply sum_n_ext. intros. lra. Qed.

Lemma matvec_mscale n A s v i :
  matvec n (mscale A s) v i = s * matvec n A v i.
Proof. unfold matvec, mscale. rewrite <- sum_n_scal. apply sum_n_ext. intros. lra. Qed.

Lemma matvec_sub n A v w i :
  matvec n A (fun j => v j - w j) i = matvec n A v i - matvec n A w i.
Proof.
  unfold matvec.
  replace (sum_n n (fun j => A i j * v j) - sum_n n (fun j => A i j * w j))
    with (sum_n n (fun j => A i j * v j) + -1 * sum_n n (fun j => A i j * w j)) by lra.
  rewrite <- sum_n_scal, <- sum_n_plus. apply sum_n_ext. intros. lra.
Qed.

(** The quadratic form of [Q + tr * lam] under the identity metric. *)
Lemma quad_shift_eye n Q tr lam v :
  (forall i j, (i < n)%nat -> (j < n)%nat -> tr i j = eye i j) ->
  quad n (madd Q (mscale tr lam)) v = quad n Q v + lam * dot n v v.
Proof.
  intros Htr. unfold quad.
  rewrite (dot_ext_l n _ (fun i => matvec n Q v i + lam * v i)).
  - unfold dot. rewrite <- sum_n_scal, <- sum_n_plus. apply sum_n_ext. intros. lra.
  - intros i Hi. rewrite matvec_madd, matvec_mscale. f_equal. f_equal.
    rewrite <- (matvec_eye n v i Hi). unfold matvec. apply sum_n_ext.
    intros j Hj. rewrite Htr by assumption. reflexivity.
Qed.

(** ** The trust-region solver of [drsomnd_profile.py] *)

Section Solver.
Import DRSOMF.

Lemma bind_Ok {A B} (x : A) (f : A -> result B) : (Ok x ≫= f) = f x.
Proof. reflexivity. Qed.

Lemma bind_inv {A B} (m : result A) (f : A -> result B) (y : B) :
  (m ≫= f) = Ok y -> exists x, m = Ok x /\ f x = Ok y.
Proof. destruct m as [x|]; intros H; try discriminate. exists x. auto. Qed.

Lemma compute_root_inv K n Q c gamma tr it lmb a nrm act :
  _compute_root K n Q c gamma tr = Ok (it, lmb, a, nrm, act) ->
  exists lmin lmax,
    py_min (eigvalsh K n Q) = Ok lmin /\
    py_max (eigvalsh K n Q) = Ok lmax /\
    lmb = code_lambda lmin lmax gamma /\
    nrm = _norm n a tr /\
    (lsolve K n (madd Q (mscale tr lmb)) (vneg c) = Some a \/
     (lsolve K n (madd Q (mscale tr lmb)) (vneg c) = None /\
      lsolve K n (madd Q (mscale tr (lmb + 1 / 10000))) (vneg c) = Some a)).
Proof.
  unfold _compute_root. intros H.
  apply bind_inv in H as (lmin & Hmin & H).
  apply bind_inv in H as (lmax & Hmax & H).
  exists lmin, lmax. cbv zeta in H.
  fold (code_lambda lmin lmax gamma) in H.
  apply bind_inv in H as (a' & Ha & H).
  injection H as <- <- <- <- <-.
  repeat split; try assumption.
  destruct (lsolve K n (madd Q (mscale tr (code_lambda lmin lmax gamma))) (vneg c))
    as [a1|] eqn:H1.
  - left. congruence.
  - right. split; [reflexivity|].
    destruct (lsolve K n (madd Q (mscale tr (code_lambda lmin lmax gamma + 1 / 10000))) (vneg c));
      congruence.
Qed.

Lemma code_lambda_ge_lb lmin lmax gamma :
  0 <= gamma -> Rmax 0 (- lmin) <= code_lambda lmin lmax gamma.
Proof.
  intros Hg. unfold code_lambda. cbv zeta.
  set (lb := Rmax 0 (- lmin)).
  assert (0 <= lb) by apply Rmax_l.
  destruct (decide (lb < lmax)) as [Hlt|Hnlt];
    unfold Rmax at 1; destruct (Rle_dec (1 - gamma) 0); nra.
Qed.

Lemma code_lambda_gt_lb lmin lmax gamma :
  0 < gamma -> Rmax 0 (- lmin) < code_lambda lmin lmax gamma.
Proof.
  intros Hg. unfold code_lambda. cbv zeta.
  set (lb := Rmax 0 (- lmin)).
  assert (0 <= lb) by apply Rmax_l.
  destruct (decide (lb < lmax)) as [Hlt|Hnlt];
    unfold Rmax at 1; destruct (Rle_dec (1 - gamma) 0); nra.
Qed.

Lemma code_lambda_mono lmin lmax g1 g2 :
  0 < g1 -> g1 < g2 -> g2 <= 1 ->
  code_lambda lmin lmax g1 < code_lambda lmin lmax g2.
Proof.
  intros H1 H12 H2. unfold code_lambda. cbv zeta.
  set (lb := Rmax 0 (- lmin)).
  assert (0 <= lb) by apply Rmax_l.
  rewrite !Rmax_left by lra.
  destruct (decide (lb < lmax)); nra.
Qed.

Lemma code_lambda_spec lmin lmax gamma :
  Rmax 0 (- lmin) + 1 <= lmax ->
  code_lambda lmin lmax gamma = spec_lambda lmin lmax gamma.
Proof.
  intros H. unfold code_lambda, spec_lambda. cbv zeta.
  set (lb := Rmax 0 (- lmin)) in *.
  destruct (decide (lb < lmax)); [|lra].
  rewrite (Rmax_left lmax) by lra. reflexivity.
Qed.

Lemma py_min_unique l a b : py_min l = Ok a -> py_min l = Ok b -> a = b.
Proof. congruence. Qed.

(** What a successful solve of [(Q + tr * lam) alpha = -c] gives under the
    identity metric. *)
Lemma solved_quad K n Q c tr lam a :
  agrees n tr eye ->
  lsolve_ok K n (madd Q (mscale tr lam)) (vneg c) ->
  lsolve K n (madd Q (mscale tr lam)) (vneg c) = Some a ->
  quad n Q a + lam * dot n a a = - dot n c a.
Proof.
  intros Htr [Hs _] Ha.
  rewrite <- (quad_shift_eye n Q tr lam a Htr), <- dot_vneg_l.
  unfold quad. apply dot_ext_l. intros i Hi. apply Hs; assumption.
Qed.

Lemma psd_shift n Q lmin lam v :
  (forall v, lmin * dot n v v <= quad n Q v) ->
  Rmax 0 (- lmin) <= lam ->
  0 <= quad n Q v + lam * dot n v v.
Proof.
  intros HR Hl. specialize (HR v). pose proof (dot_self_nonneg n v).
  pose proof (Rmax_l 0 (- lmin)). pose proof (Rmax_r 0 (- lmin)). nra.
Qed.

Lemma root_decrease_nonneg K n Q c gamma tr it lmb a nrm act :
  agrees n tr eye ->
  eigh_ok K n Q ->
  (forall lam, lsolve_ok K n (madd Q (mscale tr lam)) (vneg c)) ->
  0 <= gamma ->
  _compute_root K n Q c gamma tr = Ok (it, lmb, a, nrm, act) ->
  0 <= trs_est n Q c a.
Proof.
  intros Htr (lmin & Hmin & HR) Hok Hg H.
  apply compute_root_inv in H as (lmin' & lmax & Hmin' & _ & -> & _ & Hsol).
  assert (lmin' = lmin) as -> by (eapply py_min_unique; eassumption).
  pose proof (code_lambda_ge_lb lmin lmax gamma Hg) as Hlb.
  assert (exists lam, Rmax 0 (- lmin) <= lam /\
            lsolve K n (madd Q (mscale tr lam)) (vneg c) = Some a) as (lam & Hlam & Ha).
  { destruct Hsol as [Ha|[_ Ha]]; eexists; (split; [|exact Ha]); lra. }
  pose proof (solved_quad K n Q c tr lam a Htr (Hok lam) Ha) as Heq.
  specialize (HR a). pose proof (dot_self_nonneg n a).
  pose proof (Rmax_l 0 (- lmin)). pose proof (Rmax_r 0 (- lmin)).
  unfold trs_est. fold (quad n Q a). nra.
Qed.

(** A vector supported on index 0. *)
Lemma sum_n_only0 n f :
  (1 <= n)%nat -> (forall i, (0 < i < n)%nat -> f i = 0) -> sum_n n f = f 0%nat.
Proof.
  intros Hn H. induction n as [|n IH]; [lia|]. simpl.
  destruct n as [|n]; [simpl; lra|].
  rewrite IH by (try lia; intros; apply H; lia). rewrite (H (S n)) by lia. lra.
Qed.

Lemma trs_est_only0 n Q c a :
  (1 <= n)%nat -> (forall i, (0 < i)%nat -> a i = 0) ->
  trs_est n Q c a = - 1 / 2 * (Q 0%nat 0%nat * a 0%nat * a 0%nat) - c 0%nat * a 0%nat.
Proof.
  intros Hn Ha. unfold trs_est, dot.
  rewrite !sum_n_only0; try assumption.
  - unfold matvec. rewrite sum_n_only0; try assumption; [lra|].
    intros i Hi. rewrite Ha by lia. lra.
  - intros i Hi. rewrite Ha by lia. lra.
  - intros i Hi. rewrite Ha by lia. lra.
Qed.

Lemma first_step_nonneg n Qm cv g dmax tr :
  agrees n tr eye -> (1 <= n)%nat -> 0 <= g -> 0 <= dmax ->
  (0 < Qm 0%nat 0%nat \/ cv 0%nat <= 0) ->
  0 <= trs_est n Qm cv
         (let alpha := vset zeros1 0
            (if decide (0 < Qm 0%nat 0%nat)
             then - cv 0%nat / Qm 0%nat 0%nat / (1 + g) else 1 / 10000) in
          if decide (dmax < _norm n alpha tr)
          then vscale (vscale alpha (/ vnorm n alpha)) dmax else alpha).
Proof.
  intros Htr Hn Hg Hd Hc. cbv zeta.
  set (x := if decide (0 < Qm 0%nat 0%nat)
            then - cv 0%nat / Qm 0%nat 0%nat / (1 + g) else 1 / 10000).
  set (al := vset zeros1 0 x).
  assert (Hal0 : al 0%nat = x) by reflexivity.
  assert (Hali : forall i, (0 < i)%nat -> al i = 0).
  { intros i Hi. unfold al, vset, zeros1. destruct (Nat.eqb_spec i 0); [lia|reflexivity]. }
  assert (Hdot : dot n al al = x * x).
  { unfold dot. rewrite sum_n_only0; [rewrite Hal0; reflexivity|assumption|].
    intros i Hi. rewrite Hali by lia. lra. }
  assert (Hnorm : _norm n al tr = Rabs x).
  { unfold _norm. rewrite (dot_ext_l n _ al).
    - rewrite Hdot. apply sqrt_Rsqr_abs.
    - intros i Hi. rewrite <- (matvec_eye n al i Hi). unfold matvec.
      apply sum_n_ext. intros j Hj. rewrite Htr by assumption. reflexivity. }
  assert (Hvn : vnorm n al = Rabs x).
  { unfold vnorm. rewrite Hdot. apply sqrt_Rsqr_abs. }
  (* the sign of the model at [x * t], for a scaling [0 <= t <= 1] *)
  assert (Hkey : forall t, 0 <= t <= 1 ->
            0 <= - 1 / 2 * (Qm 0%nat 0%nat * (x * t) * (x * t)) - cv 0%nat * (x * t)).
  { intros t Ht. unfold x. destruct (decide (0 < Qm 0%nat 0%nat)) as [Hq|Hq].
    - set (q := Qm 0%nat 0%nat) in *. set (c0 := cv 0%nat) in *.
      assert (Hx : - c0 / q / (1 + g) * (q * (1 + g)) = - c0) by (field; lra).
      set (y := - c0 / q / (1 + g)) in *.
      assert (Hc0 : c0 = - (y * (q * (1 + g)))) by lra.
      clearbody y c0 q. subst c0.
      replace (- 1 / 2 * (q * (y * t) * (y * t)) - - (y * (q * (1 + g))) * (y * t))
        with (q * (y * y) * t * (1 + g - t / 2)) by field.
      assert (0 <= y * y) by nra. assert (0 <= q * (y * y)) by nra.
      assert (0 <= q * (y * y) * t) by nra. nra.
    - destruct Hc as [Hc|Hc]; [contradiction|].
      set (q := Qm 0%nat 0%nat) in *. set (c0 := cv 0%nat) in *.
      assert (q <= 0) by lra.
      assert (0 <= 1 / 10000 * t) by lra.
      assert (0 <= (1 / 10000 * t) * (1 / 10000 * t)) by nra. nra. }
  destruct (decide (dmax < _norm n al tr)) as [Hclip|Hclip].
  - rewrite trs_est_only0; try assumption.
    + unfold vscale. rewrite Hal0, Hvn. rewrite Hnorm in Hclip.
      assert (0 < Rabs x) by lra.
      replace (x * / Rabs x * dmax) with (x * (dmax / Rabs x)) by (field; lra).
      apply Hkey. split.
      * apply Rmult_le_pos; [lra|]. left. apply Rinv_0_lt_compat. assumption.
      * apply Rmult_le_reg_r with (Rabs x); [assumption|].
        replace (dmax / Rabs x * Rabs x) with dmax by (field; lra). lra.
    + intros i Hi. unfold vscale. rewrite Hali by assumption. lra.
  - rewrite trs_est_only0; try assumption. rewrite Hal0.
    specialize (Hkey 1). rewrite !Rmult_1_r in Hkey. apply Hkey. lra.
Qed.

Lemma singular_quad n A : singular n A -> exists v, nonzero n v /\ quad n A v = 0.
Proof.
  intros (v & Hv & H0). exists v. split; [assumption|].
  unfold quad. rewrite (dot_ext_l n _ zeros1) by (intros; apply H0; assumption).
  unfold dot, zeros1. rewrite (sum_n_ext n _ (fun _ => 0)) by (intros; lra).
  apply sum_n_zero.
Qed.

(** Above the bound [lb] the shifted matrix is nonsingular. *)
Lemma shifted_nonsingular n Q tr lmin lam :
  agrees n tr eye ->
  (forall v, lmin * dot n v v <= quad n Q v) ->
  Rmax 0 (- lmin) < lam ->
  ~ singular n (madd Q (mscale tr lam)).
Proof.
  intros Htr HR Hl Hs. apply singular_quad in Hs as (v & Hv & Hq).
  rewrite (quad_shift_eye n Q tr lam v Htr) in Hq.
  specialize (HR v). pose proof (dot_self_pos n v Hv).
  pose proof (Rmax_l 0 (- lmin)). pose proof (Rmax_r 0 (- lmin)). nra.
Qed.

Lemma py_max_of_min l a : py_min l = Ok a -> exists b, py_max l = Ok b.
Proof. destruct l; [discriminate|]. intros _. eexists. reflexivity. Qed.

(** Under the identity metric the root finder returns. *)
Lemma compute_root_returns K n Q c gamma tr :
  agrees n tr eye ->
  eigh_ok K n Q ->
  (forall lam, lsolve_ok K n (madd Q (mscale tr lam)) (vneg c)) ->
  0 <= gamma ->
  exists it lmb a nrm act,
    _compute_root K n Q c gamma tr = Ok (it, lmb, a, nrm, act).
Proof.
  intros Htr (lmin & Hmin & HR) Hok Hg.
  destruct (py_max_of_min _ _ Hmin) as (lmax & Hmax).
  unfold _compute_root. rewrite Hmin, Hmax, !bind_Ok. cbv zeta.
  fold (code_lambda lmin lmax gamma).
  pose proof (code_lambda_ge_lb lmin lmax gamma Hg) as Hlb.
  destruct (lsolve K n (madd Q (mscale tr (code_lambda lmin lmax gamma))) (vneg c))
    as [a|] eqn:H1.
  - rewrite bind_Ok. eauto 10.
  - destruct (lsolve K n (madd Q (mscale tr (code_lambda lmin lmax gamma + 1 / 10000))) (vneg c))
      as [a|] eqn:H2.
    + rewrite bind_Ok. eauto 10.
    + exfalso. destruct (Hok (code_lambda lmin lmax gamma + 1 / 10000)) as [_ Hc].
      apply (shifted_nonsingular n Q tr lmin (code_lambda lmin lmax gamma + 1 / 10000));
        auto. lra.
Qed.

(** For [gamma > 0] the first solve succeeds: the retry is not taken. *)
Lemma compute_root_first_solve K n Q c gamma tr it lmb a nrm act :
  agrees n tr eye ->
  eigh_ok K n Q ->
  (forall lam, lsolve_ok K n (madd Q (mscale tr lam)) (vneg c)) ->
  0 < gamma ->
  _compute_root K n Q c gamma tr = Ok (it, lmb, a, nrm, act) ->
  exists lmin lmax,
    py_min (eigvalsh K n Q) = Ok lmin /\ py_max (eigvalsh K n Q) = Ok lmax /\
    (forall v, lmin * dot n v v <= quad n Q v) /\
    lmb = code_lambda lmin lmax gamma /\ nrm = _norm n a tr /\
    lsolve K n (madd Q (mscale tr lmb)) (vneg c) = Some a.
Proof.
  intros Htr (lmin & Hmin & HR) Hok Hg H.
  apply compute_root_inv in H as (lmin' & lmax & Hmin' & Hmax & -> & -> & Hsol).
  assert (lmin' = lmin) as -> by (eapply py_min_unique; eassumption).
  exists lmin, lmax. repeat split; try assumption.
  destruct Hsol as [Ha|[Hn _]]; [assumption|]. exfalso.
  destruct (Hok (code_lambda lmin lmax gamma)) as [_ Hc].
  apply (shifted_nonsingular n Q tr lmin (code_lambda lmin lmax gamma)); auto.
  apply code_lambda_gt_lb. assumption.
Qed.

(** A larger multiplier gives a step that is no longer. *)
Lemma step_norm_antitone K n Q c tr lmin l1 l2 a1 a2 :
  agrees n tr eye ->
  (forall v, lmin * dot n v v <= quad n Q v) ->
  (forall lam, lsolve_ok K n (madd Q (mscale tr lam)) (vneg c)) ->
  Rmax 0 (- lmin) <= l1 -> l1 < l2 ->
  lsolve K n (madd Q (mscale tr l1)) (vneg c) = Some a1 ->
  lsolve K n (madd Q (mscale tr l2)) (vneg c) = Some a2 ->
  dot n a2 a2 <= dot n a1 a1.
Proof.
  intros Htr HR Hok Hl1 Hl12 H1 H2.
  destruct (Hok l1) as [Hs1 _]. destruct (Hok l2) as [Hs2 _].
  specialize (Hs1 a1 H1). specialize (Hs2 a2 H2).
  set (w := fun i => a1 i - a2 i).
  (* (Q + l1 I) w = (l2 - l1) a2 *)
  assert (Hw : forall i, (i < n)%nat ->
            matvec n (madd Q (mscale tr l1)) w i = (l2 - l1) * a2 i).
  { intros i Hi. unfold w. rewrite matvec_sub, Hs1 by assumption.
    specialize (Hs2 i Hi). rewrite matvec_madd, matvec_mscale in Hs2.
    rewrite matvec_madd, matvec_mscale.
    assert (matvec n tr a2 i = a2 i) as Ht.
    { rewrite <- (matvec_eye n a2 i Hi). unfold matvec. apply sum_n_ext.
      intros j Hj. rewrite Htr by assumption. reflexivity. }
    rewrite Ht in *. lra. }
  assert (Hq : quad n (madd Q (mscale tr l1)) w = (l2 - l1) * dot n a2 w).
  { unfold quad. rewrite (dot_ext_l n _ (fun i => (l2 - l1) * a2 i)) by exact Hw.
    apply dot_scal_l. }
  rewrite (quad_shift_eye n Q tr l1 w Htr) in Hq.
  pose proof (psd_shift n Q lmin l1 w HR Hl1) as Hpsd.
  assert (Hd : dot n a2 w = dot n a2 a1 - dot n a2 a2) by apply dot_sub_r.
  assert (Hww : dot n w w = dot n a1 a1 - 2 * dot n a2 a1 + dot n a2 a2).
  { unfold w at 1. unfold dot at 1.
    rewrite (sum_n_ext n _ (fun i => a1 i * w i + -1 * (a2 i * w i))) by (intros; lra).
    rewrite sum_n_plus, sum_n_scal. fold (dot n a1 w) (dot n a2 w).
    unfold w. rewrite !dot_sub_r. rewrite (dot_comm n a1 a2). lra. }
  pose proof (dot_self_nonneg n w) as Hwn.
  assert (0 <= dot n a2 w).
  { apply Rmult_le_reg_l with (l2 - l1); [lra|]. lra. }
  lra.
Qed.

(** ** The closed-form kernel meets the interface *)
Lemma matvec_1 A x : matvec 1 A x 0%nat = A 0%nat 0%nat * x 0%nat.
Proof. unfold matvec. simpl. lra. Qed.

Lemma matvec_2 A x i :
  matvec 2 A x i = A i 0%nat * x 0%nat + A i 1%nat * x 1%nat.
Proof. unfold matvec. simpl. lra. Qed.

Lemma exact_lsolve_ok_1 A b : lsolve_ok exact_kernel 1 A b.
Proof.
  split.
  - intros x Hx i Hi. assert (i = 0%nat) as -> by lia. rewrite matvec_1.
    cbn [lsolve exact_kernel exact_lsolve] in Hx.
    destruct (decide (A 0%nat 0%nat = 0)) as [|Hne]; [discriminate|].
    injection Hx as <-. cbv [vec_of nth]. field. assumption.
  - cbn [lsolve exact_kernel exact_lsolve].
    destruct (decide (A 0%nat 0%nat = 0)) as [He|]; [intros _|discriminate].
    exists (fun _ => 1). split.
    + exists 0%nat. split; [lia|lra].
    + intros i Hi. assert (i = 0%nat) as -> by lia. rewrite matvec_1, He. lra.
Qed.

Lemma exact_lsolve_ok_2 A b : lsolve_ok exact_kernel 2 A b.
Proof.
  split.
  - intros x Hx i Hi. rewrite matvec_2.
    cbn [lsolve exact_kernel exact_lsolve] in Hx. cbv zeta in Hx.
    destruct (decide (_ = 0)) as [|Hne]; [discriminate|].
    injection Hx as <-. cbv [vec_of nth].
    destruct i as [|[|i]]; [field; assumption|field; assumption|lia].
  - cbn [lsolve exact_kernel exact_lsolve]. cbv zeta.
    destruct (decide (_ = 0)) as [Hd|]; [intros _|discriminate].
    set (a := A 0%nat 0%nat) in *. set (b' := A 0%nat 1%nat) in *.
    set (c' := A 1%nat 0%nat) in *. set (d := A 1%nat 1%nat) in *.
    assert (Hrow : forall v0 v1, a * v0 + b' * v1 = 0 -> c' * v0 + d * v1 = 0 ->
              forall i, (i < 2)%nat ->
              matvec 2 A (vec_of [v0; v1]) i = 0).
    { intros v0 v1 H0 H1 i Hi. rewrite matvec_2. cbv [vec_of nth].
      destruct i as [|[|i]]; [exact H0|exact H1|lia]. }
    destruct (Req_dec a 0) as [Ha|Ha]; [destruct (Req_dec b' 0) as [Hb|Hb]|].
    + destruct (Req_dec c' 0) as [Hc|Hc]; [destruct (Req_dec d 0) as [Hd'|Hd']|].
      * exists (vec_of [1; 0]). split; [exists 0%nat; split; [lia|cbv [vec_of nth]; lra]|].
        apply Hrow; nra.
      * exists (vec_of [d; - c']). split; [exists 0%nat; split; [lia|cbv [vec_of nth]; lra]|].
        apply Hrow; nra.
      * exists (vec_of [d; - c']). split; [exists 1%nat; split; [lia|cbv [vec_of nth]; lra]|].
        apply Hrow; nra.
    + exists (vec_of [b'; - a]). split; [exists 0%nat; split; [lia|cbv [vec_of nth]; lra]|].
      apply Hrow; nra.
    + exists (vec_of [b'; - a]). split; [exists 1%nat; split; [lia|cbv [vec_of nth]; lra]|].
      apply Hrow; nra.
Qed.

Lemma exact_eigh_ok_1 Q : eigh_ok exact_kernel 1 Q.
Proof.
  exists (Q 0%nat 0%nat). split; [reflexivity|].
  intros v. unfold quad, dot. simpl. rewrite matvec_1. lra.
Qed.

Lemma exact_eigh_ok_2 Q : symmetric 2 Q -> eigh_ok exact_kernel 2 Q.
Proof.
  intros Hs.
  set (a := Q 0%nat 0%nat). set (b := Q 1%nat 0%nat). set (d := Q 1%nat 1%nat).
  set (r := sqrt ((a - d) / 2 * ((a - d) / 2) + b * b)).
  assert (Hr0 : 0 <= r) by apply sqrt_pos.
  assert (Hr2 : r * r = (a - d) / 2 * ((a - d) / 2) + b * b).
  { apply sqrt_sqrt. pose proof (Rle_0_sqr ((a - d) / 2)). pose proof (Rle_0_sqr b).
    unfold Rsqr in *. lra. }
  exists ((a + d) / 2 - r). split.
  - cbn [eigvalsh exact_kernel exact_eigvalsh py_min fold_left]. cbv zeta.
    fold a b d r. f_equal. apply Rmin_left. lra.
  - intros v. unfold quad, dot. simpl. rewrite !matvec_2.
    assert (Q 0%nat 1%nat = b) as -> by (apply Hs; lia). fold a b d.
    set (x := v 0%nat). set (y := v 1%nat).
    set (e := (a - d) / 2) in *.
    assert (Ha : a = (a + d) / 2 + e) by (unfold e; lra).
    assert (Hd : d = (a + d) / 2 - e) by (unfold e; lra).
    set (m := (a + d) / 2) in *. clearbody m e r. subst a d.
    (* (r + e) x^2 + 2 b x y + (r - e) y^2 >= 0 where r^2 = e^2 + b^2 *)
    assert (Hre : 0 <= r + e) by nra.
    assert (Hre' : 0 <= r - e) by nra.
    assert (Hprod : (r + e) * (r - e) = b * b) by nra.
    assert (Hgoal : 0 <= (r + e) * (x * x) + 2 * b * (x * y) + (r - e) * (y * y)).
    { destruct (Req_dec (r + e) 0) as [Hz|Hnz].
      - assert (Hbb : b * b = 0) by (rewrite <- Hprod, Hz; ring).
        assert (Hb0 : b = 0) by (destruct (Rmult_integral _ _ Hbb); assumption).
        rewrite Hb0, Hz. pose proof (Rle_0_sqr y) as Hy. unfold Rsqr in Hy.
        assert (0 <= (r - e) * (y * y)) by (apply Rmult_le_pos; assumption). lra.
      - assert (0 < r + e) by lra.
        apply Rmult_le_reg_l with (r + e); [assumption|].
        replace ((r + e) * ((r + e) * (x * x) + 2 * b * (x * y) + (r - e) * (y * y)))
          with (((r + e) * x + b * y) * ((r + e) * x + b * y) +
                ((r + e) * (r - e) - b * b) * (y * y)) by ring.
        rewrite Hprod. replace ((b * b - b * b) * (y * y)) with 0 by ring.
        pose proof (Rle_0_sqr ((r + e) * x + b * y)) as Hsq. unfold Rsqr in Hsq. lra. }
    rewrite Ha, Hd. lra.
Qed.

Lemma Rmax_0_neg x : 0 <= x -> Rmax 0 (- x) = 0.
Proof. intros. apply Rmax_left. lra. Qed.

Lemma scenario_A_root :
  _compute_root exact_kernel 1 (mat_of [[2]]) (vec_of [-1]) (1 / 10) (mat_of [[1]])
  = Ok (0%nat, 1 / 5, vec_of [- - 1 / (2 + 1 * (1 / 5))],
        _norm 1 (vec_of [- - 1 / (2 + 1 * (1 / 5))]) (mat_of [[1]]), true).
Proof.
  unfold _compute_root.
  cbn [eigvalsh exact_kernel exact_eigvalsh py_min py_max fold_left lsolve exact_lsolve].
  rewrite !bind_Ok. cbv zeta.
  replace (mat_of [[2]] 0%nat 0%nat) with 2 by reflexivity.
  rewrite (Rmax_0_neg 2) by lra.
  real_decide.
  rewrite (Rmax_left (1 - 1 / 10) 0) by lra.
  replace (1 / 10 * 2 + (1 - 1 / 10) * 0) with (1 / 5) by lra.
  real_decide.
  rewrite bind_Ok. reflexivity.
Qed.

Lemma sqrt_1_form : sqrt ((-1 - 1) / 2 * ((-1 - 1) / 2) + 0 * 0) = 1.
Proof. replace ((-1 - 1) / 2 * ((-1 - 1) / 2) + 0 * 0) with 1 by lra. apply sqrt_1. Qed.

Lemma aniso_root g :
  0 < g -> g <= 1 ->
  exists a,
    _compute_root exact_kernel 2 Q_indef c_aniso g G_aniso
      = Ok (0%nat, 1 + 10000 * g, a, _norm 2 a G_aniso, true) /\
    a 0%nat = (1 / 40004) / (-1 + (1 + 10000 * g) / 40004) /\ a 1%nat = 0.
Proof.
  intros Hg0 Hg1.
  unfold _compute_root.
  cbn [eigvalsh exact_kernel exact_eigvalsh py_min py_max fold_left lsolve exact_lsolve].
  rewrite !bind_Ok. cbv zeta.
  cbv [Q_indef mat_of nth]. rewrite sqrt_1_form.
  replace ((-1 + 1) / 2 - 1) with (-1) by lra.
  replace ((-1 + 1) / 2 + 1) with 1 by lra.
  rewrite (Rmin_left (-1) 1) by lra. rewrite (Rmax_right (-1) 1) by lra.
  replace (- -1) with 1 by lra. rewrite (Rmax_right 0 1) by lra.
  real_decide.
  rewrite (Rmax_left (1 - g) 0) by lra.
  replace (g * (1 + 10000) + (1 - g) * 1) with (1 + 10000 * g) by lra.
  set (lam := 1 + 10000 * g).
  cbv [madd mscale G_aniso c_aniso vneg mat_of vec_of nth].
  destruct (decide (_ = 0)) as [Hz|Hnz].
  - exfalso. unfold lam in Hz. nra.
  - rewrite bind_Ok. eexists. split; [reflexivity|]. cbv [vec_of nth]. split.
    + unfold lam. field. split; lra.
    + unfold lam. field. split; lra.
Qed.

Lemma solve_alpha_root K s Q' c' tr :
  iter s <> 0%nat -> 1 / 10000 <= Q s (dim s - 1)%nat (dim s - 1)%nat ->
  solve_alpha K s Q' c' tr =
  '(it, lmd, alpha, norm, active) ← _compute_root K (dim s) Q' c' (gamma s) tr;
  Ok (alpha, norm).
Proof.
  intros Hi Hq. unfold solve_alpha. cbv zeta.
  destruct (Nat.eqb_spec (iter s) 0); [contradiction|].
  rewrite bool_decide_eq_false_2 by lra. reflexivity.
Qed.

Lemma compute_step_a K s :
  compute_step K s "a" =
  '(a, nrm) ← solve_alpha K s (Q s) (c s) eye;
  Ok (set_alpha s a nrm, trs_est (dim s) (Q s) (c s) a).
Proof.
  unfold compute_step. cbn [String.eqb Ascii.eqb Bool.eqb].
  destruct (solve_alpha K s (Q s) (c s) eye) as [[a nrm]|]; reflexivity.
Qed.

Lemma compute_step_p K s :
  compute_step K s "p" =
  '(a, nrm) ← solve_alpha K s (Q s) (c s) (G s);
  Ok (set_alpha s a nrm, trs_est (dim s) (Q s) (c s) a).
Proof.
  unfold compute_step. cbn [String.eqb Ascii.eqb Bool.eqb].
  destruct (solve_alpha K s (Q s) (c s) (G s)) as [[a nrm]|]; reflexivity.
Qed.

Lemma agrees_refl n A : agrees n A A.
Proof. intros i j _ _. reflexivity. Qed.

(** C3, for the isotropic metric: with the option ["a"], [gamma >= 0],
    [delta_max >= 0], a subspace of size at least one and a kernel that
    meets its interface on the shifted systems, [compute_step] returns
    and the predicted decrease [-1/2 * alpha' Q alpha - c' alpha] it
    returns is not negative.  On
    the first iteration, or when the last diagonal entry of [Q] is
    below [1e-4], the solver takes its one-dimensional branch, and the
    property needs [Q[0,0] > 0] or [c[0] <= 0] there. *)
Theorem compute_step_isotropic_nonneg K s :
  eigh_ok K (dim s) (Q s) ->
  (forall lam, lsolve_ok K (dim s) (madd (Q s) (mscale eye lam)) (vneg (c s))) ->
  (1 <= dim s)%nat -> 0 <= gamma s -> 0 <= delta_max s ->
  (iter s = 0%nat \/ Q s (dim s - 1)%nat (dim s - 1)%nat < 1 / 10000 ->
   0 < Q s 0%nat 0%nat \/ c s 0%nat <= 0) ->
  exists s' est, compute_step K s "a" = Ok (s', est) /\ 0 <= est.
Proof.
  intros Heig Hsol Hdim Hg Hd Hfirst. rewrite compute_step_a.
  destruct (decide (iter s = 0%nat \/ Q s (dim s - 1)%nat (dim s - 1)%nat < 1 / 10000))
    as [Hb|Hb].
  - (* the first step, or a flat last direction *)
    specialize (Hfirst Hb). unfold solve_alpha. cbv zeta.
    replace ((iter s =? 0)%nat || bool_decide (Q s (dim s - 1)%nat (dim s - 1)%nat < 1 / 10000))
      with true.
    2:{ symmetry. destruct Hb as [->|Hb]; [reflexivity|].
        rewrite (bool_decide_eq_true_2 _ Hb). apply orb_true_r. }
    rewrite bind_Ok. do 2 eexists. split; [reflexivity|].
    apply (first_step_nonneg (dim s) (Q s) (c s) (gamma s) (delta_max s) eye);
      try assumption. apply agrees_refl.
  - assert (iter s <> 0%nat /\ 1 / 10000 <= Q s (dim s - 1)%nat (dim s - 1)%nat) as [Hi Hq].
    { split; [tauto|]. destruct (Rle_lt_dec (1 / 10000) (Q s (dim s - 1)%nat (dim s - 1)%nat));
        [assumption|tauto]. }
    rewrite solve_alpha_root by assumption.
    destruct (compute_root_returns K (dim s) (Q s) (c s) (gamma s) eye
                (agrees_refl _ _) Heig Hsol Hg) as (it & lmb & a & nrm & act & Hr).
    rewrite Hr, !bind_Ok. do 2 eexists. split; [reflexivity|].
    apply (root_decrease_nonneg K (dim s) (Q s) (c s) (gamma s) eye it lmb a nrm act);
      auto using agrees_refl.
Qed.

Lemma aniso_solve g :
  0 < g -> g <= 1 ->
  exists a,
    solve_alpha exact_kernel (aniso g) Q_indef c_aniso G_aniso
      = Ok (a, _norm 2 a G_aniso) /\
    a 0%nat = (1 / 40004) / (-1 + (1 + 10000 * g) / 40004) /\ a 1%nat = 0.
Proof.
  intros H0 H1. destruct (aniso_root g H0 H1) as (a & Hr & Ha).
  exists a. split; [|exact Ha].
  rewrite solve_alpha_root.
  - cbn [dim gamma aniso]. rewrite Hr. reflexivity.
  - discriminate.
  - cbv [aniso Q dim Q_indef mat_of nth Nat.sub]. lra.
Qed.

(** Under the Gram metric the property fails.  [Q_indef] is symmetric
    with the eigenvalue [1], [G_aniso] is a symmetric positive
    semidefinite Gram matrix and [gamma = 1]; the solver returns with a
    negative predicted decrease. *)
Lemma compute_step_gram_negative :
  symmetric 2 (Q (aniso 1)) /\
  (forall i, (i < 2)%nat ->
     matvec 2 (Q (aniso 1)) (vec_of [0; 1]) i = 1 * vec_of [0; 1] i) /\
  symmetric 2 (G (aniso 1)) /\
  (forall v, 0 <= quad 2 (G (aniso 1)) v) /\
  0 < gamma (aniso 1) <= 1 /\
  exists s' est,
    compute_step exact_kernel (aniso 1) "p" = Ok (s', est) /\ est < 0.
Proof.
  split.
  { intros i j Hi Hj. destruct i as [|[|i]], j as [|[|j]]; try lia; reflexivity. }
  split.
  { intros i Hi. destruct i as [|[|i]]; try lia;
      cbv [aniso Q Q_indef matvec sum_n mat_of vec_of nth]; lra. }
  split.
  { intros i j Hi Hj. destruct i as [|[|i]], j as [|[|j]]; try lia; reflexivity. }
  split.
  { intros v. cbv [aniso G G_aniso quad dot matvec sum_n mat_of nth].
    assert (0 <= v 0%nat * v 0%nat) by apply Rle_0_sqr.
    assert (0 <= v 1%nat * v 1%nat) by apply Rle_0_sqr. nra. }
  split; [cbn; lra|].
  destruct (aniso_solve 1) as (a & Hs & Ha0 & Ha1); [lra|lra|].
  rewrite compute_step_p. cbn [Q c G aniso]. rewrite Hs, bind_Ok.
  do 2 eexists. split; [reflexivity|].
  cbn [dim aniso]. unfold trs_est, dot, matvec. cbn [sum_n].
  cbv [Q_indef c_aniso mat_of vec_of nth].
  assert (a 0%nat = - (1 / 30003)) as -> by (rewrite Ha0; field).
  rewrite Ha1. lra.
Qed.

Lemma norm_sq_aniso a :
  a 1%nat = 0 ->
  dot 2 (matvec 2 G_aniso a) a = a 0%nat * a 0%nat / 40004.
Proof.
  intros Ha1. unfold dot, matvec. cbn [sum_n].
  cbv [G_aniso mat_of nth]. rewrite Ha1. field.
Qed.

(** Under the Gram metric [G_aniso] the norm of the step grows from
    [gamma = 1/2] to [gamma = 1]. *)
Lemma compute_root_norm_increases :
  exists it1 l1 a1 n1 b1 it2 l2 a2 n2 b2,
    _compute_root exact_kernel 2 Q_indef c_aniso (1 / 2) G_aniso
      = Ok (it1, l1, a1, n1, b1) /\
    _compute_root exact_kernel 2 Q_indef c_aniso 1 G_aniso
      = Ok (it2, l2, a2, n2, b2) /\
    n1 < n2.
Proof.
  destruct (aniso_root (1 / 2)) as (a1 & Hr1 & Ha10 & Ha11); [lra|lra|].
  destruct (aniso_root 1) as (a2 & Hr2 & Ha20 & Ha21); [lra|lra|].
  do 10 eexists. split; [exact Hr1|]. split; [exact Hr2|].
  unfold _norm. rewrite !norm_sq_aniso by assumption.
  assert (a1 0%nat = - (1 / 35003)) as -> by (rewrite Ha10; field).
  assert (a2 0%nat = - (1 / 30003)) as -> by (rewrite Ha20; field).
  apply sqrt_lt_1_alt. lra.
Qed.

Lemma norm_eye n tr a : agrees n tr eye -> _norm n a tr = sqrt (dot n a a).
Proof.
  intros Htr. unfold _norm. f_equal. apply dot_ext_l. intros i Hi.
  rewrite <- (matvec_eye n a i Hi). unfold matvec. apply sum_n_ext.
  intros j Hj. rewrite Htr by assumption. reflexivity.
Qed.

(** C7, with the norm under the identity metric: for
    [0 < gamma1 < gamma2 <= 1] the multiplier that [_compute_root]
    returns at [gamma2] is at least the one at [gamma1], whatever the
    metric.  When the metric is the identity and
    the kernel meets its interface, the solver returns at both values
    and the norm of its step at [gamma2] is at most the one at
    [gamma1]. *)
Theorem compute_root_monotone K n Q c tr g1 g2 :
  0 < g1 -> g1 < g2 -> g2 <= 1 ->
  (forall it1 l1 a1 n1 b1 it2 l2 a2 n2 b2,
     _compute_root K n Q c g1 tr = Ok (it1, l1, a1, n1, b1) ->
     _compute_root K n Q c g2 tr = Ok (it2, l2, a2, n2, b2) ->
     l1 <= l2) /\
  (agrees n tr eye -> eigh_ok K n Q ->
   (forall lam, lsolve_ok K n (madd Q (mscale tr lam)) (vneg c)) ->
   exists it1 l1 a1 n1 b1 it2 l2 a2 n2 b2,
     _compute_root K n Q c g1 tr = Ok (it1, l1, a1, n1, b1) /\
     _compute_root K n Q c g2 tr = Ok (it2, l2, a2, n2, b2) /\
     n1 = _norm n a1 tr /\ n2 = _norm n a2 tr /\
     l1 <= l2 /\ n2 <= n1).
Proof.
  intros H1 H12 H2. split.
  - intros it1 l1 a1 n1 b1 it2 l2 a2 n2 b2 Hr1 Hr2.
    apply compute_root_inv in Hr1 as (lmin & lmax & Hmin & Hmax & -> & _).
    apply compute_root_inv in Hr2 as (lmin' & lmax' & Hmin' & Hmax' & -> & _).
    assert (lmin' = lmin) as -> by congruence.
    assert (lmax' = lmax) as -> by congruence.
    left. apply code_lambda_mono; assumption.
  - intros Htr Heig Hok.
    destruct (compute_root_returns K n Q c g1 tr Htr Heig Hok)
      as (it1 & l1 & a1 & n1 & b1 & Hr1); [lra|].
    destruct (compute_root_returns K n Q c g2 tr Htr Heig Hok)
      as (it2 & l2 & a2 & n2 & b2 & Hr2); [lra|].
    exists it1, l1, a1, n1, b1, it2, l2, a2, n2, b2.
    split; [assumption|]. split; [assumption|].
    destruct (compute_root_first_solve _ _ _ _ _ _ _ _ _ _ _ Htr Heig Hok H1 Hr1)
      as (lmin & lmax & Hmin & Hmax & HR & -> & -> & Hs1).
    destruct (compute_root_first_solve _ _ _ _ _ _ _ _ _ _ _ Htr Heig Hok
                (Rlt_trans _ _ _ H1 H12) Hr2)
      as (lmin' & lmax' & Hmin' & Hmax' & _ & -> & -> & Hs2).
    assert (lmin' = lmin) as -> by congruence.
    assert (lmax' = lmax) as -> by congruence.
    pose proof (code_lambda_mono lmin lmax g1 g2 H1 H12 H2) as Hlt.
    repeat split; try reflexivity; [lra|].
    rewrite !(norm_eye n tr) by assumption. apply sqrt_le_1_alt.
    apply (step_norm_antitone K n Q c tr lmin
             (code_lambda lmin lmax g1) (code_lambda lmin lmax g2) a1 a2);
      try assumption.
    apply code_lambda_ge_lb. lra.
Qed.

Lemma compute_root_monotone_witness :
  exists it1 l1 a1 n1 b1 it2 l2 a2 n2 b2,
    _compute_root exact_kernel 1 (mat_of [[2]]) (vec_of [-1]) (1 / 10) eye
      = Ok (it1, l1, a1, n1, b1) /\
    _compute_root exact_kernel 1 (mat_of [[2]]) (vec_of [-1]) (1 / 2) eye
      = Ok (it2, l2, a2, n2, b2) /\
    n1 = _norm 1 a1 eye /\ n2 = _norm 1 a2 eye /\
    l1 <= l2 /\ n2 <= n1.
Proof.
  apply (compute_root_monotone exact_kernel 1 (mat_of [[2]]) (vec_of [-1]) eye
           (1 / 10) (1 / 2)); try lra.
  - apply agrees_refl.
  - apply exact_eigh_ok_1.
  - intros lam. apply exact_lsolve_ok_1.
Defined.

(** With [Q = [[1/2]]] and [gamma = 1] the solver takes [lmax = 1/2],
    where the formula of the specification takes [lb + 1 = 1]. *)
Lemma compute_root_half :
  _compute_root exact_kernel 1 (mat_of [[1 / 2]]) (vec_of [-1]) 1 (mat_of [[1]])
  = Ok (0%nat, 1 / 2, vec_of [- - 1 / (1 / 2 + 1 * (1 / 2))],
        _norm 1 (vec_of [- - 1 / (1 / 2 + 1 * (1 / 2))]) (mat_of [[1]]), true).
Proof.
  unfold _compute_root.
  cbn [eigvalsh exact_kernel exact_eigvalsh py_min py_max fold_left lsolve exact_lsolve].
  rewrite !bind_Ok. cbv zeta.
  replace (mat_of [[1 / 2]] 0%nat 0%nat) with (1 / 2) by reflexivity.
  rewrite (Rmax_0_neg (1 / 2)) by lra.
  real_decide.
  rewrite (Rmax_right (1 - 1) 0) by lra.
  replace (1 * (1 / 2) + 0 * 0) with (1 / 2) by lra.
  real_decide.
  rewrite bind_Ok. reflexivity.
Qed.

Lemma compute_root_multiplier_counterexample :
  exists it lmb a nrm act,
    _compute_root exact_kernel 1 (mat_of [[1 / 2]]) (vec_of [-1]) 1 (mat_of [[1]])
      = Ok (it, lmb, a, nrm, act) /\
    py_min (eigvalsh exact_kernel 1 (mat_of [[1 / 2]])) = Ok (1 / 2) /\
    py_max (eigvalsh exact_kernel 1 (mat_of [[1 / 2]])) = Ok (1 / 2) /\
    lmb <> spec_lambda (1 / 2) (1 / 2) 1.
Proof.
  do 5 eexists. split; [apply compute_root_half|].
  split; [reflexivity|]. split; [reflexivity|].
  unfold spec_lambda. cbv zeta. rewrite (Rmax_0_neg (1 / 2)) by lra.
  rewrite (Rmax_right (1 / 2) (0 + 1)) by lra.
  rewrite (Rmax_right (1 - 1) 0) by lra. lra.
Qed.

Lemma solve_alpha_lmd_root K s Q' c' tr :
  iter s <> 0%nat -> 1 / 10000 <= Q s (dim s - 1)%nat (dim s - 1)%nat ->
  solve_alpha_lmd K s Q' c' tr =
  '(it, lmd, alpha, norm, active) ← _compute_root K (dim s) Q' c' (gamma s) tr;
  Ok lmd.
Proof.
  intros Hi Hq. unfold solve_alpha_lmd. cbv zeta.
  destruct (Nat.eqb_spec (iter s) 0); [contradiction|].
  rewrite bool_decide_eq_false_2 by lra. reflexivity.
Qed.

Lemma first_branch_test s :
  iter s = 0%nat \/ Q s (dim s - 1)%nat (dim s - 1)%nat < 1 / 10000 ->
  (iter s =? 0)%nat || bool_decide (Q s (dim s - 1)%nat (dim s - 1)%nat < 1 / 10000)
  = true.
Proof.
  intros [->|Hb]; [reflexivity|].
  rewrite (bool_decide_eq_true_2 _ Hb). apply orb_true_r.
Qed.

(** C2, with the multiplier as the program computes it and on the
    branch that computes it: whenever [_compute_root] returns, its
    multiplier is [gamma * l + max(1 - gamma, 0) * lb] with
    [lb = max(0, -lmin)] and [l = lmax] if [lmax > lb],
    [l = lb + 1e4] otherwise; it is the value
    [gamma * max(lmax, lb + 1) + max(1 - gamma, 0) * lb] of the
    specification when [lmax >= lb + 1].  Past the first iteration and
    with [self.Q[dim-1, dim-1] >= 1e-4], [solve_alpha] returns the step
    of [_compute_root] and its [lmd] is this multiplier.  On the first
    iteration, or with [self.Q[dim-1, dim-1] < 1e-4], [solve_alpha] does
    not call [_compute_root]: its [lmd] is [0] and its step is the
    one-dimensional one, whatever the eigenvalues are.  On Scenario A
    the solver returns [lambda = 1/5] and [alpha = 1 / (2 + 1/5)]. *)
Theorem compute_root_multiplier :
  (forall K n Q c gamma tr it lmb a nrm act,
     _compute_root K n Q c gamma tr = Ok (it, lmb, a, nrm, act) ->
     exists lmin lmax,
       py_min (eigvalsh K n Q) = Ok lmin /\
       py_max (eigvalsh K n Q) = Ok lmax /\
       lmb = code_lambda lmin lmax gamma /\
       (Rmax 0 (- lmin) + 1 <= lmax -> lmb = spec_lambda lmin lmax gamma)) /\
  (forall K s Q' c' tr a nrm,
     iter s <> 0%nat -> 1 / 10000 <= Q s (dim s - 1)%nat (dim s - 1)%nat ->
     solve_alpha K s Q' c' tr = Ok (a, nrm) ->
     exists lmin lmax it act,
       py_min (eigvalsh K (dim s) Q') = Ok lmin /\
       py_max (eigvalsh K (dim s) Q') = Ok lmax /\
       _compute_root K (dim s) Q' c' (gamma s) tr
         = Ok (it, code_lambda lmin lmax (gamma s), a, nrm, act) /\
       solve_alpha_lmd K s Q' c' tr = Ok (code_lambda lmin lmax (gamma s)) /\
       (Rmax 0 (- lmin) + 1 <= lmax ->
        solve_alpha_lmd K s Q' c' tr = Ok (spec_lambda lmin lmax (gamma s)))) /\
  (forall K s Q' c' tr,
     iter s = 0%nat \/ Q s (dim s - 1)%nat (dim s - 1)%nat < 1 / 10000 ->
     let a0 :=
       vset zeros1 0
         (if decide (0 < Q' 0%nat 0%nat)
          then - c' 0%nat / Q' 0%nat 0%nat / (1 + gamma s)
          else 1 / 10000) in
     let nrm := _norm (dim s) a0 tr in
     solve_alpha_lmd K s Q' c' tr = Ok 0 /\
     solve_alpha K s Q' c' tr =
     Ok (if decide (delta_max s < nrm)
         then vscale (vscale a0 (/ vnorm (dim s) a0)) (delta_max s)
         else a0, nrm)) /\
  (exists a nrm it act,
     solve_alpha exact_kernel scenario_A (Q scenario_A) (c scenario_A) (G scenario_A)
       = Ok (a, nrm) /\
     _compute_root exact_kernel 1 (Q scenario_A) (c scenario_A) (gamma scenario_A)
       (G scenario_A) = Ok (it, 1 / 5, a, nrm, act) /\
     a 0%nat = 1 / (2 + 1 / 5)).
Proof.
  split; [|split; [|split]].
  - intros K n Q c gamma tr it lmb a nrm act H.
    apply compute_root_inv in H as (lmin & lmax & Hmin & Hmax & -> & _).
    exists lmin, lmax. repeat split; try assumption.
    apply code_lambda_spec.
  - intros K s Q' c' tr a nrm Hi Hq H.
    rewrite solve_alpha_root in H by assumption.
    rewrite solve_alpha_lmd_root by assumption.
    destruct (_compute_root K (dim s) Q' c' (gamma s) tr)
      as [[[[[it lmb] a'] nrm'] act]|e] eqn:Hr; [|discriminate].
    rewrite bind_Ok in H. injection H as -> ->.
    pose proof Hr as Hr'.
    apply compute_root_inv in Hr' as (lmin & lmax & Hmin & Hmax & -> & _).
    exists lmin, lmax, it, act. rewrite bind_Ok.
    repeat split; try assumption; try reflexivity.
    intros Hle. rewrite (code_lambda_spec _ _ _ Hle). reflexivity.
  - intros K s Q' c' tr Hb. cbv zeta.
    unfold solve_alpha_lmd, solve_alpha. cbv zeta.
    rewrite (first_branch_test s Hb). split; reflexivity.
  - do 4 eexists. split; [|split].
    + rewrite solve_alpha_root.
      * cbn [dim gamma Q c G scenario_A]. rewrite scenario_A_root. reflexivity.
      * discriminate.
      * cbv [scenario_A Q dim mat_of nth Nat.sub]. lra.
    + cbn [dim gamma Q c G scenario_A]. apply scenario_A_root.
    + cbv [vec_of nth]. field.
Qed.

Lemma compute_root_multiplier_witness :
  (exists lmin lmax,
    py_min (eigvalsh exact_kernel 1 (mat_of [[2]])) = Ok lmin /\
    py_max (eigvalsh exact_kernel 1 (mat_of [[2]])) = Ok lmax /\
    1 / 5 = code_lambda lmin lmax (1 / 10) /\
    (Rmax 0 (- lmin) + 1 <= lmax -> 1 / 5 = spec_lambda lmin lmax (1 / 10))) /\
  solve_alpha_lmd exact_kernel scenario_A_first (mat_of [[2]]) (vec_of [-1]) (mat_of [[1]])
    = Ok 0.
Proof.
  split.
  - apply (proj1 compute_root_multiplier exact_kernel 1%nat (mat_of [[2]]) (vec_of [-1])
             (1 / 10) (mat_of [[1]]) _ _ _ _ _ scenario_A_root).
  - apply (proj1 (proj2 (proj2 compute_root_multiplier)) exact_kernel scenario_A_first
             (mat_of [[2]]) (vec_of [-1]) (mat_of [[1]])).
    left. reflexivity.
Defined.

Lemma compute_step_isotropic_nonneg_witness :
  exists s' est, compute_step exact_kernel scenario_A "a" = Ok (s', est) /\ 0 <= est.
Proof.
  apply (compute_step_isotropic_nonneg exact_kernel scenario_A).
  - apply exact_eigh_ok_1.
  - intros lam. apply exact_lsolve_ok_1.
  - simpl. lia.
  - simpl. lra.
  - simpl. lra.
  - intros _. left. cbv [scenario_A Q mat_of nth]. lra.
Defined.

End Solver.

(** ** The optimizer of [drsom.py] *)

Section Step.
Import DRSOMB.

(** ** The aggressive update of gamma *)
Lemma ln_neg x : 0 < x -> x < 1 -> ln x < 0.
Proof. intros H0 H1. rewrite <- ln_1. apply ln_increasing; assumption. Qed.

Lemma aggressive_floor gammalb g b2 :
  0 < g -> g < 1 -> 0 <= gammalb ->
  py_max2 gammalb (py_min2 (g / b2) (np_log g)) = gammalb.
Proof.
  intros H0 H1 Hlb. pose proof (ln_neg g H0 H1) as Hln.
  unfold np_log. destruct (decide (0 < g)); [|contradiction].
  unfold py_min2. destruct (decide (ln g < g / b2)); unfold py_max2.
  - destruct (decide (gammalb < ln g)); [lra|reflexivity].
  - destruct (decide (gammalb < g / b2)); [lra|reflexivity].
Qed.

(** C9: when the aggressive branch is taken ([rho > zeta1] and
    [rho >= zeta2]) with [0 < gamma < 1] and a floor [gammalb >= 0],
    the update [gamma = max(gammalb, min(gamma / beta2, log(gamma)))]
    leaves [gamma] equal to [gammalb] in this one update: [log(gamma)]
    is negative, the [min] is [log(gamma)] when [beta2 > 0] and
    negative whatever [beta2] is, and the [max] answers the floor. *)
Theorem aggressive_update_jumps_to_floor (s : DRSOMB.t) (rho : xreal) :
  xle rho (zeta1 (adjrule s)) = false ->
  xge rho (zeta2 (adjrule s)) = true ->
  0 < gamma s -> gamma s < 1 -> 0 <= gammalb s ->
  gamma (update_by_rho s rho) =
    py_max2 (gammalb s) (py_min2 (gamma s / beta2 (adjrule s)) (np_log (gamma s))) /\
  gamma (update_by_rho s rho) = gammalb s /\
  np_log (gamma s) = Finite (ln (gamma s)) /\ ln (gamma s) < 0 /\
  (0 < beta2 (adjrule s) ->
   py_min2 (gamma s / beta2 (adjrule s)) (np_log (gamma s)) = Finite (ln (gamma s))) /\
  (forall b2, py_max2 (gammalb s) (py_min2 (gamma s / b2) (np_log (gamma s)))
              = gammalb s).
Proof.
  intros Hz1 Hz2 H0 H1 Hlb. unfold update_by_rho. rewrite Hz1, Hz2.
  cbn [gamma set_radius set_gamma].
  pose proof (ln_neg (gamma s) H0 H1) as Hln.
  assert (Hlog : np_log (gamma s) = Finite (ln (gamma s))).
  { unfold np_log. destruct (decide (0 < gamma s)); [reflexivity|contradiction]. }
  split; [reflexivity|].
  split; [apply aggressive_floor; assumption|].
  split; [exact Hlog|]. split; [exact Hln|]. split.
  - intros Hb. rewrite Hlog. unfold py_min2.
    assert (0 < gamma s / beta2 (adjrule s)) by (apply Rdiv_lt_0_compat; assumption).
    destruct (decide (ln (gamma s) < gamma s / beta2 (adjrule s))); [reflexivity|lra].
  - intros b2. apply aggressive_floor; assumption.
Qed.

(** ** normalize *)
Lemma map_div_1 (v : tensor) : map (fun x => x / 1) v = v.
Proof. induction v as [|x v IH]; simpl; [reflexivity|]. rewrite IH. f_equal. field. Qed.

Lemma tdiv_1 v : tdiv v 1 = Some v.
Proof.
  unfold tdiv. destruct (decide (1 = 0)); [lra|]. rewrite map_div_1. reflexivity.
Qed.

Lemma tmul_zeros v : tmul (zeros_like v) (zeros_like v) = zeros_like v.
Proof.
  unfold tmul, zeros_like. induction v as [|x v IH]; simpl; [reflexivity|].
  rewrite IH. f_equal. lra.
Qed.

Lemma tsum_zeros v : tsum (zeros_like v) = 0.
Proof. unfold tsum, zeros_like. induction v as [|x v IH]; simpl; [reflexivity|]. rewrite IH. lra. Qed.

Lemma tnorm_zeros v : tnorm (zeros_like v) = 0.
Proof. unfold tnorm. rewrite tmul_zeros, tsum_zeros. apply sqrt_0. Qed.

Lemma F_normalize_total v : is_Some (DRSOMF.normalize v).
Proof.
  unfold DRSOMF.normalize, tdiv. cbv zeta.
  destruct (decide (tnorm v = 0)) as [Hz|Hnz].
  - destruct (decide (1 = 0)); [lra|]. eexists. reflexivity.
  - destruct (decide (tnorm v = 0)); [contradiction|]. eexists. reflexivity.
Qed.

Lemma F_normalize_zero v : tnorm v = 0 -> DRSOMF.normalize v = Some v.
Proof.
  intros Hz. unfold DRSOMF.normalize. cbv zeta.
  destruct (decide (tnorm v = 0)); [|contradiction]. apply tdiv_1.
Qed.

Lemma tdiv_nonzero v n : n <> 0 -> tdiv v n = Some (map (fun x => x / n) v).
Proof. intros Hn. unfold tdiv. destruct (decide (n = 0)); [contradiction|reflexivity]. Qed.

Lemma forM_normalize (n : R) (d acc : direction) :
  n <> 0 ->
  forM d (fun '(p, v) acc =>
    match tdiv v n with
    | Some v' => Ok (acc ++ [(p, v')])
    | None => Raise FloatingPointError
    end) acc
  = Ok (acc ++ map (fun '(p, v) => (p, map (fun x => x / n) v)) d).
Proof.
  intros Hn. revert acc. induction d as [|[p v] d IH]; intros acc; cbn [forM map].
  - rewrite app_nil_r. reflexivity.
  - rewrite (tdiv_nonzero v n Hn), bind_Ok, IH, <- app_assoc. reflexivity.
Qed.

Lemma B_normalize_total d : d <> [] -> exists d', normalize d = Ok d'.
Proof.
  intros Hd. unfold normalize, v_norm. destruct d as [|x d]; [contradiction|].
  rewrite bind_Ok. cbv zeta. eexists. apply forM_normalize.
  destruct (decide (_ = 0)); lra.
Qed.

Lemma B_normalize_zero d : v_norm d = Ok 0 -> normalize d = Ok d.
Proof.
  intros Hz. unfold normalize. rewrite Hz, bind_Ok. cbv zeta.
  destruct (decide (0 = 0)); [|contradiction].
  rewrite forM_normalize by lra. cbn [app]. f_equal.
  induction d as [|[p v] d' IH]; simpl; [reflexivity|].
  rewrite map_div_1. f_equal.
  clear. induction d' as [|[q w] d' IH]; simpl; [reflexivity|].
  rewrite map_div_1, IH. reflexivity.
Qed.

(** ** Loops over ranges *)
Lemma range_0_S n : range 0 (S n) = range 0 n ++ [n].
Proof. unfold range. rewrite !Nat.sub_0_r. apply seq_S. Qed.

Lemma for_app {A B} (l1 l2 : list B) (f : B -> A -> A) a :
  for_ (l1 ++ l2) f a = for_ l2 f (for_ l1 f a).
Proof. unfold for_. apply fold_left_app. Qed.

Lemma for_range_S {A} n (f : nat -> A -> A) a :
  for_ (range 0 (S n)) f a = f n (for_ (range 0 n) f a).
Proof. rewrite range_0_S, for_app. reflexivity. Qed.

Lemma for_range_0 {A} (f : nat -> A -> A) a : for_ (range 0 0) f a = a.
Proof. reflexivity. Qed.

(** Row [i] of the mirroring loop, columns below [m]. *)
Lemma mirror_row i m M a b :
  (m <= i)%nat ->
  for_ (range 0 m) (fun j M => mset M i j (M j i)) M a b =
  if (a =? i)%nat && (b <? m)%nat then M b a else M a b.
Proof.
  intros Hm. revert a b. induction m as [|m IH]; intros a b.
  - rewrite for_range_0. rewrite andb_false_r. reflexivity.
  - rewrite for_range_S. unfold mset at 1.
    destruct (Nat.eqb_spec a i) as [->|Ha]; cbn [andb].
    + destruct (Nat.eqb_spec b m) as [->|Hb].
      * rewrite IH by lia.
        destruct (Nat.eqb_spec m i); [lia|]. cbn [andb].
        destruct (Nat.ltb_spec m (S m)); [reflexivity|lia].
      * rewrite IH by lia. rewrite Nat.eqb_refl. cbn [andb].
        destruct (Nat.ltb_spec b m), (Nat.ltb_spec b (S m)); try reflexivity; lia.
    + rewrite IH by lia. destruct (Nat.eqb_spec a i); [contradiction|]. reflexivity.
Qed.

Lemma keep_symmetry_spec dim M a b :
  keep_symmetry dim M a b =
  if (b <? a)%nat && (a <? dim)%nat then M b a else M a b.
Proof.
  unfold keep_symmetry. revert a b. induction dim as [|n IH]; intros a b.
  - rewrite for_range_0, andb_false_r. reflexivity.
  - rewrite for_range_S, mirror_row by lia.
    destruct (Nat.eqb_spec a n) as [->|Ha]; cbn [andb].
    + destruct (Nat.ltb_spec b n) as [Hb|Hb]; cbn [andb].
      * rewrite IH. destruct (Nat.ltb_spec n b); [lia|]. cbn [andb].
        destruct (Nat.ltb_spec n (S n)); [reflexivity|lia].
      * rewrite IH. destruct (Nat.ltb_spec n n); [lia|].
        rewrite andb_false_r. reflexivity.
    + rewrite IH.
      destruct (Nat.ltb_spec a n), (Nat.ltb_spec a (S n)); try reflexivity; lia.
Qed.

Lemma keep_symmetry_symmetric dim M : symmetric dim (keep_symmetry dim M).
Proof.
  intros i j Hi Hj. rewrite !keep_symmetry_spec.
  destruct (Nat.ltb_spec j i), (Nat.ltb_spec i j); try lia; cbn [andb].
  - destruct (Nat.ltb_spec i dim); [reflexivity|lia].
  - destruct (Nat.ltb_spec j dim); [reflexivity|lia].
  - assert (i = j) as -> by lia. reflexivity.
Qed.

Lemma eye_loop_spec dim a b :
  for_ (range 0 dim) (fun i G => mset G i i 1) zeros2 a b =
  if (a =? b)%nat && (a <? dim)%nat then 1 else 0.
Proof.
  revert a b. induction dim as [|n IH]; intros a b.
  - rewrite for_range_0, andb_false_r. reflexivity.
  - rewrite for_range_S. unfold mset at 1. rewrite IH.
    destruct (Nat.eqb_spec a n) as [->|Ha]; cbn [andb].
    + destruct (Nat.eqb_spec b n) as [->|Hb].
      * rewrite Nat.eqb_refl. destruct (Nat.ltb_spec n (S n)); [reflexivity|lia].
      * destruct (Nat.eqb_spec n b); [congruence|]. reflexivity.
    + destruct (Nat.ltb_spec a n), (Nat.ltb_spec a (S n)); try reflexivity; lia.
Qed.

Lemma construct_G_symmetric s dirs : symmetric (length dirs) (construct_G s dirs).
Proof.
  unfold construct_G. cbv zeta.
  destruct (qpsolver s); try apply keep_symmetry_symmetric.
  intros i j Hi Hj. rewrite !eye_loop_spec.
  destruct (decide (i = j)) as [->|Hne]; [reflexivity|].
  destruct (Nat.eqb_spec i j); [contradiction|].
  destruct (Nat.eqb_spec j i); [congruence|]. reflexivity.
Qed.

Lemma compute_Q_via_hvp_symmetric cl s dirs style s' Q :
  compute_Q_via_hvp cl s dirs style = Ok (s', Q) -> symmetric (length dirs) Q.
Proof.
  unfold compute_Q_via_hvp. cbv zeta. intros H.
  apply bind_inv in H as (Hv1 & _ & H). injection H as _ <-.
  apply keep_symmetry_symmetric.
Qed.

Lemma compute_Q_via_interpolation_symmetric U cl s dirs fx c p_copy delta mult s' Q :
  compute_Q_via_interpolation U cl s dirs fx c p_copy delta mult = Ok (s', Q) ->
  symmetric (length dirs) Q.
Proof.
  unfold compute_Q_via_interpolation. cbv zeta. intros H.
  destruct (for_ _ _ _) as [s1 df].
  apply bind_inv in H as (q & _ & H).
  apply bind_inv in H as (Q0 & _ & H). injection H as _ <-.
  apply keep_symmetry_symmetric.
Qed.

Lemma update_trust_region_symmetric U cl s p_copy dirs fx s' :
  update_trust_region U cl s p_copy dirs fx = Ok s' ->
  (iter s mod qp_freq (decayrule s) = 0)%nat ->
  dim s' = length dirs /\ symmetric (dim s') (Q s') /\ symmetric (dim s') (G s').
Proof.
  unfold update_trust_region. cbv zeta. intros H Hmod.
  destruct (decide (qp_freq (decayrule s) = 0%nat)); [discriminate|].
  rewrite Hmod in H. cbn [Nat.eqb negb] in H.
  apply bind_inv in H as ([s1 Q1] & HQ & H). injection H as <-.
  cbn [dim Q G set_G set_c set_Q set_dim set_ghg].
  split; [reflexivity|]. split; [|apply construct_G_symmetric].
  destruct (qpmode s).
  - apply bind_inv in HQ as ([s2 Q2] & HQ & H). injection H as _ <-.
    eapply compute_Q_via_hvp_symmetric; eassumption.
  - apply bind_inv in HQ as ([s2 Q2] & HQ & H). injection H as _ <-.
    eapply compute_Q_via_hvp_symmetric; eassumption.
  - eapply compute_Q_via_interpolation_symmetric; eassumption.
  - discriminate.
Qed.

(** ** The heap *)
Lemma read_insert_eq (h : list tensor) p v :
  (p < length h)%nat -> read (<[p := v]> h) p = v.
Proof. intros Hp. unfold read. rewrite list_lookup_insert_eq by assumption. reflexivity. Qed.

Lemma read_insert_ne (h : list tensor) p x v :
  x <> p -> read (<[p := v]> h) x = read h x.
Proof. intros Hp. unfold read. rewrite list_lookup_insert_ne by congruence. reflexivity. Qed.

Lemma read_app_l (h h' : list tensor) p :
  (p < length h)%nat -> read (h ++ h') p = read h p.
Proof. intros Hp. unfold read. rewrite lookup_app_l by assumption. reflexivity. Qed.

Lemma use_new_d_heap (ps : list loc) (d : direction) (h : list tensor) :
  let h' := for_ ps (fun p h => <[p := tadd (read h p) (dget d p)]> h) h in
  length h' = length h /\ forall x, x ∉ ps -> read h' x = read h x.
Proof.
  cbv zeta. revert h. induction ps as [|p ps IH]; intros h.
  - split; [reflexivity|]. intros; reflexivity.
  - unfold for_ in *. cbn [fold_left].
    destruct (IH (<[p := tadd (read h p) (dget d p)]> h)) as [Hl Hr].
    split.
    + rewrite Hl. apply length_insert.
    + intros x Hx. rewrite Hr by (intros E; apply Hx; right; exact E).
      apply read_insert_ne. intros ->. apply Hx. left.
Qed.

Lemma set_param_heap (V : loc -> tensor) (l : list (loc * loc)) (h : list tensor) :
  (forall p q, (p, q) ∈ l ->
     read h q = V p /\ (p < length h)%nat /\ q ∉ l.*1) ->
  let h' := for_ l (fun '(p, pdata) h => <[p := read h pdata]> h) h in
  length h' = length h /\
  (forall x, x ∉ l.*1 -> read h' x = read h x) /\
  (forall p, p ∈ l.*1 -> read h' p = V p).
Proof.
  cbv zeta. revert h. induction l as [|[p q] l IH]; intros h H.
  - split; [reflexivity|]. split; [reflexivity|]. intros p Hp. inversion Hp.
  - unfold for_ in *. cbn [fold_left].
    destruct (H p q) as (Hq & Hp & Hnq); [left|].
    set (h1 := <[p := read h q]> h).
    destruct (IH h1) as (Hl & Hout & Hin).
    { intros p' q' Hin. destruct (H p' q') as (Hq' & Hp' & Hnq'); [right; exact Hin|].
      split; [|split].
      - unfold h1. rewrite read_insert_ne; [exact Hq'|].
        intros ->. apply Hnq'. cbn. left.
      - unfold h1. rewrite length_insert. exact Hp'.
      - intros E. apply Hnq'. cbn. right. exact E. }
    split; [|split].
    + rewrite Hl. apply length_insert.
    + intros x Hx. rewrite Hout by (intros E; apply Hx; cbn; right; exact E).
      apply read_insert_ne. intros ->. apply Hx. cbn. left.
    + intros p' Hp'. destruct (decide (p' ∈ l.*1)) as [Hi|Hni].
      * apply Hin. exact Hi.
      * rewrite Hout by exact Hni. cbn in Hp'. apply elem_of_cons in Hp' as [->|Hp']; [|contradiction].
        unfold h1. rewrite read_insert_eq by exact Hp. exact Hq.
Qed.

Lemma fst_zip_same (ps qs : list loc) :
  length qs = length ps -> (zip ps qs).*1 = ps.
Proof. intros H. apply fst_zip. lia. Qed.

(** A trial step followed by the restoration gives back the heap of before
    at the parameters, and leaves the snapshot in place. *)
Lemma roundtrip s d p_copy :
  snapshot (heap s) (_params s) p_copy ->
  let s' := _set_param (_use_new_d s d) p_copy in
  param_values s' = param_values s /\
  _params s' = _params s /\
  snapshot (heap s') (_params s') p_copy.
Proof.
  intros (Hlen & Hps & Hqs & Hz). cbv zeta.
  unfold _set_param, _use_new_d, param_values.
  cbn [heap _params set_heap].
  set (ps := _params s) in *. set (h := heap s) in *.
  destruct (use_new_d_heap ps d h) as [Hl1 Hr1].
  set (h1 := for_ ps (fun p h => <[p := tadd (read h p) (dget d p)]> h) h) in *.
  destruct (set_param_heap (read h) (zip ps p_copy) h1) as (Hl2 & Hout & Hin).
  { intros p q Hpq. rewrite (fst_zip_same ps p_copy Hlen).
    assert (Hq : q ∈ p_copy) by (eapply elem_of_zip_r; exact Hpq).
    assert (Hp : p ∈ ps) by (eapply elem_of_zip_l; exact Hpq).
    destruct (Hqs q Hq) as [Hqlen Hqn].
    split; [|split].
    - rewrite Hr1 by exact Hqn. apply Hz. exact Hpq.
    - rewrite Hl1. apply Hps. exact Hp.
    - exact Hqn. }
  rewrite (fst_zip_same ps p_copy Hlen) in Hout, Hin.
  set (h2 := for_ (zip ps p_copy) _ h1) in *.
  split; [|split; [reflexivity|]].
  - apply map_ext_in. intros p Hp. apply Hin. apply list_elem_of_In. exact Hp.
  - split; [exact Hlen|]. split; [|split].
    + intros p Hp. rewrite Hl2, Hl1. apply Hps. exact Hp.
    + intros q Hq. destruct (Hqs q Hq) as [Hqlen Hqn].
      split; [rewrite Hl2, Hl1; exact Hqlen|exact Hqn].
    + intros p q Hpq.
      assert (Hq : q ∈ p_copy) by (eapply elem_of_zip_r; exact Hpq).
      assert (Hp : p ∈ ps) by (eapply elem_of_zip_l; exact Hpq).
      destruct (Hqs q Hq) as [Hqlen Hqn].
      rewrite Hout by exact Hqn. rewrite Hr1 by exact Hqn.
      rewrite Hin by exact Hp. apply Hz. exact Hpq.
Qed.

Lemma clone_all_spec (ps : list loc) (h : list tensor) :
  (forall p, p ∈ ps -> (p < length h)%nat) ->
  clone_all h ps = (h ++ map (read h) ps, seq (length h) (length ps)).
Proof.
  revert h. induction ps as [|p ps IH]; intros h Hps.
  - cbn. rewrite app_nil_r. reflexivity.
  - cbn [clone_all clone]. rewrite IH.
    + rewrite length_app. cbn [length map seq].
      replace (length h + 1)%nat with (S (length h)) by lia.
      rewrite <- app_assoc. cbn [app]. f_equal. f_equal. f_equal.
      apply map_ext_in. intros q Hq. apply read_app_l. apply Hps. right.
      apply list_elem_of_In. exact Hq.
    + intros q Hq. rewrite length_app. cbn. assert (q < length h)%nat; [|lia].
      apply Hps. right. exact Hq.
Qed.

Lemma clone_param_snapshot s s' p_copy :
  (forall p, p ∈ _params s -> (p < length (heap s))%nat) ->
  _clone_param s = (s', p_copy) ->
  snapshot (heap s') (_params s') p_copy /\
  param_values s' = param_values s /\ _params s' = _params s.
Proof.
  intros Hps. unfold _clone_param. rewrite clone_all_spec by exact Hps.
  intros H. injection H as <- <-. cbn [heap _params set_heap].
  set (h := heap s) in *. set (ps := _params s) in *.
  assert (Hread : forall p, p ∈ ps -> read (h ++ map (read h) ps) p = read h p).
  { intros p Hp. apply read_app_l. apply Hps. exact Hp. }
  split; [|split; [|reflexivity]].
  - split; [apply length_seq|]. split; [|split].
    + intros p Hp. rewrite length_app. specialize (Hps p Hp). lia.
    + intros q Hq. apply elem_of_seq in Hq. rewrite length_app, length_map.
      split; [lia|]. intros Hin. specialize (Hps q Hin). lia.
    + intros p q Hpq. apply list_elem_of_lookup in Hpq as [i Hi].
      apply lookup_zip_with_Some in Hi as (p' & q' & E & Hp & Hq).
      injection E as <- <-.
      apply lookup_seq in Hq as [-> Hlt].
      rewrite (Hread p) by (eapply list_elem_of_lookup_2; exact Hp).
      unfold read at 1. rewrite lookup_app_r by apply Nat.le_add_r.
      rewrite Nat.add_comm, Nat.add_sub.
      rewrite list_lookup_fmap, Hp. reflexivity.
  - unfold param_values. cbn [heap _params set_heap]. apply map_ext_in.
    intros p Hp. apply Hread. apply list_elem_of_In. exact Hp.
Qed.

Lemma keeps_refl q s : keeps q s s.
Proof. intros H. auto. Qed.

Lemma keeps_trans q s1 s2 s3 : keeps q s1 s2 -> keeps q s2 s3 -> keeps q s1 s3.
Proof.
  intros H12 H23 H1. destruct (H12 H1) as (H2 & Hv2 & Hp2).
  destruct (H23 H2) as (H3 & Hv3 & Hp3).
  split; [exact H3|]. split; [rewrite Hv3; exact Hv2|rewrite Hp3; exact Hp2].
Qed.

Lemma keeps_same_store q s s' :
  heap s' = heap s -> _params s' = _params s -> keeps q s s'.
Proof.
  intros Hh Hp H. unfold param_values. rewrite Hh, Hp. auto.
Qed.

Lemma keeps_roundtrip q s d : keeps q s (_set_param (_use_new_d s d) q).
Proof. intros H. destruct (roundtrip s d q H) as (Hv & Hp & Hs). auto. Qed.

Lemma for_keeps {B C} (l : list B) (f : B -> DRSOMB.t * C -> DRSOMB.t * C) q :
  (forall b s c, keeps q s (fst (f b (s, c)))) ->
  forall s c, keeps q s (fst (for_ l f (s, c))).
Proof.
  intros Hf. induction l as [|b l IH]; intros s c.
  - apply keeps_refl.
  - unfold for_ in *. cbn [fold_left].
    destruct (f b (s, c)) as [s1 c1] eqn:E.
    eapply keeps_trans; [|apply IH].
    specialize (Hf b s c). rewrite E in Hf. exact Hf.
Qed.

Lemma interpolation_keeps U cl s dirs fx c p_copy delta mult s' Q :
  compute_Q_via_interpolation U cl s dirs fx c p_copy delta mult = Ok (s', Q) ->
  keeps p_copy s s'.
Proof.
  unfold compute_Q_via_interpolation. cbv zeta.
  match goal with
  | |- context [for_ ?l ?f (s, ?d)] =>
      assert (Hloop : keeps p_copy s (fst (for_ l f (s, d))));
      [apply for_keeps; intros b s0 c0; cbn [fst]; apply keeps_roundtrip|];
      destruct (for_ l f (s, d)) as [s1 df1]
  end.
  cbn [fst] in Hloop.
  intros H. apply bind_inv in H as (q & _ & H).
  apply bind_inv in H as (Q0 & _ & H). injection H as <- _. exact Hloop.
Qed.

Lemma hvp_keeps cl s dirs style s' Q q :
  compute_Q_via_hvp cl s dirs style = Ok (s', Q) -> keeps q s s'.
Proof.
  unfold compute_Q_via_hvp. cbv zeta. intros H.
  apply bind_inv in H as (Hv1 & _ & H). injection H as <- _.
  apply keeps_same_store; reflexivity.
Qed.

Lemma update_trust_region_keeps U cl s p_copy dirs fx s' :
  update_trust_region U cl s p_copy dirs fx = Ok s' -> keeps p_copy s s'.
Proof.
  unfold update_trust_region. cbv zeta. intros H.
  destruct (decide (qp_freq (decayrule s) = 0%nat)); [discriminate|].
  destruct (negb _).
  - injection H as <-. apply keeps_refl.
  - apply bind_inv in H as ([s1 Q1] & HQ & H). injection H as <-.
    apply (keeps_trans _ s s1); [|apply keeps_same_store; reflexivity].
    destruct (qpmode s).
    + apply bind_inv in HQ as ([s2 Q2] & HQ & H). injection H as <- _.
      apply (keeps_trans _ s s2); [eapply hvp_keeps; exact HQ|].
      apply keeps_same_store; reflexivity.
    + apply bind_inv in HQ as ([s2 Q2] & HQ & H). injection H as <- _.
      apply (keeps_trans _ s s2); [eapply hvp_keeps; exact HQ|].
      apply keeps_same_store; reflexivity.
    + eapply interpolation_keeps; exact HQ.
    + discriminate.
Qed.

Lemma use_fixed_momentum_store s m s' d :
  use_fixed_momentum s m = (s', d) -> heap s' = heap s /\ _params s' = _params s.
Proof.
  unfold use_fixed_momentum. destruct (for_ _ _ _) as [st d0].
  intros H. injection H as <- _. split; reflexivity.
Qed.

(** The snapshot is in place when the loop of [step] is entered. *)
Lemma prologue_snapshot U s cl s1 dirs p_copy loss :
  (forall p, p ∈ _params (adjust_gamma_and_radius U s) ->
     (p < length (heap (adjust_gamma_and_radius U s)))%nat) ->
  step_prologue U s cl = Ok (s1, dirs, p_copy, loss) ->
  snapshot (heap s1) (_params s1) p_copy /\
  param_values s1 = param_values (adjust_gamma_and_radius U s) /\
  loss = objective cl (param_values (adjust_gamma_and_radius U s)).
Proof.
  intros Hwf. unfold step_prologue. cbv zeta.
  set (s0 := adjust_gamma_and_radius U s) in *.
  set (sg := set_grads s0 _).
  destruct (_clone_param sg) as [sc pc] eqn:Hc.
  destruct (clone_param_snapshot sg sc pc Hwf Hc) as (Hsnap & Hv & Hp).
  intros H. apply bind_inv in H as (g_old & _ & H).
  apply bind_inv in H as ([s2 ds] & Hd & H).
  apply bind_inv in H as (s3 & Hu & H). injection H as <- <- <- <-.
  assert (Hk : keeps pc sc s2).
  { destruct (decide (fixed_momentum sc < 0)).
    - apply bind_inv in Hd as (ds' & _ & Hd). injection Hd as <- _. apply keeps_refl.
    - destruct (use_fixed_momentum sc (fixed_momentum sc)) as [sf d] eqn:Hf.
      injection Hd as <- _.
      destruct (use_fixed_momentum_store _ _ _ _ Hf).
      apply keeps_same_store; assumption. }
  pose proof (update_trust_region_keeps _ _ _ _ _ _ _ Hu) as Hk2.
  destruct (keeps_trans _ _ _ _ Hk Hk2 Hsnap) as (H3 & Hv3 & Hp3).
  split; [exact H3|]. split; [|reflexivity].
  rewrite Hv3, Hv. reflexivity.
Qed.

(** ** One pass of the inner loop *)
Lemma compute_step_inv U s s' est :
  compute_step U s = Ok (s', est) ->
  exists a nrm,
    TRS_solve_alpha U s (Q s) (c s) (G s) = Ok (a, nrm) /\
    s' = set_alpha_norm (set_alpha s a) nrm /\
    est = trs_est (dim s) (Q s) (c s) a.
Proof.
  unfold compute_step, solve_alpha. intros H.
  apply bind_inv in H as ([a nrm] & Hs & H). injection H as <- <-.
  exists a, nrm. auto.
Qed.

Lemma loop_body_retry U cl dirs p_copy loss L s' est :
  compute_step U (self_ L) = Ok (s', est) -> est < 0 ->
  loop_body U cl dirs p_copy loss L =
  Ok (Continue
        {| self_ :=
             set_radius
               (set_gamma s' (Rmax (gamma s' * beta1 (adjrule s')) (1 / 10000)))
               (Rmax (radius s' / sqrt (beta1 (adjrule s'))) (1 / 1000000000000));
           acc_step := acc_step L; iter_adj := iter_adj L |}).
Proof.
  intros Hc Hneg. unfold loop_body. rewrite Hc, bind_Ok.
  destruct (decide (est < 0)); [reflexivity|contradiction].
Qed.

Lemma loop_body_inv U cl dirs p_copy loss L f :
  loop_body U cl dirs p_copy loss L = Ok f ->
  exists s' est, compute_step U (self_ L) = Ok (s', est) /\
    ((est < 0 /\ exists L', f = Continue L' /\ iter_adj L' = iter_adj L /\
        acc_step L' = acc_step L /\
        heap (self_ L') = heap s' /\ _params (self_ L') = _params s' /\
        _max_iter_adj (self_ L') = _max_iter_adj s') \/
     (~ est < 0 /\
      let '(s2, rho, d_new) := trial cl dirs loss est s' in
      (xgt rho (eta (adjrule s2)) = false /\
       f = Next {| self_ := _set_param s2 p_copy; acc_step := false;
                   iter_adj := (iter_adj L + 1)%nat |}) \/
      (xgt rho (eta (adjrule s2)) = true /\
       exists s3, f = Break {| self_ := s3; acc_step := true;
                               iter_adj := iter_adj L |}))).
Proof.
  unfold loop_body. intros H.
  apply bind_inv in H as ([s' est] & Hc & H). exists s', est.
  split; [exact Hc|].
  destruct (decide (est < 0)) as [Hneg|Hpos].
  - left. split; [exact Hneg|]. injection H as <-. eexists. split; [reflexivity|].
    cbn. auto.
  - right. split; [exact Hpos|]. unfold trial. cbv zeta in *.
    destruct (xgt _ _) eqn:Hacc; cbn [negb] in H.
    + right. split; [reflexivity|].
      apply bind_inv in H as (s3 & _ & H). injection H as <-. eauto.
    + left. split; [reflexivity|]. injection H as <-. reflexivity.
Qed.

Lemma update_by_rho_store s rho :
  heap (update_by_rho s rho) = heap s /\ _params (update_by_rho s rho) = _params s /\
  _max_iter_adj (update_by_rho s rho) = _max_iter_adj s /\
  adjrule (update_by_rho s rho) = adjrule s.
Proof.
  unfold update_by_rho. destruct (xle _ _); [cbn; auto|].
  destruct (xge _ _); cbn; auto.
Qed.

Lemma keeps_ext q s s1 s2 :
  heap s2 = heap s1 -> _params s2 = _params s1 -> keeps q s s1 -> keeps q s s2.
Proof.
  intros Hh Hp Hk Hs. destruct (Hk Hs) as (H1 & Hv & Hps).
  unfold param_values in *. rewrite Hh, Hp. auto.
Qed.

Lemma keeps_ext_l q s s0 s1 :
  heap s = heap s0 -> _params s = _params s0 -> keeps q s0 s1 -> keeps q s s1.
Proof.
  intros Hh Hp Hk Hs. unfold param_values in *. rewrite Hh, Hp in *. auto.
Qed.

(** A pass that does not accept keeps the parameters and the snapshot. *)
Lemma loop_body_keeps U cl dirs p_copy loss L L' :
  loop_body U cl dirs p_copy loss L = Ok (Continue L') \/
  loop_body U cl dirs p_copy loss L = Ok (Next L') ->
  keeps p_copy (self_ L) (self_ L').
Proof.
  intros H.
  assert (exists f, loop_body U cl dirs p_copy loss L = Ok f /\
            (f = Continue L' \/ f = Next L')) as (f & Hf & Hcase).
  { destruct H as [H|H]; eexists; split; try exact H; auto. }
  apply loop_body_inv in Hf as (s' & est & Hc & Hf).
  apply compute_step_inv in Hc as (a & nrm & _ & -> & _).
  destruct Hf as [(_ & L1 & -> & _ & _ & Hh & Hp & _)|(_ & Hf)].
  - destruct Hcase as [E|E]; [|discriminate]. injection E as ->.
    apply keeps_same_store; [rewrite Hh|rewrite Hp]; reflexivity.
  - unfold trial in Hf. cbv zeta in Hf.
    destruct Hf as [(_ & ->)|(_ & s3 & ->)].
    + destruct Hcase as [E|E]; [discriminate|]. injection E as <-. cbn [self_].
      set (s0 := set_alpha_norm (set_alpha (self_ L) a) nrm) in *.
      match goal with
      | |- keeps _ _ (_set_param (update_by_rho (_use_new_d _ ?d) ?r) _) =>
          destruct (update_by_rho_store (_use_new_d s0 d) r) as (Hh & Hp & _);
          apply (keeps_ext_l _ _ s0); [reflexivity|reflexivity|];
          apply (keeps_ext _ _ (_set_param (_use_new_d s0 d) p_copy));
          [ unfold _set_param; cbn [heap set_heap]; rewrite Hh, Hp; reflexivity
          | unfold _set_param; cbn [_params set_heap]; rewrite Hp; reflexivity
          | apply keeps_roundtrip ]
      end.
    + destruct Hcase; discriminate.
Qed.

Lemma loop_reach_snapshot U cl dirs p_copy loss L0 L :
  snapshot (heap (self_ L0)) (_params (self_ L0)) p_copy ->
  loop_reach U cl dirs p_copy loss L0 L ->
  snapshot (heap (self_ L)) (_params (self_ L)) p_copy /\
  param_values (self_ L) = param_values (self_ L0).
Proof.
  intros H0 Hr. induction Hr as [|L L' Hr IH Hb|L L' Hr IH Hb].
  - auto.
  - destruct IH as [Hs Hv].
    destruct (loop_body_keeps U cl dirs p_copy loss L L' (or_introl Hb) Hs) as (Hs' & Hv' & _).
    split; [exact Hs'|congruence].
  - destruct IH as [Hs Hv].
    destruct (loop_body_keeps U cl dirs p_copy loss L L' (or_intror Hb) Hs) as (Hs' & Hv' & _).
    split; [exact Hs'|congruence].
Qed.

Lemma snapshot_values h ps qs : snapshot h ps qs -> map (read h) qs = map (read h) ps.
Proof.
  intros (Hlen & _ & _ & Hz). apply list_eq. intros i.
  rewrite !list_lookup_fmap.
  destruct (qs !! i) as [q|] eqn:Hq, (ps !! i) as [p|] eqn:Hp; cbn.
  - f_equal. apply Hz. apply list_elem_of_lookup. exists i.
    apply lookup_zip_with_Some. eauto.
  - apply lookup_lt_Some in Hq. apply lookup_ge_None in Hp. lia.
  - apply lookup_lt_Some in Hp. apply lookup_ge_None in Hq. lia.
  - reflexivity.
Qed.

(** C5: in a run of [step], a pass of the inner loop that rejects its
    trial step ([rho > eta] fails) leaves the flag [acc_step] false and
    the parameters with exactly the data they had before the pass,
    which is the data of the snapshot [p_copy] taken before the loop.
    The parameters are tensors of the heap at the start of [step]. *)
Theorem rejected_step_restores_parameters U s cl s1 dirs p_copy loss L L' :
  (forall p, p ∈ _params (adjust_gamma_and_radius U s) ->
     (p < length (heap (adjust_gamma_and_radius U s)))%nat) ->
  step_prologue U s cl = Ok (s1, dirs, p_copy, loss) ->
  loop_reach U cl dirs p_copy loss
    {| self_ := s1; acc_step := false; iter_adj := 1 |} L ->
  loop_body U cl dirs p_copy loss L = Ok (Next L') ->
  acc_step L' = false /\
  param_values (self_ L') = param_values (self_ L) /\
  param_values (self_ L') = map (read (heap (self_ L'))) p_copy.
Proof.
  intros Hwf Hpro Hreach Hbody.
  destruct (prologue_snapshot U s cl s1 dirs p_copy loss Hwf Hpro) as (Hs1 & _ & _).
  destruct (loop_reach_snapshot U cl dirs p_copy loss
              {| self_ := s1; acc_step := false; iter_adj := 1 |} L Hs1 Hreach) as (HsL & _).
  destruct (loop_body_keeps U cl dirs p_copy loss L L' (or_intror Hbody) HsL)
    as (HsL' & Hv & _).
  split; [|split; [exact Hv|]].
  - apply loop_body_inv in Hbody as (s' & est & _ & [(_ & L1 & E & _)|(_ & Hf)]);
      [discriminate|].
    destruct (trial cl dirs loss est s') as [[s2 rho] d].
    destruct Hf as [(_ & E)|(_ & s3 & E)]; [|discriminate].
    injection E as ->. reflexivity.
  - symmetry. apply snapshot_values. exact HsL'.
Qed.

(** ** The budget of the inner loop *)
Lemma loop_body_max U cl dirs p_copy loss L f :
  loop_body U cl dirs p_copy loss L = Ok f ->
  match f with
  | Continue L' => iter_adj L' = iter_adj L /\
      _max_iter_adj (self_ L') = _max_iter_adj (self_ L)
  | Next L' => iter_adj L' = S (iter_adj L) /\
      _max_iter_adj (self_ L') = _max_iter_adj (self_ L)
  | Break L' => True
  end.
Proof.
  intros H. apply loop_body_inv in H as (s' & est & Hc & Hf).
  apply compute_step_inv in Hc as (a & nrm & _ & -> & _).
  destruct Hf as [(_ & L1 & -> & Hi & _ & _ & _ & Hm)|(_ & Hf)].
  - split; [exact Hi|]. rewrite Hm. reflexivity.
  - unfold trial in Hf. cbv zeta in Hf.
    destruct Hf as [(_ & ->)|(_ & s3 & ->)]; [|exact I].
    cbn [iter_adj self_]. split; [lia|].
    match goal with
    | |- _max_iter_adj (_set_param (update_by_rho ?x ?r) _) = _ =>
        destruct (update_by_rho_store x r) as (_ & _ & Hm & _)
    end.
    unfold _set_param. cbn [_max_iter_adj set_heap]. rewrite Hm. reflexivity.
Qed.

Lemma evaluated_budget U cl dirs p_copy loss fuel L :
  (count_evaluated (passes U fuel cl dirs p_copy loss L)
   <= _max_iter_adj (self_ L) - iter_adj L)%nat.
Proof.
  revert L. induction fuel as [|fuel IH]; intros L; cbn [passes].
  - destruct (_ <? _)%nat; cbn; lia.
  - destruct (Nat.ltb_spec (iter_adj L) (_max_iter_adj (self_ L))) as [Hlt|Hge];
      [|cbn; lia].
    destruct (loop_body U cl dirs p_copy loss L) as [[L'|L'|L']|e] eqn:Hb;
      try (pose proof (loop_body_max _ _ _ _ _ _ _ Hb) as Hm; cbn in Hm).
    + destruct Hm as [Hi Hm]. specialize (IH L'). rewrite Hi, Hm in IH.
      unfold count_evaluated in *. rewrite filter_cons_False by (cbn; discriminate).
      exact IH.
    + unfold count_evaluated. rewrite filter_cons_True by reflexivity.
      rewrite filter_nil. cbn [length]. lia.
    + destruct Hm as [Hi Hm]. specialize (IH L'). rewrite Hi, Hm in IH.
      unfold count_evaluated in *. rewrite filter_cons_True by reflexivity.
      cbn [length]. lia.
    + cbn. lia.
Qed.

Lemma out_of_fuel_retries U cl dirs p_copy loss fuel L :
  while_loop U fuel cl dirs p_copy loss L = None ->
  (fuel < count_retries (passes U fuel cl dirs p_copy loss L)
          + (_max_iter_adj (self_ L) - iter_adj L))%nat.
Proof.
  revert L. induction fuel as [|fuel IH]; intros L; cbn [while_loop passes].
  - destruct (Nat.ltb_spec (iter_adj L) (_max_iter_adj (self_ L))); [|discriminate].
    intros _. cbn. lia.
  - destruct (Nat.ltb_spec (iter_adj L) (_max_iter_adj (self_ L))) as [Hlt|Hge];
      [|discriminate].
    destruct (loop_body U cl dirs p_copy loss L) as [[L'|L'|L']|e] eqn:Hb;
      try discriminate;
      pose proof (loop_body_max _ _ _ _ _ _ _ Hb) as Hm; cbn in Hm;
      destruct Hm as [Hi Hm]; intros H; specialize (IH L' H); rewrite Hi, Hm in IH;
      unfold count_retries in *.
    + rewrite filter_cons_True by reflexivity. cbn [length]. lia.
    + rewrite filter_cons_False by discriminate. lia.
Qed.

Lemma zeros_like_all_zero v : all_zero (zeros_like v).
Proof. unfold all_zero, zeros_like. induction v; cbn; constructor; auto. Qed.

Lemma sset_lookup st p k v p' k' :
  sset st p k v p' k' = if decide (p' = p /\ k' = k) then Some v else st p' k'.
Proof.
  unfold sset. destruct (decide (p' = p)), (decide (k' = k));
    destruct (decide (_ /\ _)); try reflexivity; tauto.
Qed.

(** One parameter, the keys [ks]. *)
Lemma clear_keys p ks st :
  let st' := for_ ks (fun k st =>
               match st p k with
               | Some buf => sset st p k (zeros_like buf)
               | None => st
               end) st in
  (forall p' k', (forall buf, st p' k' = Some buf -> all_zero buf) ->
                 forall buf, st' p' k' = Some buf -> all_zero buf) /\
  (forall p' k', st p' k' = None <-> st' p' k' = None) /\
  (forall k buf, k ∈ ks -> st' p k = Some buf -> all_zero buf).
Proof.
  cbv zeta. revert st. induction ks as [|k ks IH]; intros st.
  - unfold for_. cbn. split; [auto|]. split; [tauto|]. intros k buf Hk. inversion Hk.
  - unfold for_ in *. cbn [fold_left].
    set (st1 := match st p k with
                | Some buf => sset st p k (zeros_like buf)
                | None => st
                end).
    assert (H1 : forall p' k', (forall buf, st p' k' = Some buf -> all_zero buf) ->
                   forall buf, st1 p' k' = Some buf -> all_zero buf).
    { intros p' k' Hz buf. unfold st1. destruct (st p k) as [b|] eqn:E; [|apply Hz].
      rewrite sset_lookup. destruct (decide _); [|apply Hz].
      intros [= <-]. apply zeros_like_all_zero. }
    assert (H2 : forall p' k', st p' k' = None <-> st1 p' k' = None).
    { intros p' k'. unfold st1. destruct (st p k) as [b|] eqn:E; [|tauto].
      rewrite sset_lookup. destruct (decide _) as [[-> ->]|]; [|tauto].
      rewrite E. split; discriminate. }
    assert (H3 : forall buf, st1 p k = Some buf -> all_zero buf).
    { intros buf. unfold st1. destruct (st p k) as [b|] eqn:E.
      - rewrite sset_lookup. rewrite decide_True by auto.
        intros [= <-]. apply zeros_like_all_zero.
      - rewrite E. discriminate. }
    destruct (IH st1) as (Ha & Hb & Hc).
    split; [|split].
    + intros p' k' Hz. apply Ha, H1, Hz.
    + intros p' k'. rewrite H2. apply Hb.
    + intros k' buf Hk. apply elem_of_cons in Hk as [->|Hk].
      * apply Ha. exact H3.
      * apply Hc. exact Hk.
Qed.

Lemma clear_momentum_cleared s :
  cleared (_params s) (directions s) (state (_clear_momentum s)).
Proof.
  unfold _clear_momentum. cbn [state set_state].
  generalize (state s) as st. generalize (directions s) as ks.
  intros ks. induction (_params s) as [|p ps IH]; intros st.
  - intros p k buf Hp. inversion Hp.
  - unfold for_ in *. cbn [fold_left].
    destruct (clear_keys p ks st) as (Ha & Hb & Hc). cbv zeta in *.
    set (st1 := for_ ks _ st) in *.
    intros p' k buf Hp Hk Hbuf.
    destruct (decide (p' ∈ ps)) as [Hin|Hnin].
    + eapply (IH st1); eassumption.
    + apply elem_of_cons in Hp as [->|Hp]; [|contradiction].
      (* the later parameters keep what is zero *)
      revert Hbuf.
      assert (Hkeep : forall ps' st2,
                (forall buf, st2 p k = Some buf -> all_zero buf) ->
                forall buf,
                  fold_left (fun a b => for_ ks (fun k0 st0 =>
                     match st0 b k0 with
                     | Some buf0 => sset st0 b k0 (zeros_like buf0)
                     | None => st0
                     end) a) ps' st2 p k = Some buf -> all_zero buf).
      { clear. intros ps'. induction ps' as [|q ps' IH']; intros st2 Hz buf.
        - cbn. apply Hz.
        - cbn [fold_left]. apply IH'.
          destruct (clear_keys q ks st2) as (Ha & _ & _). cbv zeta in Ha.
          apply Ha. exact Hz. }
      apply Hkeep. intros b. apply Hc. exact Hk.
Qed.

Lemma clear_momentum_fields s :
  _params (_clear_momentum s) = _params s /\
  directions (_clear_momentum s) = directions s /\
  gammalb (_clear_momentum s) = gammalb s.
Proof. unfold _clear_momentum. cbn. auto. Qed.

Lemma step_epilogue_restart L :
  acc_step L = false ->
  let s' := step_epilogue L in
  gamma s' = gammalb s' /\ gammalb s' = gammalb (self_ L) /\
  cleared (_params s') (directions s') (state s').
Proof.
  intros Hacc. cbv zeta. unfold step_epilogue. rewrite Hacc. cbn [negb].
  set (s1 := set_iter (self_ L) (iter (self_ L) + 1)).
  cbn [gamma gammalb set_gamma _params directions state].
  destruct (clear_momentum_fields s1) as (Hp & Hd & Hg).
  split; [reflexivity|]. split; [rewrite Hg; reflexivity|].
  rewrite Hp, Hd. apply clear_momentum_cleared.
Qed.

Lemma step_reject_final U fuel s cl s1 dirs p_copy loss L :
  step_prologue U s cl = Ok (s1, dirs, p_copy, loss) ->
  while_loop U fuel cl dirs p_copy loss
    {| self_ := s1; acc_step := false; iter_adj := 1 |} = Some (Ok L) ->
  step U fuel s (Some cl) = Some (Ok (step_epilogue L, loss)).
Proof.
  intros Hp Hw. unfold step. rewrite Hp. cbv zeta. rewrite Hw. reflexivity.
Qed.

Lemma zeros_like_idem v : zeros_like (zeros_like v) = zeros_like v.
Proof. unfold zeros_like. rewrite map_map. reflexivity. Qed.

(** The keys [ks] of one parameter. *)
Lemma clear_keys_spec p ks st p' k' :
  for_ ks (fun k st =>
     match st p k with
     | Some buf => sset st p k (zeros_like buf)
     | None => st
     end) st p' k' =
  if decide (p' = p /\ k' ∈ ks) then zeros_like <$> st p' k' else st p' k'.
Proof.
  unfold for_. revert st. induction ks as [|k ks IH]; intros st; cbn [fold_left].
  - destruct (decide _) as [[_ H]|]; [inversion H|reflexivity].
  - rewrite IH.
    assert (E : (match st p k with
                 | Some buf => sset st p k (zeros_like buf)
                 | None => st
                 end) p' k' =
                if decide (p' = p /\ k' = k) then zeros_like <$> st p' k' else st p' k').
    { destruct (st p k) as [buf|] eqn:Eb.
      - rewrite sset_lookup. destruct (decide (p' = p /\ k' = k)) as [[-> ->]|]; [|reflexivity].
        rewrite Eb. reflexivity.
      - destruct (decide (p' = p /\ k' = k)) as [[-> ->]|]; [|reflexivity].
        rewrite Eb. reflexivity. }
    rewrite E. clear E IH.
    repeat case_decide; try reflexivity;
      try (exfalso; rewrite ?elem_of_cons in *; tauto);
      destruct (st p' k'); cbn; rewrite ?zeros_like_idem; reflexivity.
Qed.

(** [_clear_momentum] zeroes the buffers of the parameters under the
    configured keys, keeps their shapes, and leaves every other entry
    of the state as it is. *)
Lemma clear_momentum_spec s p k :
  state (_clear_momentum s) p k =
  if decide (p ∈ _params s /\ k ∈ directions s)
  then zeros_like <$> state s p k else state s p k.
Proof.
  unfold _clear_momentum. cbn [state set_state].
  generalize (state s) as st. generalize (directions s) as ks. intros ks.
  induction (_params s) as [|q ps IH]; intros st.
  - unfold for_. cbn [fold_left].
    destruct (decide _) as [[H _]|]; [inversion H|reflexivity].
  - unfold for_ in *. cbn [fold_left]. rewrite IH.
    pose proof (clear_keys_spec q ks st p k) as E. unfold for_ in E. rewrite E.
    clear E IH.
    repeat case_decide; try reflexivity;
      try (exfalso; rewrite ?elem_of_cons in *; tauto);
      destruct (st p k); cbn; rewrite ?zeros_like_idem; reflexivity.
Qed.

(** The passes that do not accept leave the state of the optimizer,
    its parameters and its configured keys as they are. *)
Lemma loop_body_state U cl dirs p_copy loss L L' :
  (loop_body U cl dirs p_copy loss L = Ok (Continue L') \/
   loop_body U cl dirs p_copy loss L = Ok (Next L')) ->
  state (self_ L') = state (self_ L) /\
  _params (self_ L') = _params (self_ L) /\
  directions (self_ L') = directions (self_ L) /\
  gammalb (self_ L') = gammalb (self_ L) /\
  acc_step L' = acc_step L \/
  state (self_ L') = state (self_ L) /\
  _params (self_ L') = _params (self_ L) /\
  directions (self_ L') = directions (self_ L) /\
  gammalb (self_ L') = gammalb (self_ L) /\
  acc_step L' = false.
Proof.
  intros H. unfold loop_body in H.
  assert (Hu : forall s rho,
            state (update_by_rho s rho) = state s /\
            _params (update_by_rho s rho) = _params s /\
            directions (update_by_rho s rho) = directions s /\
            gammalb (update_by_rho s rho) = gammalb s).
  { intros s rho. unfold update_by_rho.
    destruct (xle _ _); [cbn; auto|]. destruct (xge _ _); cbn; auto. }
  destruct H as [H|H];
    apply bind_inv in H as ([s' est] & Hc & H);
    apply compute_step_inv in Hc as (a & nrm & _ & -> & _);
    destruct (decide (est < 0)).
  - injection H as <-. left. cbn. auto.
  - cbv zeta in H. destruct (xgt _ _); cbn [negb] in H; [|discriminate].
    apply bind_inv in H as (s3 & _ & H). discriminate.
  - discriminate.
  - cbv zeta in H. destruct (xgt _ _) eqn:Hx; cbn [negb] in H.
    + apply bind_inv in H as (s3 & _ & H). discriminate.
    + injection H as <-. right. cbn [self_ acc_step].
      unfold _set_param. cbn [state _params directions gammalb set_heap].
      match goal with
      | |- context [update_by_rho ?x ?r] => destruct (Hu x r) as (-> & -> & -> & ->)
      end.
      cbn. auto.
Qed.

Lemma while_loop_not_accepted U fuel cl dirs p_copy loss L0 L :
  while_loop U fuel cl dirs p_copy loss L0 = Some (Ok L) ->
  acc_step L0 = false -> acc_step L = false ->
  state (self_ L) = state (self_ L0) /\
  _params (self_ L) = _params (self_ L0) /\
  directions (self_ L) = directions (self_ L0) /\
  gammalb (self_ L) = gammalb (self_ L0).
Proof.
  revert L0. induction fuel as [|fuel IH]; intros L0; cbn [while_loop].
  - destruct (_ <? _)%nat; [discriminate|]. intros [= <-]. auto.
  - destruct (_ <? _)%nat; [|intros [= <-]; auto].
    destruct (loop_body U cl dirs p_copy loss L0) as [[L'|L'|L']|e] eqn:Hb.
    + intros Hw H0 HL.
      destruct (loop_body_state U cl dirs p_copy loss L0 L' (or_introl Hb))
        as [(Hs & Hp & Hd & Hg & Ha)|(Hs & Hp & Hd & Hg & Ha)];
        (destruct (IH L' Hw) as (-> & -> & -> & ->); [congruence|exact HL|auto]).
    + intros [= <-] H0 HL. exfalso.
      unfold loop_body in Hb.
      apply bind_inv in Hb as ([s' est] & _ & Hb).
      destruct (decide (est < 0)); [discriminate|]. cbv zeta in Hb.
      destruct (xgt _ _) eqn:Hx; cbn [negb] in Hb; [|discriminate].
      apply bind_inv in Hb as (s3 & _ & Hb). injection Hb as <-.
      cbn in HL. discriminate.
    + intros Hw H0 HL.
      destruct (loop_body_state U cl dirs p_copy loss L0 L' (or_intror Hb))
        as [(Hs & Hp & Hd & Hg & Ha)|(Hs & Hp & Hd & Hg & Ha)];
        (destruct (IH L' Hw) as (-> & -> & -> & ->); [congruence|exact HL|auto]).
    + discriminate.
Qed.

(** C4, for the buffers of the configured directions: when the inner
    loop of [step] ends without an accepted step, the call returns an
    optimizer in which [gamma] equals [gammalb] and every momentum
    buffer of a configured direction, [state[p][k]] for a parameter [p]
    and a key [k] of [self.directions], is the buffer that the loop was
    entered with, with its shape, filled with zeros.  No entry of the
    state is created or dropped, and every other entry, the buffer
    [fixed_momentum_buffer] of the fixed-momentum mode among them, is
    left as it is. *)
Theorem reject_final_clears_momentum U fuel s cl s1 dirs p_copy loss L :
  step_prologue U s cl = Ok (s1, dirs, p_copy, loss) ->
  while_loop U fuel cl dirs p_copy loss
    {| self_ := s1; acc_step := false; iter_adj := 1 |} = Some (Ok L) ->
  acc_step L = false ->
  exists s', step U fuel s (Some cl) = Some (Ok (s', loss)) /\
    gamma s' = gammalb s' /\
    (forall p k buf, p ∈ _params s' -> k ∈ directions s' ->
      state s' p k = Some buf -> all_zero buf) /\
    _params s' = _params s1 /\ directions s' = directions s1 /\
    gammalb s' = gammalb s1 /\
    (forall p k, p ∈ _params s1 -> k ∈ directions s1 ->
       state s' p k = zeros_like <$> state s1 p k) /\
    (forall p k, ~ (p ∈ _params s1 /\ k ∈ directions s1) ->
       state s' p k = state s1 p k).
Proof.
  intros Hp Hw Hacc. exists (step_epilogue L).
  split; [eapply step_reject_final; eassumption|].
  destruct (step_epilogue_restart L Hacc) as (Hg & Hgl & Hc).
  destruct (while_loop_not_accepted U fuel cl dirs p_copy loss _ L Hw eq_refl Hacc)
    as (Hst & Hps & Hds & Hgs). cbn [self_] in *.
  assert (Hsp : forall p k,
            state (step_epilogue L) p k =
            if decide (p ∈ _params s1 /\ k ∈ directions s1)
            then zeros_like <$> state s1 p k else state s1 p k).
  { intros p k. unfold step_epilogue. rewrite Hacc. cbn [negb].
    cbn [state set_gamma]. rewrite clear_momentum_spec.
    cbn [_params directions state set_iter]. rewrite Hst, Hps, Hds. reflexivity. }
  assert (Hpp : _params (step_epilogue L) = _params s1 /\
                directions (step_epilogue L) = directions s1).
  { unfold step_epilogue. rewrite Hacc. cbn. rewrite Hps, Hds. auto. }
  destruct Hpp as [Hp1 Hd1].
  split; [exact Hg|]. split; [exact Hc|]. split; [exact Hp1|]. split; [exact Hd1|].
  split; [rewrite Hgl; exact Hgs|]. split.
  - intros p k Hin Hk. rewrite Hsp, decide_True by auto. reflexivity.
  - intros p k Hn. rewrite Hsp, decide_False by exact Hn. reflexivity.
Qed.

(** C8: when the inner loop of [step] ends without an accepted step,
    the call does not raise; it returns the optimizer after the restart
    together with the loss that the closure computed before the loop,
    at the start of the call. *)
Theorem reject_final_returns_loss U fuel s cl s1 dirs p_copy loss L :
  step_prologue U s cl = Ok (s1, dirs, p_copy, loss) ->
  while_loop U fuel cl dirs p_copy loss
    {| self_ := s1; acc_step := false; iter_adj := 1 |} = Some (Ok L) ->
  acc_step L = false ->
  step U fuel s (Some cl) = Some (Ok (step_epilogue L, loss)) /\
  loss = objective cl (param_values (adjust_gamma_and_radius U s)).
Proof.
  intros Hp Hw Hacc. split; [eapply step_reject_final; eassumption|].
  unfold step_prologue in Hp. cbv zeta in Hp.
  destruct (_clone_param _) as [sc pc].
  apply bind_inv in Hp as (g & _ & Hp).
  apply bind_inv in Hp as ([s2 ds] & _ & Hp).
  apply bind_inv in Hp as (s3 & _ & Hp). injection Hp as _ _ _ <-. reflexivity.
Qed.

(** C1, with the counter as the program keeps it: a pass of the inner
    loop whose predicted decrease is negative sets [gamma] to
    [max(gamma * beta1, 1e-4)], the radius to
    [max(radius / sqrt(beta1), 1e-12)] and goes back to the head of the
    loop with the counter [iter_adj] unchanged.  The budget bounds
    the passes that evaluate a trial step: there are at most
    [_max_iter_adj - iter_adj] of them from any state of the loop.  A
    run that has not ended within its fuel has made more retries than
    the fuel exceeds that budget, so the loop ends once the retries
    do. *)
Theorem negative_retry_keeps_counter U cl dirs p_copy loss L s' est :
  compute_step U (self_ L) = Ok (s', est) -> est < 0 ->
  (exists L',
     loop_body U cl dirs p_copy loss L = Ok (Continue L') /\
     iter_adj L' = iter_adj L /\
     gamma (self_ L') =
       Rmax (gamma (self_ L) * beta1 (adjrule (self_ L))) (1 / 10000) /\
     radius (self_ L') =
       Rmax (radius (self_ L) / sqrt (beta1 (adjrule (self_ L))))
            (1 / 1000000000000)) /\
  (forall fuel,
     (count_evaluated (passes U fuel cl dirs p_copy loss L)
      <= _max_iter_adj (self_ L) - iter_adj L)%nat) /\
  (forall fuel,
     while_loop U fuel cl dirs p_copy loss L = None ->
     (fuel < count_retries (passes U fuel cl dirs p_copy loss L)
             + (_max_iter_adj (self_ L) - iter_adj L))%nat).
Proof.
  intros Hc Hneg. split; [|split].
  - eexists. split; [eapply loop_body_retry; eassumption|].
    apply compute_step_inv in Hc as (a & nrm & _ & -> & _). cbn. auto.
  - intros fuel. apply evaluated_budget.
  - intros fuel. apply out_of_fuel_retries.
Qed.

Lemma prologue_R a nrm :
  step_prologue (fixed_solver a nrm) opt0 cl_sq = Ok (s1_0, dirs0, [1%nat], loss0).
Proof.
  unfold step_prologue. cbv zeta.
  cbn [adjust_gamma_and_radius fixed_solver].
  change (_clone_param _) with (s1_0, [1%nat]).
  cbv beta iota.
  change (bool_normalize s1_0) with false.
  unfold gather_normalized_grad. rewrite bind_Ok.
  change (fixed_momentum s1_0) with (-1).
  rewrite decide_True by lra.
  reflexivity.
Qed.

Lemma compute_step_R a nrm :
  compute_step (fixed_solver a nrm) s1_0 =
  Ok (s_try a nrm, trs_est 2 zeros2 (vec_of [-4; 6]) a).
Proof. reflexivity. Qed.

Lemma est_fwd : trs_est 2 zeros2 (vec_of [-4; 6]) (vec_of [1; 0]) = 4.
Proof.
  unfold trs_est, dot, matvec. cbv [sum_n zeros2 vec_of nth]. lra.
Qed.

Lemma est_back : trs_est 2 zeros2 (vec_of [-4; 6]) (vec_of [-1; 0]) = -4.
Proof.
  unfold trs_est, dot, matvec. cbv [sum_n zeros2 vec_of nth]. lra.
Qed.

Lemma moved_heap a :
  heap (s_moved a) =
  [[1 + (0 + a 0%nat * (-1 * (2 * 1)) + a 1%nat * 3)]; [1]].
Proof. reflexivity. Qed.

Lemma moved_objective a :
  objective cl_sq (param_values (s_moved a)) =
  (1 + (0 + a 0%nat * (-1 * (2 * 1)) + a 1%nat * 3)) *
  (1 + (0 + a 0%nat * (-1 * (2 * 1)) + a 1%nat * 3)).
Proof. reflexivity. Qed.

Lemma moved_fwd_objective :
  objective cl_sq (param_values (s_moved (vec_of [1; 0]))) = 1.
Proof. rewrite moved_objective. cbv [vec_of nth]. lra. Qed.

Lemma rho_fwd :
  torch_div (loss0 - objective cl_sq (param_values (s_moved (vec_of [1; 0])))) 4
  = Finite 0.
Proof.
  rewrite moved_fwd_objective. unfold torch_div, loss0.
  rewrite decide_False by lra. f_equal. lra.
Qed.

Lemma update_by_rho_fwd :
  update_by_rho (s_moved (vec_of [1; 0])) (Finite 0) = s_shrunk.
Proof.
  unfold update_by_rho.
  change (zeta1 (adjrule (s_moved (vec_of [1; 0])))) with (1 / 4).
  unfold xle. rewrite bool_decide_eq_true_2 by lra. reflexivity.
Qed.

Lemma body_fwd :
  loop_body U_fwd cl_sq dirs0 [1%nat] loss0 L_start = Ok (Next L_rej).
Proof.
  unfold loop_body. unfold U_fwd.
  change (self_ L_start) with s1_0. rewrite compute_step_R, bind_Ok.
  rewrite est_fwd. rewrite decide_False by lra. cbv zeta.
  change (_use_new_d (s_try (vec_of [1; 0]) 1)
            (build_direction (s_try (vec_of [1; 0]) 1) dirs0
               (alpha (s_try (vec_of [1; 0]) 1))))
    with (s_moved (vec_of [1; 0])).
  rewrite rho_fwd, update_by_rho_fwd.
  change (eta (adjrule s_shrunk)) with (8 / 100).
  unfold xgt. rewrite bool_decide_eq_false_2 by lra.
  reflexivity.
Qed.

Lemma loop_fwd :
  while_loop U_fwd 1 cl_sq dirs0 [1%nat] loss0 L_start = Some (Ok L_rej).
Proof.
  cbn [while_loop]. change (iter_adj L_start <? _max_iter_adj (self_ L_start))%nat with true.
  cbv iota. rewrite body_fwd. reflexivity.
Qed.

Lemma rejected_values : param_values (self_ L_rej) = [[1]].
Proof. reflexivity. Qed.

Lemma reject_final_clears_momentum_witness :
  exists s', step U_fwd 1 opt0 (Some cl_sq) = Some (Ok (s', loss0)) /\
    gamma s' = gammalb s' /\
    (forall p k buf, p ∈ _params s' -> k ∈ directions s' ->
      state s' p k = Some buf -> all_zero buf) /\
    _params s' = _params s1_0 /\ directions s' = directions s1_0 /\
    gammalb s' = gammalb s1_0 /\
    (forall p k, p ∈ _params s1_0 -> k ∈ directions s1_0 ->
       state s' p k = zeros_like <$> state s1_0 p k) /\
    (forall p k, ~ (p ∈ _params s1_0 /\ k ∈ directions s1_0) ->
       state s' p k = state s1_0 p k).
Proof.
  exact (reject_final_clears_momentum U_fwd 1 opt0 cl_sq s1_0 dirs0 [1%nat]
           loss0 L_rej (prologue_R _ _) loop_fwd eq_refl).
Defined.

(** In Scenario R the restart turns the buffer [3] into [0]. *)
Lemma restart_R :
  state (self_ L_rej) 0%nat "momentum" = Some [3] /\
  state (step_epilogue L_rej) 0%nat "momentum" = Some [0] /\
  gamma (step_epilogue L_rej) = 1 / 10000000000 /\
  iter (step_epilogue L_rej) = 2%nat.
Proof. repeat split; reflexivity. Qed.

(** ** Scenario R in fixed-momentum mode *)

Lemma prologue_fixed :
  step_prologue U_fwd opt_fixed cl_sq = Ok (s1_fixed, dirs_fixed, [1%nat], loss0).
Proof.
  unfold step_prologue. cbv zeta.
  cbn [adjust_gamma_and_radius U_fwd fixed_solver].
  change (_clone_param _)
    with (set_heap (set_grads opt_fixed (fun _ => [2 * 1])) [[1]; [1]], [1%nat]).
  cbv beta iota.
  unfold gather_normalized_grad. cbn [bool_normalize set_heap set_grads opt_fixed opt0].
  rewrite bind_Ok.
  cbn [fixed_momentum set_heap set_grads opt_fixed].
  rewrite decide_False by lra.
  reflexivity.
Qed.

Lemma body_fixed :
  loop_body U_fwd cl_sq dirs_fixed [1%nat] loss0
    {| self_ := s1_fixed; acc_step := false; iter_adj := 1 |} = Ok (Next L_rej_fixed).
Proof.
  unfold loop_body. cbn [self_].
  change (compute_step U_fwd s1_fixed)
    with (Ok (set_alpha_norm (set_alpha s1_fixed (vec_of [1; 0])) 1,
              trs_est 2 zeros2 (vec_of [-4; 6]) (vec_of [1; 0]))).
  rewrite bind_Ok, est_fwd. rewrite decide_False by lra. cbv zeta.
  change (_use_new_d (set_alpha_norm (set_alpha s1_fixed (vec_of [1; 0])) 1)
            (build_direction (set_alpha_norm (set_alpha s1_fixed (vec_of [1; 0])) 1)
               dirs_fixed
               (alpha (set_alpha_norm (set_alpha s1_fixed (vec_of [1; 0])) 1))))
    with s_moved_fixed.
  assert (Hobj : objective cl_sq (param_values s_moved_fixed) = 1).
  { change (objective cl_sq (param_values s_moved_fixed))
      with ((1 + (0 + 1 * (1 / 2 * 0 + -1 * (2 * 1)))) *
            (1 + (0 + 1 * (1 / 2 * 0 + -1 * (2 * 1))))). lra. }
  assert (Hrho : torch_div (loss0 - objective cl_sq (param_values s_moved_fixed)) 4
                 = Finite 0).
  { rewrite Hobj. unfold torch_div, loss0. rewrite decide_False by lra. f_equal. lra. }
  rewrite Hrho.
  assert (Hup : update_by_rho s_moved_fixed (Finite 0) =
                set_radius
                  (set_gamma s_moved_fixed (Rmax (1 / 1000000 * 50) (1 / 10000)))
                  (Rmax (10 * (1 / 5)) (1 / 100000000))).
  { unfold update_by_rho.
    change (zeta1 (adjrule s_moved_fixed)) with (1 / 4).
    unfold xle. rewrite bool_decide_eq_true_2 by lra. reflexivity. }
  rewrite Hup.
  change (eta (adjrule _)) with (8 / 100).
  unfold xgt. rewrite bool_decide_eq_false_2 by lra.
  reflexivity.
Qed.

Lemma loop_fixed :
  while_loop U_fwd 1 cl_sq dirs_fixed [1%nat] loss0
    {| self_ := s1_fixed; acc_step := false; iter_adj := 1 |} = Some (Ok L_rej_fixed).
Proof.
  cbn [while_loop iter_adj self_].
  change (1 <? _max_iter_adj s1_fixed)%nat with true.
  cbv iota. rewrite body_fixed. reflexivity.
Qed.

(** After the restart in fixed-momentum mode the heavy-ball buffer still
    holds [-2]. *)
Lemma restart_keeps_fixed_momentum_buffer :
  0 <= fixed_momentum opt_fixed /\
  while_loop U_fwd 1 cl_sq dirs_fixed [1%nat] loss0
    {| self_ := s1_fixed; acc_step := false; iter_adj := 1 |} = Some (Ok L_rej_fixed) /\
  acc_step L_rej_fixed = false /\
  step U_fwd 1 opt_fixed (Some cl_sq) = Some (Ok (step_epilogue L_rej_fixed, loss0)) /\
  gamma (step_epilogue L_rej_fixed) = gammalb (step_epilogue L_rej_fixed) /\
  state (step_epilogue L_rej_fixed) 0%nat "fixed_momentum_buffer" = Some buf_fixed /\
  buf_fixed = [-2] /\
  ~ all_zero buf_fixed.
Proof.
  split; [cbn; lra|]. split; [exact loop_fixed|]. split; [reflexivity|].
  split; [exact (step_reject_final _ _ _ _ _ _ _ _ _ prologue_fixed loop_fixed)|].
  split; [reflexivity|]. split; [reflexivity|].
  split; [unfold buf_fixed; f_equal; lra|].
  unfold buf_fixed, all_zero. intros H. inversion H as [|x l Hx Hl]; subst. lra.
Qed.

Lemma reject_final_returns_loss_witness :
  step U_fwd 1 opt0 (Some cl_sq) = Some (Ok (step_epilogue L_rej, loss0)) /\
  loss0 = objective cl_sq (param_values opt0).
Proof.
  exact (reject_final_returns_loss U_fwd 1 opt0 cl_sq s1_0 dirs0 [1%nat]
           loss0 L_rej (prologue_R _ _) loop_fwd eq_refl).
Defined.

Lemma opt0_params_valid p : p ∈ _params opt0 -> (p < length (heap opt0))%nat.
Proof. intros Hp. apply list_elem_of_singleton in Hp as ->. cbn. lia. Qed.

Lemma rejected_step_restores_parameters_witness :
  acc_step L_rej = false /\
  param_values (self_ L_rej) = param_values (self_ L_start) /\
  param_values (self_ L_rej) = map (read (heap (self_ L_rej))) [1%nat].
Proof.
  exact (rejected_step_restores_parameters U_fwd opt0 cl_sq s1_0 dirs0 [1%nat]
           loss0 L_start L_rej opt0_params_valid (prologue_R _ _)
           (reach_first _ _ _ _ _ _) body_fwd).
Defined.

Lemma est_back_neg : trs_est 2 zeros2 (vec_of [-4; 6]) (vec_of [-1; 0]) < 0.
Proof. rewrite est_back. lra. Qed.

Lemma negative_retry_keeps_counter_witness :
  (exists L',
     loop_body U_back cl_sq dirs0 [1%nat] loss0 L_start = Ok (Continue L') /\
     iter_adj L' = 1%nat /\
     gamma (self_ L') = Rmax (1 / 1000000 * 50) (1 / 10000) /\
     radius (self_ L') = Rmax (10 / sqrt 50) (1 / 1000000000000)) /\
  (forall fuel,
     (count_evaluated (passes U_back fuel cl_sq dirs0 [1%nat] loss0 L_start)
      <= 2 - 1)%nat) /\
  (forall fuel,
     while_loop U_back fuel cl_sq dirs0 [1%nat] loss0 L_start = None ->
     (fuel < count_retries (passes U_back fuel cl_sq dirs0 [1%nat] loss0 L_start)
             + (2 - 1))%nat).
Proof.
  exact (negative_retry_keeps_counter U_back cl_sq dirs0 [1%nat] loss0 L_start
           (s_try (vec_of [-1; 0]) 1) _ (compute_step_R _ _) est_back_neg).
Defined.

(** A solver that keeps answering a step of negative predicted decrease
    keeps the loop in its first pass. *)
Lemma stuck_pass L :
  iter_adj L = 1%nat -> _max_iter_adj (self_ L) = 2%nat ->
  dim (self_ L) = 2%nat -> Q (self_ L) = zeros2 -> c (self_ L) = vec_of [-4; 6] ->
  exists L', loop_body U_back cl_sq dirs0 [1%nat] loss0 L = Ok (Continue L') /\
    iter_adj L' = 1%nat /\ _max_iter_adj (self_ L') = 2%nat /\
    dim (self_ L') = 2%nat /\ Q (self_ L') = zeros2 /\ c (self_ L') = vec_of [-4; 6].
Proof.
  intros Hi Hm Hd HQ Hc.
  assert (Hs : compute_step U_back (self_ L) =
               Ok (set_alpha_norm (set_alpha (self_ L) (vec_of [-1; 0])) 1,
                   trs_est 2 zeros2 (vec_of [-4; 6]) (vec_of [-1; 0]))).
  { unfold compute_step, solve_alpha, U_back, fixed_solver.
    cbn [TRS_solve_alpha]. rewrite bind_Ok.
    cbn [dim Q c alpha set_alpha_norm set_alpha]. rewrite Hd, HQ, Hc. reflexivity. }
  eexists. split; [exact (loop_body_retry _ _ _ _ _ _ _ _ Hs est_back_neg)|].
  cbn. auto.
Qed.

Lemma stuck_loop fuel L :
  iter_adj L = 1%nat -> _max_iter_adj (self_ L) = 2%nat ->
  dim (self_ L) = 2%nat -> Q (self_ L) = zeros2 -> c (self_ L) = vec_of [-4; 6] ->
  while_loop U_back fuel cl_sq dirs0 [1%nat] loss0 L = None /\
  passes U_back fuel cl_sq dirs0 [1%nat] loss0 L = replicate fuel Retry.
Proof.
  revert L. induction fuel as [|fuel IH]; intros L Hi Hm Hd HQ Hc;
    cbn [while_loop passes]; rewrite Hi, Hm; change (1 <? 2)%nat with true; cbv iota.
  - split; reflexivity.
  - destruct (stuck_pass L Hi Hm Hd HQ Hc) as (L' & -> & Hi' & Hm' & Hd' & HQ' & Hc').
    destruct (IH L' Hi' Hm' Hd' HQ' Hc') as [-> ->]. split; reflexivity.
Qed.

(** In Scenario R with the solver [U_back] the first pass is a retry
    that leaves the counter at [1], every pass within the fuel is a
    retry, however many they are against the budget [2], and [step]
    does not return with any fuel. *)
Lemma negative_retries_never_end :
  (exists L',
     loop_body U_back cl_sq dirs0 [1%nat] loss0 L_start = Ok (Continue L') /\
     iter_adj L_start = 1%nat /\ iter_adj L' = 1%nat) /\
  _max_iter_adj (self_ L_start) = 2%nat /\
  (forall fuel,
     passes U_back fuel cl_sq dirs0 [1%nat] loss0 L_start = replicate fuel Retry) /\
  (forall fuel,
     step U_back fuel opt0 (Some cl_sq) = None).
Proof.
  split; [|split; [reflexivity|split]].
  - destruct (stuck_pass L_start) as (L' & Hb & Hi & _); try reflexivity.
    exists L'. auto.
  - intros fuel. apply stuck_loop; reflexivity.
  - intros fuel. unfold step. unfold U_back at 1. rewrite prologue_R. cbv zeta.
    change {| self_ := s1_0; acc_step := false; iter_adj := 1 |} with L_start.
    destruct (stuck_loop fuel L_start) as [-> _]; reflexivity.
Qed.

Lemma aggressive_update_jumps_to_floor_witness :
  gamma (update_by_rho opt0 (Finite 1)) =
    py_max2 (1 / 10000000000) (py_min2 (1 / 1000000 / 30) (np_log (1 / 1000000))) /\
  gamma (update_by_rho opt0 (Finite 1)) = 1 / 10000000000 /\
  np_log (1 / 1000000) = Finite (ln (1 / 1000000)) /\ ln (1 / 1000000) < 0 /\
  (0 < 30 ->
   py_min2 (1 / 1000000 / 30) (np_log (1 / 1000000)) = Finite (ln (1 / 1000000))) /\
  (forall b2, py_max2 (1 / 10000000000) (py_min2 (1 / 1000000 / b2) (np_log (1 / 1000000)))
              = 1 / 10000000000).
Proof.
  apply (aggressive_update_jumps_to_floor opt0 (Finite 1)).
  - apply bool_decide_eq_false_2. cbn. lra.
  - apply bool_decide_eq_true_2. cbn. lra.
  - cbn. lra.
  - cbn. lra.
  - cbn. lra.
Defined.

(** C6: when [update_trust_region] rebuilds the model and returns, the
    matrices [Q] and [G] it stores are symmetric on the subspace, one
    index per direction; [Q] as [compute_Q_via_hvp] returns it and as
    [compute_Q_via_interpolation] returns it is symmetric for every
    list of directions, and so is the [G] of both metrics. *)
Theorem constructed_matrices_symmetric U cl s p_copy dirs fx s' :
  update_trust_region U cl s p_copy dirs fx = Ok s' ->
  (iter s mod qp_freq (decayrule s) = 0)%nat ->
  dim s' = length dirs /\
  symmetric (dim s') (Q s') /\ symmetric (dim s') (G s') /\
  G s' = construct_G s dirs /\
  (forall s0 ds, symmetric (length ds) (construct_G s0 ds)) /\
  (forall style s2 Q2,
     compute_Q_via_hvp cl s dirs style = Ok (s2, Q2) ->
     symmetric (length dirs) Q2) /\
  (forall c delta multiples s2 Q2,
     compute_Q_via_interpolation U cl s dirs fx c p_copy delta multiples
       = Ok (s2, Q2) ->
     symmetric (length dirs) Q2).
Proof.
  intros H Hmod.
  destruct (update_trust_region_symmetric U cl s p_copy dirs fx s' H Hmod)
    as (Hd & HQ & HG).
  repeat split; try assumption.
  - unfold update_trust_region in H. cbv zeta in H.
    destruct (decide (qp_freq (decayrule s) = 0%nat)); [discriminate|].
    rewrite Hmod in H. cbn [Nat.eqb negb] in H.
    apply bind_inv in H as ([s1 Q1] & _ & H). injection H as <-. reflexivity.
  - intros s0 ds. apply construct_G_symmetric.
  - intros style s2 Q2. apply compute_Q_via_hvp_symmetric.
  - intros c delta m s2 Q2. apply compute_Q_via_interpolation_symmetric.
Qed.

Lemma update_R :
  exists s', update_trust_region U_fwd cl_sq (set_iter s1_0 2) [1%nat] dirs0 loss0
             = Ok s'.
Proof. eexists. reflexivity. Qed.

Lemma constructed_matrices_symmetric_witness :
  exists s',
    update_trust_region U_fwd cl_sq (set_iter s1_0 2) [1%nat] dirs0 loss0 = Ok s' /\
    dim s' = 2%nat /\ symmetric (dim s') (Q s') /\ symmetric (dim s') (G s').
Proof.
  destruct update_R as [s' H]. exists s'. split; [exact H|].
  destruct (constructed_matrices_symmetric U_fwd cl_sq (set_iter s1_0 2) [1%nat]
              dirs0 loss0 s' H eq_refl) as (Hd & HQ & HG & _).
  auto.
Defined.

(** C10: [normalize] returns a direction of norm zero unchanged, in
    [drsomnd_profile.py] (a flat tensor) and in [drsom.py] (a dict of
    tensors); a zeroed buffer is such a direction.  The divisor is
    never zero: on every tensor, and on every dict that is not empty,
    [normalize] returns a result without non-finite entries. *)
Theorem normalize_zero_direction (v : tensor) (d : direction) :
  tnorm v = 0 -> v_norm d = Ok 0 ->
  DRSOMF.normalize v = Some v /\ normalize d = Ok d /\
  (forall w, DRSOMF.normalize (zeros_like w) = Some (zeros_like w)) /\
  (forall w, is_Some (DRSOMF.normalize w)) /\
  (forall d', d' <> [] -> exists d'', normalize d' = Ok d'').
Proof.
  intros Hv Hd. split; [apply F_normalize_zero, Hv|].
  split; [apply B_normalize_zero, Hd|].
  split; [intros w; apply F_normalize_zero, tnorm_zeros|].
  split; [apply F_normalize_total|apply B_normalize_total].
Qed.

Lemma v_norm_zero_example : v_norm [(0%nat, [0; 0])] = Ok 0.
Proof.
  unfold v_norm. cbn [fold_left]. f_equal.
  change [0; 0] with (zeros_like [3; 4]). rewrite tnorm_zeros.
  replace (0 + 0 ^ 2) with 0 by lra. apply sqrt_0.
Qed.

Lemma normalize_zero_direction_witness :
  DRSOMF.normalize [0; 0] = Some [0; 0] /\
  normalize [(0%nat, [0; 0])] = Ok [(0%nat, [0; 0])].
Proof.
  destruct (normalize_zero_direction [0; 0] [(0%nat, [0; 0])]
              (tnorm_zeros [3; 4]) v_norm_zero_example) as (H1 & H2 & _).
  split; assumption.
Defined.

End Step.

(** ** The reduced model, the directions and the accepted step *)

Section Model.
Import DRSOMB.

(** ** Loops that accumulate into one cell *)

Lemma fold_add_shift {B} (l : list B) (f : B -> R) (x : R) :
  fold_left (fun acc b => acc + f b) l x = x + sum_over l f.
Proof.
  unfold sum_over. revert x. induction l as [|b l IH]; intros x; cbn [fold_left].
  - lra.
  - rewrite IH, (IH (0 + f b)). lra.
Qed.

Lemma sum_over_nil {B} (f : B -> R) : sum_over [] f = 0.
Proof. reflexivity. Qed.

Lemma sum_over_cons {B} (b : B) l (f : B -> R) :
  sum_over (b :: l) f = f b + sum_over l f.
Proof. unfold sum_over. cbn [fold_left]. rewrite fold_add_shift. unfold sum_over. lra. Qed.

Lemma sum_over_ext {B} (l : list B) (f g : B -> R) :
  (forall b, b ∈ l -> f b = g b) -> sum_over l f = sum_over l g.
Proof.
  induction l as [|b l IH]; intros H; [reflexivity|].
  rewrite !sum_over_cons, IH, (H b).
  - reflexivity.
  - left.
  - intros b' Hb'. apply H. right. exact Hb'.
Qed.

Lemma sum_over_nonneg {B} (l : list B) (f : B -> R) :
  (forall b, b ∈ l -> 0 <= f b) -> 0 <= sum_over l f.
Proof.
  induction l as [|b l IH]; intros H; [rewrite sum_over_nil; lra|].
  rewrite sum_over_cons.
  assert (0 <= f b) by (apply H; left).
  assert (0 <= sum_over l f) by (apply IH; intros b' Hb'; apply H; right; exact Hb').
  lra.
Qed.

Lemma sum_over_scal {B} (l : list B) (f : B -> R) (k : R) :
  sum_over l (fun b => k * f b) = k * sum_over l f.
Proof.
  induction l as [|b l IH]; [rewrite !sum_over_nil; lra|].
  rewrite !sum_over_cons, IH. lra.
Qed.

(** The innermost loop adds up into the cell [(i, j)]. *)
Lemma cell_loop {B} (l : list B) (F : B -> R) (i j : nat) (M : mat) a b :
  for_ l (fun x M => mset M i j (M i j + F x)) M a b =
  if (a =? i)%nat && (b =? j)%nat then M i j + sum_over l F else M a b.
Proof.
  unfold for_. revert M. induction l as [|x l IH]; intros M; cbn [fold_left].
  - rewrite sum_over_nil. destruct (_ && _) eqn:E; [|reflexivity].
    apply andb_true_iff in E as [Ea Eb].
    apply Nat.eqb_eq in Ea, Eb. subst. lra.
  - rewrite IH, sum_over_cons. unfold mset.
    rewrite !Nat.eqb_refl. cbn [andb].
    destruct ((a =? i)%nat && (b =? j)%nat); [lra|reflexivity].
Qed.

(** The loop over the columns [j0 .. j0 + n - 1] of row [i], for a body
    that adds [S i j] to the cell [(i, j)]. *)
Lemma row_loop (inner : nat -> nat -> mat -> mat) (S : nat -> nat -> R)
    (i j0 n : nat) (M : mat) a b :
  (forall i j M a b,
     inner i j M a b = if (a =? i)%nat && (b =? j)%nat then M i j + S i j else M a b) ->
  for_ (seq j0 n) (fun j M => inner i j M) M a b =
  if (a =? i)%nat && (j0 <=? b)%nat && (b <? j0 + n)%nat
  then M a b + S a b else M a b.
Proof.
  intros Hin. unfold for_. revert j0 M.
  induction n as [|n IH]; intros j0 M; cbn [seq fold_left].
  - replace (b <? j0 + 0)%nat with (b <? j0)%nat by (f_equal; lia).
    destruct (a =? i)%nat; cbn [andb]; [|reflexivity].
    destruct (Nat.leb_spec j0 b), (Nat.ltb_spec b j0); try lia; reflexivity.
  - rewrite IH. rewrite !Hin.
    destruct (Nat.eqb_spec a i) as [->|Hai]; cbn [andb]; [|reflexivity].
    destruct (Nat.eqb_spec b j0) as [->|Hb].
    + destruct (Nat.leb_spec (Datatypes.S j0) j0); [lia|]. cbn [andb].
      destruct (Nat.leb_spec j0 j0); [|lia].
      destruct (Nat.ltb_spec j0 (j0 + Datatypes.S n)); [|lia]. reflexivity.
    + destruct (Nat.leb_spec (Datatypes.S j0) b), (Nat.leb_spec j0 b); try lia; cbn [andb];
        destruct (Nat.ltb_spec b (Datatypes.S j0 + n)), (Nat.ltb_spec b (j0 + Datatypes.S n));
        try lia; reflexivity.
Qed.

(** The loops over the upper triangle, rows [0 .. m - 1] of a matrix of
    size [dim]. *)
Lemma triangle_loop (inner : nat -> nat -> mat -> mat) (S : nat -> nat -> R)
    (dim m : nat) (M : mat) a b :
  (forall i j M a b,
     inner i j M a b = if (a =? i)%nat && (b =? j)%nat then M i j + S i j else M a b) ->
  for_ (range 0 m) (fun i M => for_ (range i dim) (fun j M => inner i j M) M) M a b =
  if (a <? m)%nat && (a <=? b)%nat && (b <? dim)%nat
  then M a b + S a b else M a b.
Proof.
  intros Hin. revert M. induction m as [|m IH]; intros M.
  - rewrite for_range_0. reflexivity.
  - rewrite for_range_S. unfold range at 1.
    rewrite (row_loop inner S) by exact Hin. rewrite !IH.
    destruct (Nat.eqb_spec a m) as [->|Ham]; cbn [andb].
    + destruct (Nat.ltb_spec m m); [lia|]. cbn [andb].
      destruct (Nat.ltb_spec m (Datatypes.S m)); [|lia]. cbn [andb].
      destruct (Nat.leb_spec m b); cbn [andb]; [|reflexivity].
      destruct (Nat.ltb_spec b (m + (dim - m))), (Nat.ltb_spec b dim); try lia; reflexivity.
    + destruct (Nat.ltb_spec a m), (Nat.ltb_spec a (Datatypes.S m)); try lia; reflexivity.
Qed.

(** The innermost loop of [compute_Q_via_hvp], over the enumerated
    parameters. *)
Lemma cell_loop_pairs {B C} (l : list (B * C)) (F : B -> C -> R) (i j : nat) (M : mat) a b :
  for_ l (fun '(x, y) M => mset M i j (M i j + F x y)) M a b =
  if (a =? i)%nat && (b =? j)%nat
  then M i j + sum_over l (fun '(x, y) => F x y) else M a b.
Proof.
  unfold for_. revert M. induction l as [|[x y] l IH]; intros M; cbn [fold_left].
  - rewrite sum_over_nil. destruct (_ && _) eqn:E; [|reflexivity].
    apply andb_true_iff in E as [Ea Eb].
    apply Nat.eqb_eq in Ea, Eb. subst. lra.
  - rewrite IH, sum_over_cons. unfold mset.
    rewrite !Nat.eqb_refl. cbn [andb].
    destruct ((a =? i)%nat && (b =? j)%nat); [lra|reflexivity].
Qed.

Lemma vcell_loop {B} (l : list B) (F : B -> R) (i : nat) (v : vec) a :
  for_ l (fun x v => vset v i (v i + F x)) v a =
  if (a =? i)%nat then v i + sum_over l F else v a.
Proof.
  unfold for_. revert v. induction l as [|x l IH]; intros v; cbn [fold_left].
  - rewrite sum_over_nil. destruct (Nat.eqb_spec a i) as [->|]; [lra|reflexivity].
  - rewrite IH, sum_over_cons. unfold vset. rewrite !Nat.eqb_refl.
    destruct (a =? i)%nat; [lra|reflexivity].
Qed.

Lemma vector_loop {B} (l : nat -> list B) (F : nat -> B -> R) (m : nat) (v : vec) a :
  for_ (range 0 m) (fun i v => for_ (l i) (fun x v => vset v i (v i + F i x)) v) v a =
  if (a <? m)%nat then v a + sum_over (l a) (F a) else v a.
Proof.
  revert v a. induction m as [|m IH]; intros v a.
  - rewrite for_range_0. reflexivity.
  - rewrite for_range_S, vcell_loop, !IH.
    destruct (Nat.eqb_spec a m) as [->|Ham].
    + destruct (Nat.ltb_spec m m); [lia|].
      destruct (Nat.ltb_spec m (S m)); [reflexivity|lia].
    + destruct (Nat.ltb_spec a m), (Nat.ltb_spec a (S m)); try lia; reflexivity.
Qed.

(** ** Inner products of flat tensors *)

Lemma tmul_comm u v : tmul u v = tmul v u.
Proof.
  unfold tmul. revert v. induction u as [|x u IH]; intros [|y v]; cbn; try reflexivity.
  rewrite IH. f_equal. lra.
Qed.

Lemma tdot_comm u v : tdot u v = tdot v u.
Proof. unfold tdot. rewrite tmul_comm. reflexivity. Qed.

Lemma tdot_self_nonneg u : 0 <= tdot u u.
Proof.
  unfold tdot, tsum, tmul. induction u as [|x u IH]; cbn; [lra|].
  pose proof (Rle_0_sqr x) as H. unfold Rsqr in H. lra.
Qed.

Lemma tdot_scale_r k u v : tdot u (tscale k v) = k * tdot u v.
Proof.
  unfold tdot, tsum, tmul, tscale. revert v.
  induction u as [|x u IH]; intros [|y v]; cbn; try lra.
  rewrite IH. lra.
Qed.

Lemma tdot_div_r u v n : tdot u (map (fun x => x / n) v) = tdot u v / n.
Proof.
  unfold tdot, tsum, tmul. revert v.
  induction u as [|x u IH]; intros [|y v]; cbn; try (unfold Rdiv; lra).
  rewrite IH. unfold Rdiv. lra.
Qed.

(** ** The entries of [G] and [c] *)

Lemma construct_G_gram s dirs i j :
  (qpsolver s = QRegP \/ qpsolver s = TRSP) ->
  (i < length dirs)%nat -> (j < length dirs)%nat ->
  construct_G s dirs i j =
  sum_over (_params s)
    (fun p => tdot (dget (nth i dirs []) p) (dget (nth j dirs []) p)).
Proof.
  intros Hq Hi Hj. unfold construct_G. cbv zeta.
  assert (E : forall a b, (a <= b)%nat -> (b < length dirs)%nat ->
            for_ (range 0 (length dirs)) (fun i0 G0 =>
              for_ (range i0 (length dirs)) (fun j0 G1 =>
                for_ (_params s) (fun p G2 =>
                  mset G2 i0 j0
                    (G2 i0 j0 + tsum (tmul (dget (nth j0 dirs []) p)
                                          (dget (nth i0 dirs []) p)))) G1) G0) zeros2 a b
            = sum_over (_params s)
                (fun p => tdot (dget (nth a dirs []) p) (dget (nth b dirs []) p))).
  { intros a b Hab Hb.
    rewrite (triangle_loop
               (fun i0 j0 G1 => for_ (_params s) (fun p G2 =>
                  mset G2 i0 j0
                    (G2 i0 j0 + tsum (tmul (dget (nth j0 dirs []) p)
                                          (dget (nth i0 dirs []) p)))) G1)
               (fun i0 j0 => sum_over (_params s)
                  (fun p => tsum (tmul (dget (nth j0 dirs []) p)
                                       (dget (nth i0 dirs []) p)))))
      by (intros; apply cell_loop).
    destruct (Nat.ltb_spec a (length dirs)); [|lia].
    destruct (Nat.leb_spec a b); [|lia].
    destruct (Nat.ltb_spec b (length dirs)); [|lia]. cbn [andb].
    unfold zeros2. rewrite Rplus_0_l. apply sum_over_ext. intros p _.
    apply tdot_comm. }
  assert (Hk : match qpsolver s with
               | QRegP | TRSP => True | OtherQPSolver => False end).
  { destruct Hq as [-> | ->]; exact I. }
  destruct (qpsolver s); try contradiction;
    rewrite keep_symmetry_spec;
    (destruct (Nat.ltb_spec j i); cbn [andb];
     [destruct (Nat.ltb_spec i (length dirs)); [|lia];
      rewrite E by lia; apply sum_over_ext; intros p _; apply tdot_comm
     |apply E; lia]).
Qed.

Lemma construct_c_entries s dirs i :
  (i < length dirs)%nat ->
  construct_c s dirs i =
  sum_over (_params s) (fun p => tdot (grads s p) (dget (nth i dirs []) p)).
Proof.
  intros Hi. unfold construct_c. cbv zeta.
  rewrite (vector_loop (fun _ => _params s)
             (fun i0 p => tsum (tmul (grads s p) (dget (nth i0 dirs []) p)))).
  destruct (Nat.ltb_spec i (length dirs)); [|lia].
  unfold zeros1. rewrite Rplus_0_l. reflexivity.
Qed.

Lemma sum_over_nonpos {B} (l : list B) (f : B -> R) :
  (forall b, b ∈ l -> f b <= 0) -> sum_over l f <= 0.
Proof.
  induction l as [|b l IH]; intros H; [rewrite sum_over_nil; lra|].
  rewrite sum_over_cons.
  assert (f b <= 0) by (apply H; left).
  assert (sum_over l f <= 0) by (apply IH; intros b' Hb'; apply H; right; exact Hb').
  lra.
Qed.

Lemma dget_map (f : loc -> tensor) (ps : list loc) p :
  p ∈ ps -> dget (map (fun q => (q, f q)) ps) p = f p.
Proof.
  induction ps as [|q ps IH]; intros Hp; [inversion Hp|].
  cbn [map dget]. destruct (decide (q = p)) as [->|Hne]; [reflexivity|].
  apply IH. apply elem_of_cons in Hp as [->|Hp]; [contradiction|exact Hp].
Qed.

Lemma dget_map_values (g : tensor -> tensor) (d : direction) p :
  g [] = [] ->
  dget (map (fun '(q, v) => (q, g v)) d) p = g (dget d p).
Proof.
  intros Hg. induction d as [|[q v] d IH]; cbn [map dget]; [symmetry; exact Hg|].
  destruct (decide (q = p)); [reflexivity|exact IH].
Qed.

Lemma v_norm_nonneg d n : v_norm d = Ok n -> 0 <= n.
Proof.
  unfold v_norm. destruct d; [discriminate|]. intros [= <-]. apply sqrt_pos.
Qed.

Lemma normalize_form d d' :
  normalize d = Ok d' ->
  exists n, 0 < n /\ d' = map (fun '(p, v) => (p, map (fun x => x / n) v)) d /\
    (v_norm d = Ok 0 /\ n = 1 \/ v_norm d = Ok n).
Proof.
  unfold normalize. intros H.
  apply bind_inv in H as (n0 & Hn & H). cbv zeta in H.
  pose proof (v_norm_nonneg d n0 Hn) as Hpos.
  destruct (decide (n0 = 0)) as [->|Hnz].
  - rewrite (forM_normalize 1) in H by lra. cbn [app] in H. injection H as <-.
    exists 1. split; [lra|]. split; [reflexivity|]. left. auto.
  - rewrite (forM_normalize n0) in H by assumption. cbn [app] in H. injection H as <-.
    exists n0. split; [lra|]. split; [reflexivity|]. right. exact Hn.
Qed.

(** X1: for directions over the parameters, the metric that
    [update_trust_region] constructs is the Gram matrix of the
    directions under the solvers [QRegP] and [TRSP],
    [G[i, j] = sum_p <directions[i][p], directions[j][p]>], and the
    identity under any other solver; its diagonal is non-negative. *)
Theorem construct_G_is_gram s dirs i j :
  Forall (shaped s) dirs ->
  (i < length dirs)%nat -> (j < length dirs)%nat ->
  match qpsolver s with
  | QRegP | TRSP =>
      construct_G s dirs i j =
      sum_over (_params s)
        (fun p => tdot (dget (nth i dirs []) p) (dget (nth j dirs []) p))
  | OtherQPSolver =>
      construct_G s dirs i j = if (i =? j)%nat then 1 else 0
  end /\
  0 <= construct_G s dirs i i.
Proof.
  intros _ Hi Hj.
  assert (Hd : 0 <= sum_over (_params s)
                   (fun p => tdot (dget (nth i dirs []) p) (dget (nth i dirs []) p))).
  { apply sum_over_nonneg. intros p _. apply tdot_self_nonneg. }
  destruct (qpsolver s) eqn:Hq.
  - rewrite !construct_G_gram by auto. split; [reflexivity|exact Hd].
  - rewrite !construct_G_gram by auto. split; [reflexivity|exact Hd].
  - unfold construct_G. cbv zeta. rewrite Hq, !eye_loop_spec.
    destruct (Nat.ltb_spec i (length dirs)); [|lia].
    rewrite Nat.eqb_refl, !andb_true_r. split; [reflexivity|]. cbn. lra.
Qed.

(** X2: the linear term that [update_trust_region] constructs is
    [c[i] = sum_p <p.grad, directions[i][p]>]; along the first direction
    of [step], the negative gradient (normalized or not), it is
    non-positive. *)
Theorem construct_c_descent s b d0 ds :
  gather_normalized_grad s b (-1) = Ok d0 ->
  Forall (shaped s) ds ->
  (forall i, (i < length (d0 :: ds))%nat ->
     construct_c s (d0 :: ds) i =
     sum_over (_params s) (fun p => tdot (grads s p) (dget (nth i (d0 :: ds) []) p))) /\
  construct_c s (d0 :: ds) 0%nat <= 0.
Proof.
  intros Hg _. split; [intros i Hi; apply construct_c_entries; exact Hi|].
  rewrite construct_c_entries by (cbn; lia). cbn [nth].
  apply sum_over_nonpos. intros p Hp.
  unfold gather_normalized_grad in Hg. cbv zeta in Hg.
  assert (Hsq : -1 * tdot (grads s p) (grads s p) <= 0).
  { pose proof (tdot_self_nonneg (grads s p)). lra. }
  destruct b.
  - apply normalize_form in Hg as (n & Hn & -> & _).
    rewrite (dget_map_values (map (fun x => x / n))) by reflexivity.
    rewrite (dget_map (fun q => tscale (-1) (grads s q))) by exact Hp.
    rewrite tdot_div_r, tdot_scale_r.
    apply Rmult_le_reg_r with n; [exact Hn|]. unfold Rdiv.
    rewrite Rmult_assoc, Rinv_l by lra. lra.
  - injection Hg as <-.
    rewrite (dget_map (fun q => tscale (-1) (grads s q))) by exact Hp.
    rewrite tdot_scale_r. exact Hsq.
Qed.

Lemma forM_app {A B} (l1 l2 : list B) (f : B -> A -> result A) a :
  forM (l1 ++ l2) f a = (forM l1 f a ≫= forM l2 f).
Proof.
  revert a. induction l1 as [|b l1 IH]; intros a; cbn [app forM].
  - reflexivity.
  - destruct (f b a) as [a'|e]; [rewrite !bind_Ok; apply IH|reflexivity].
Qed.

Lemma fill_Hv_style cl s dirs style i Hvl :
  style <> 0%nat ->
  fill_Hv cl s dirs style i Hvl =
  Raise (ValueError (if decide (style = 1%nat)
                     then "the finite diff option is unused,"
                     else "not implemented,")).
Proof.
  intros Hs. unfold fill_Hv.
  destruct (decide (style = 0%nat)); [contradiction|].
  destruct (decide (style = 1%nat)); reflexivity.
Qed.

Lemma fill_Hv_at cl s dirs i Hvl :
  fill_Hv cl s dirs 0 i Hvl =
  if decide (i < length Hvl)%nat
  then Ok (<[i := hv cl s (nth i dirs [])]> Hvl) else Raise IndexError.
Proof. reflexivity. Qed.

Lemma fill_Hv_ok cl s dirs m Hv0 :
  (m <= length Hv0)%nat -> (m <= length dirs)%nat ->
  forM (range 0 m) (fill_Hv cl s dirs 0) Hv0 =
  Ok (map (hv cl s) (take m dirs) ++ drop m Hv0).
Proof.
  induction m as [|m IH]; intros H1 H2.
  - cbn. rewrite drop_0. reflexivity.
  - rewrite range_0_S, forM_app, IH by lia. rewrite bind_Ok. cbn [forM].
    rewrite fill_Hv_at.
    rewrite decide_True.
    2:{ rewrite length_app, length_map, length_take, length_drop. lia. }
    rewrite bind_Ok. f_equal.
    rewrite (take_S_r dirs m (nth m dirs [])).
    2:{ rewrite nth_lookup. destruct (dirs !! m) eqn:E; [reflexivity|].
        apply lookup_ge_None in E. lia. }
    rewrite map_app. cbn [map].
    assert (Hl : length (map (hv cl s) (take m dirs)) = m).
    { rewrite length_map, length_take. lia. }
    replace m with (length (map (hv cl s) (take m dirs)) + 0)%nat at 1 by lia.
    rewrite insert_app_r.
    destruct (drop m Hv0) as [|x rest] eqn:E.
    { apply (f_equal length) in E. rewrite length_drop in E. cbn in E. lia. }
    cbn [insert list_insert]. rewrite <- app_assoc. cbn [app]. do 2 f_equal.
    rewrite (drop_S Hv0 x m) in *.
    + congruence.
    + rewrite <- (Nat.add_0_r m). rewrite <- lookup_drop, E. reflexivity.
Qed.

Lemma nth_map_lt {A B} (f : A -> B) (l : list A) (i : nat) (d : A) (d' : B) :
  (i < length l)%nat -> nth i (map f l) d' = f (nth i l d).
Proof.
  intros Hi. rewrite !nth_lookup, list_lookup_fmap.
  destruct (l !! i) eqn:E; [reflexivity|]. apply lookup_ge_None in E. lia.
Qed.

Lemma fill_Hv_raises cl s dirs style m Hv0 :
  style <> 0%nat -> (0 < m)%nat ->
  forM (range 0 m) (fill_Hv cl s dirs style) Hv0 =
  Raise (ValueError (if decide (style = 1%nat)
                     then "the finite diff option is unused,"
                     else "not implemented,")).
Proof.
  intros Hs Hm. destruct m as [|m]; [lia|].
  unfold range. cbn [Nat.sub seq forM].
  rewrite fill_Hv_style by exact Hs. reflexivity.
Qed.

Lemma fill_Hv_short cl s dirs m Hv0 :
  (length Hv0 < m)%nat -> (m <= length dirs)%nat ->
  forM (range 0 m) (fill_Hv cl s dirs 0) Hv0 = Raise IndexError.
Proof.
  intros Hlt Hm.
  replace m with (length Hv0 + S (m - S (length Hv0)))%nat by lia.
  unfold range. rewrite Nat.sub_0_r, seq_app, forM_app.
  pose proof (fill_Hv_ok cl s dirs (length Hv0) Hv0 (le_n _)) as H.
  unfold range in H. rewrite Nat.sub_0_r in H. rewrite H by lia.
  rewrite bind_Ok. cbn [seq forM Nat.add]. rewrite fill_Hv_at.
  rewrite decide_False; [reflexivity|].
  rewrite length_app, length_map, length_take, length_drop. lia.
Qed.

Lemma compute_Q_via_hvp_sums cl s dirs :
  (forall l, Hv s = Some l -> (length dirs <= length l)%nat) ->
  exists s' Q rest,
    compute_Q_via_hvp cl s dirs 0 = Ok (s', Q) /\
    s' = set_Hv s (Some (map (hv cl s) dirs ++ rest)) /\
    forall i j, (i <= j)%nat -> (j < length dirs)%nat ->
      Q i j = sum_over (imap (fun idx p => (idx, p)) (_params s))
                (fun '(idx, p) =>
                   tdot (dget (nth i dirs []) p)
                        (nth idx (hv cl s (nth j dirs [])) [])) /\
      Q j i = Q i j.
Proof.
  intros HHv.
  set (Hv0 := match Hv s with None => replicate (length dirs) [] | Some l => l end).
  assert (Hlen : (length dirs <= length Hv0)%nat).
  { unfold Hv0. destruct (Hv s) as [l|]; [apply HHv; reflexivity|].
    rewrite length_replicate. lia. }
  pose proof (fill_Hv_ok cl s dirs (length dirs) Hv0 Hlen (le_n _)) as Hfill.
  rewrite firstn_all in Hfill.
  do 2 eexists. exists (drop (length dirs) Hv0).
  split; [|split].
  - unfold compute_Q_via_hvp. cbv zeta. fold Hv0.
    change (forM (range 0 (length dirs)) _ Hv0)
      with (forM (range 0 (length dirs)) (fill_Hv cl s dirs 0) Hv0).
    rewrite Hfill, bind_Ok. reflexivity.
  - reflexivity.
  - intros i j Hij Hj.
    assert (E : forall a b, (a <= b)%nat -> (b < length dirs)%nat ->
      for_ (range 0 (length dirs)) (fun i0 Q0 =>
        for_ (range i0 (length dirs)) (fun j0 Q1 =>
          for_ (imap (fun idx p => (idx, p))
                  (_params (set_Hv s (Some (map (hv cl s) dirs ++ drop (length dirs) Hv0)))))
            (fun '(idx, p) Q2 =>
               mset Q2 i0 j0
                 (Q2 i0 j0 +
                  tsum (tmul (dget (nth i0 dirs []) p)
                          (nth idx (nth j0 (map (hv cl s) dirs ++ drop (length dirs) Hv0) []) []))))
            Q1) Q0) zeros2 a b
      = sum_over (imap (fun idx p => (idx, p)) (_params s))
          (fun '(idx, p) =>
             tdot (dget (nth a dirs []) p) (nth idx (hv cl s (nth b dirs [])) []))).
    { intros a b Hab Hb.
      rewrite (triangle_loop
                 (fun i0 j0 Q1 =>
                    for_ (imap (fun idx p => (idx, p)) (_params s))
                      (fun '(idx, p) Q2 =>
                         mset Q2 i0 j0
                           (Q2 i0 j0 +
                            tsum (tmul (dget (nth i0 dirs []) p)
                                    (nth idx (nth j0 (map (hv cl s) dirs ++ drop (length dirs) Hv0) []) []))))
                      Q1)
                 (fun i0 j0 =>
                    sum_over (imap (fun idx p => (idx, p)) (_params s))
                      (fun '(idx, p) =>
                         tsum (tmul (dget (nth i0 dirs []) p)
                                 (nth idx (nth j0 (map (hv cl s) dirs ++ drop (length dirs) Hv0) []) [])))))
        by (intros; apply (cell_loop_pairs _ (fun idx p => tsum (tmul _ _)))).
      destruct (Nat.ltb_spec a (length dirs)); [|lia].
      destruct (Nat.leb_spec a b); [|lia].
      destruct (Nat.ltb_spec b (length dirs)); [|lia]. cbn [andb].
      unfold zeros2. rewrite Rplus_0_l.
      rewrite app_nth1 by (rewrite length_map; exact Hb).
      rewrite (nth_map_lt (hv cl s) dirs b []) by exact Hb. reflexivity. }
    rewrite !keep_symmetry_spec.
    destruct (Nat.ltb_spec j i); [lia|]. cbn [andb].
    destruct (Nat.ltb_spec i j); cbn [andb].
    + destruct (Nat.ltb_spec j (length dirs)); [|lia]. split; [apply E; lia|reflexivity].
    + split; [apply E; lia|]. replace j with i by lia. reflexivity.
Qed.


Lemma compute_Q_via_hvp_fill cl s dirs style :
  compute_Q_via_hvp cl s dirs style =
  (Hv1 ← forM (range 0 (length dirs)) (fill_Hv cl s dirs style)
           (match Hv s with None => replicate (length dirs) [] | Some l => l end);
   Ok (set_Hv s (Some Hv1),
       keep_symmetry (length dirs)
         (for_ (range 0 (length dirs)) (fun i Q =>
            for_ (range i (length dirs)) (fun j Q =>
              for_ (imap (fun idx p => (idx, p)) (_params (set_Hv s (Some Hv1))))
                (fun '(idx, p) Q =>
                   mset Q i j
                     (Q i j + tsum (tmul (dget (nth i dirs []) p)
                                         (nth idx (nth j Hv1 []) []))))
                Q) Q) zeros2))).
Proof. reflexivity. Qed.

(** X4: [update_trust_region] raises [ZeroDivisionError] when
    [qp_freq] is zero and changes nothing on an iteration that is not a
    multiple of [qp_freq]; on a multiple it raises [ValueError] in the
    mode [FiniteDiff] (at least one direction) and in a mode that is
    none of the three handled ones, and [IndexError] in the mode
    [AutomaticDiff] when [self.Hv] is shorter than the list of
    directions. *)
Theorem update_trust_region_errors U cl s p_copy dirs fx :
  Forall (shaped s) dirs ->
  (qp_freq (decayrule s) = 0%nat ->
   update_trust_region U cl s p_copy dirs fx = Raise ZeroDivisionError) /\
  (qp_freq (decayrule s) <> 0%nat ->
   (iter s mod qp_freq (decayrule s) <> 0)%nat ->
   update_trust_region U cl s p_copy dirs fx = Ok s) /\
  (qp_freq (decayrule s) <> 0%nat ->
   (iter s mod qp_freq (decayrule s) = 0)%nat ->
   (qpmode s = FiniteDiff -> dirs <> [] ->
    update_trust_region U cl s p_copy dirs fx =
    Raise (ValueError "the finite diff option is unused,")) /\
   (qpmode s = OtherModeQP ->
    update_trust_region U cl s p_copy dirs fx =
    Raise (ValueError "not handled yet")) /\
   (qpmode s = AutomaticDiff ->
    forall l, Hv s = Some l -> (length l < length dirs)%nat ->
    update_trust_region U cl s p_copy dirs fx = Raise IndexError)).
Proof.
  intros _. split; [|split].
  - intros H0. unfold update_trust_region. cbv zeta.
    rewrite decide_True by exact H0. reflexivity.
  - intros H0 Hm. unfold update_trust_region. cbv zeta.
    rewrite decide_False by exact H0.
    destruct (Nat.eqb_spec (iter s mod qp_freq (decayrule s)) 0); [contradiction|].
    reflexivity.
  - intros H0 Hm. unfold update_trust_region. cbv zeta.
    rewrite decide_False by exact H0. rewrite Hm. cbn [Nat.eqb negb].
    split; [|split].
    + intros -> Hd. rewrite compute_Q_via_hvp_fill.
      rewrite fill_Hv_raises; [reflexivity|lia|].
      destruct dirs; [contradiction|cbn; lia].
    + intros ->. reflexivity.
    + intros -> l Hl Hlt. rewrite compute_Q_via_hvp_fill, Hl.
      rewrite fill_Hv_short by lia. reflexivity.
Qed.

(** X5: on an iteration that is a multiple of [qp_freq], in the mode
    [AutomaticDiff], [update_trust_region] returns with the reduced model
    rebuilt: [Q] from [compute_Q_via_hvp], [c] and [G] as constructed
    from the directions, their size the number of directions, and the
    running average [ghg = (Q[0, 0] + ghg * iter) / (iter + 1)]; the
    parameters, the momentum buffers, [iter], [gamma] and [radius] are
    unchanged. *)
Theorem update_trust_region_automatic U cl s p_copy dirs fx :
  dirs <> [] -> Forall (shaped s) dirs ->
  (forall d, d ∈ dirs -> length (hv cl s d) = length (_params s)) ->
  qpmode s = AutomaticDiff ->
  qp_freq (decayrule s) <> 0%nat ->
  (iter s mod qp_freq (decayrule s) = 0)%nat ->
  (forall l, Hv s = Some l -> (length dirs <= length l)%nat) ->
  exists s' s1 Q1,
    update_trust_region U cl s p_copy dirs fx = Ok s' /\
    compute_Q_via_hvp cl s dirs 0 = Ok (s1, Q1) /\
    Q s' = Q1 /\
    c s' = construct_c s dirs /\
    G s' = construct_G s dirs /\
    dim s' = length dirs /\
    Hv s' = Hv s1 /\
    ghg s' = (Q1 0%nat 0%nat + ghg s * INR (iter s)) / (INR (iter s) + 1) /\
    heap s' = heap s /\ state s' = state s /\ iter s' = iter s /\
    gamma s' = gamma s /\ radius s' = radius s.
Proof.
  intros _ _ _ Hmode H0 Hm HHv.
  destruct (compute_Q_via_hvp_sums cl s dirs HHv) as (s1 & Q1 & rest & HQ & Hs1 & _).
  eexists. exists s1, Q1. split; [|split; [exact HQ|]].
  - unfold update_trust_region. cbv zeta.
    rewrite decide_False by exact H0. rewrite Hm. cbn [Nat.eqb negb].
    rewrite Hmode, HQ, !bind_Ok. reflexivity.
  - subst s1. cbn. repeat split; reflexivity.
Qed.

(** ** The monomial basis of the interpolation *)

Lemma length_flat_map_rows {A} (g : nat -> nat -> A) (n a k : nat) :
  (a + k <= n)%nat ->
  (2 * length (flat_map (fun i => map (g i) (range i n)) (seq a k)) + k * (2 * a + k)
   = k * (2 * n + 1))%nat.
Proof.
  revert a. induction k as [|k IH]; intros a H; cbn [seq flat_map].
  - reflexivity.
  - rewrite length_app, length_map. unfold range at 1. rewrite length_seq.
    assert (Ha : (S a + k <= n)%nat) by lia. specialize (IH (S a) Ha).
    set (len := length _) in *. clearbody len.
    assert (Hn : exists d, n = (S a + k + d)%nat) by (exists (n - (S a + k))%nat; lia).
    destruct Hn as [d ->].
    replace (S a + k + d - a)%nat with (S (k + d)) by lia.
    clear Ha H. nia.
Qed.

Lemma build_natural_basis_length v :
  (2 * length (build_natural_basis v) = length v * (length v + 1))%nat.
Proof.
  unfold build_natural_basis. cbv zeta. unfold range at 2.
  rewrite Nat.sub_0_r.
  pose proof (length_flat_map_rows
             (fun i j => if decide (i = j) then nth i v 0 * nth j v 0 / 2
                         else nth i v 0 * nth j v 0) (length v) 0 (length v)
             (le_n _)) as H.
  set (len := length (flat_map _ _)) in *. clearbody len.
  set (n := length v) in *. clearbody n. nia.
Qed.

(** The first [length v] entries are the row of index [0]. *)
Lemma build_natural_basis_row0 v j :
  (j < length v)%nat ->
  nth j (build_natural_basis v) 0 =
  if decide (0%nat = j) then nth 0 v 0 * nth j v 0 / 2 else nth 0 v 0 * nth j v 0.
Proof.
  intros Hj. unfold build_natural_basis. cbv zeta.
  destruct v as [|x v]; [cbn in Hj; lia|]. cbn [length] in Hj.
  unfold range at 2. cbn [length Nat.sub seq flat_map].
  rewrite app_nth1 by (rewrite length_map; unfold range; rewrite length_seq; cbn; lia).
  rewrite (nth_map_lt _ _ j 0%nat) by (unfold range; rewrite length_seq; cbn; lia).
  unfold range. rewrite seq_nth by (cbn; lia). reflexivity.
Qed.

(** X6: [build_natural_basis(v)] has [n (n + 1) / 2] entries for
    [n = len(v)], row by row of the upper triangle.  The index
    [j (j + 1) / 2 + i] at which [compute_Q_via_interpolation] reads
    [Q[i, j]] is the place of [v[i] * v[j]] for [i = 0], [j <= 1], and
    for [i = j = 1] when [n = 2]; for [n >= 3] the place
    [1 * (1 + 1) / 2 + 1] holds [v[0] * v[2]], not [v[1] * v[1] / 2]. *)
Theorem natural_basis_layout (v : list R) :
  (2 * length (build_natural_basis v) = length v * (length v + 1))%nat /\
  (forall j, (j < length v)%nat -> (j <= 1)%nat ->
     nth (j * (j + 1) / 2 + 0) (build_natural_basis v) 0 =
     if decide (0%nat = j) then nth 0 v 0 * nth j v 0 / 2 else nth 0 v 0 * nth j v 0) /\
  (length v = 2%nat ->
     nth (1 * (1 + 1) / 2 + 1) (build_natural_basis v) 0 = nth 1 v 0 * nth 1 v 0 / 2) /\
  ((3 <= length v)%nat ->
     nth (1 * (1 + 1) / 2 + 1) (build_natural_basis v) 0 = nth 0 v 0 * nth 2 v 0).
Proof.
  split; [apply build_natural_basis_length|]. split; [|split].
  - intros j Hj Hj1.
    assert (E : (j * (j + 1) / 2 + 0 = j)%nat).
    { destruct j as [|[|j]]; [reflexivity|reflexivity|lia]. }
    rewrite E. apply build_natural_basis_row0. exact Hj.
  - intros Hl. destruct v as [|a [|b [|]]]; try discriminate. reflexivity.
  - intros Hl. change (1 * (1 + 1) / 2 + 1)%nat with 2%nat.
    rewrite build_natural_basis_row0 by lia. reflexivity.
Qed.

Lemma natural_basis_layout_witness :
  nth (1 * (1 + 1) / 2 + 1) (build_natural_basis [1; 2; 3]) 0 = 1 * 3.
Proof.
  apply (proj2 (proj2 (proj2 (natural_basis_layout [1; 2; 3])))). cbn. lia.
Defined.

(** ** The sample points of the interpolation *)

Lemma coordinates_length dim k x : length (coordinates dim k x) = dim.
Proof. unfold coordinates. rewrite length_insert, length_replicate. reflexivity. Qed.

Lemma length_flat_map_const {A B} (f : A -> list B) (l : list A) (k : nat) :
  (forall a, a ∈ l -> length (f a) = k) ->
  length (flat_map f l) = (length l * k)%nat.
Proof.
  induction l as [|a l IH]; intros H; cbn [flat_map length]; [reflexivity|].
  rewrite length_app, IH, (H a).
  - lia.
  - left.
  - intros b Hb. apply H. right. exact Hb.
Qed.

Lemma fold_zip_length (l : list (list R)) (acc : list R) (n : nat) :
  length acc = n -> (forall v, v ∈ l -> length v = n) ->
  length (fold_left (zip_with Rplus) l acc) = n.
Proof.
  revert acc. induction l as [|v l IH]; intros acc Ha Hl; cbn [fold_left]; [exact Ha|].
  apply IH.
  - rewrite length_zip_with, Ha, (Hl v) by left. lia.
  - intros w Hw. apply Hl. right. exact Hw.
Qed.

(** X7: the sample of [compute_Q_via_interpolation] has
    [dim * k_diag] points, and [k_diag] more when [dim > 1]; each has
    [dim] coordinates.  With [k_diag = 2] (the default [multiples = 1])
    the number of points equals the number of basis entries, the case
    [m == n] of the solve, exactly when [dim = 4]. *)
Theorem sampling_shape (dim k_diag : nat) (delta : R) :
  length (sampling dim k_diag delta)
    = (dim * k_diag + (if decide (1 < dim)%nat then k_diag else 0))%nat /\
  (forall v, v ∈ sampling dim k_diag delta -> length v = dim) /\
  ((1 <= dim)%nat ->
   (length (sampling dim 2 delta)
      = length (build_natural_basis (nth 0 (sampling dim 2 delta) [])) <-> dim = 4%nat)).
Proof.
  assert (Hlen : length (sampling dim k_diag delta)
    = (dim * k_diag + (if decide (1 < dim)%nat then k_diag else 0))%nat).
  { unfold sampling. cbv zeta. rewrite length_app.
    rewrite (length_flat_map_const _ _ k_diag).
    2:{ intros j _. rewrite length_map. unfold range. rewrite length_seq. lia. }
    unfold range at 1. rewrite length_seq, Nat.sub_0_r.
    destruct (decide (1 < dim)%nat); [|reflexivity].
    rewrite length_map. unfold range. rewrite length_seq. lia. }
  assert (Hall : forall k v, v ∈ sampling dim k delta -> length v = dim).
  { intros k v Hv. unfold sampling in Hv. cbv zeta in Hv.
    apply elem_of_app in Hv as [Hv|Hv].
    - apply list_elem_of_In, in_flat_map in Hv as (j & _ & Hv).
      apply in_map_iff in Hv as (s & <- & _). apply coordinates_length.
    - destruct (decide (1 < dim)%nat); [|inversion Hv].
      apply list_elem_of_In, in_map_iff in Hv as (s & <- & _).
      rewrite length_map. apply fold_zip_length; [apply length_replicate|].
      intros w Hw. apply list_elem_of_In, in_map_iff in Hw as (j & <- & _).
      apply coordinates_length. }
  split; [exact Hlen|]. split; [apply Hall|].
  intros Hd.
  assert (H0 : length (nth 0 (sampling dim 2 delta) []) = dim).
  { apply (Hall 2%nat). apply list_elem_of_In, nth_In.
    assert (Hl2 : length (sampling dim 2 delta)
                  = (dim * 2 + (if decide (1 < dim)%nat then 2 else 0))%nat).
    { unfold sampling. cbv zeta. rewrite length_app.
      rewrite (length_flat_map_const _ _ 2).
      2:{ intros j _. rewrite length_map. reflexivity. }
      unfold range at 1. rewrite length_seq, Nat.sub_0_r.
      destruct (decide (1 < dim)%nat); [|reflexivity].
      rewrite length_map. reflexivity. }
    rewrite Hl2. lia. }
  pose proof (build_natural_basis_length (nth 0 (sampling dim 2 delta) [])) as Hb.
  rewrite H0 in Hb.
  assert (Hl2 : length (sampling dim 2 delta)
                = (dim * 2 + (if decide (1 < dim)%nat then 2 else 0))%nat).
  { unfold sampling. cbv zeta. rewrite length_app.
    rewrite (length_flat_map_const _ _ 2).
    2:{ intros j _. rewrite length_map. reflexivity. }
    unfold range at 1. rewrite length_seq, Nat.sub_0_r.
    destruct (decide (1 < dim)%nat); [|reflexivity].
    rewrite length_map. reflexivity. }
  rewrite Hl2.
  set (nb := length (build_natural_basis _)) in *. clearbody nb.
  destruct (decide (1 < dim)%nat); split; intros H; try nia.
Qed.

(** ** Normalized directions *)

Lemma tnorm_sq v : tnorm v ^ 2 = tdot v v.
Proof.
  unfold tnorm. fold (tdot v v). cbn [pow]. rewrite Rmult_1_r.
  apply sqrt_sqrt. apply tdot_self_nonneg.
Qed.

Lemma tdot_div_l u v n : tdot (map (fun x => x / n) u) v = tdot u v / n.
Proof. rewrite tdot_comm, tdot_div_r, tdot_comm. reflexivity. Qed.

Lemma sq_norm_fold (d : direction) x :
  fold_left (fun acc '(p, v) => acc + tnorm v ^ 2) d x =
  x + sum_over d (fun pv => tdot (snd pv) (snd pv)).
Proof.
  revert x. induction d as [|[p v] d IH]; intros x; cbn [fold_left].
  - rewrite sum_over_nil. lra.
  - rewrite IH, sum_over_cons, tnorm_sq. cbn [snd]. lra.
Qed.

Lemma v_norm_cons x (d : direction) :
  v_norm (x :: d) = Ok (sqrt (sum_over (x :: d) (fun pv => tdot (snd pv) (snd pv)))).
Proof.
  unfold v_norm. f_equal. f_equal.
  change (fold_left (fun acc '(p, v) => acc + tnorm v ^ 2) (x :: d) 0 =
          sum_over (x :: d) (fun pv => tdot (snd pv) (snd pv))).
  rewrite (sq_norm_fold (x :: d) 0). apply Rplus_0_l.
Qed.

Lemma v_norm_eq (d : direction) n :
  v_norm d = Ok n ->
  d <> [] /\ n = sqrt (sum_over d (fun pv => tdot (snd pv) (snd pv))).
Proof.
  destruct d as [|x d]; [discriminate|]. rewrite v_norm_cons.
  intros [= <-]. split; [discriminate|reflexivity].
Qed.

Lemma sum_sq_scaled (d : direction) n :
  sum_over (map (fun '(p, v) => (p, map (fun x => x / n) v)) d)
    (fun pv => tdot (snd pv) (snd pv)) =
  sum_over d (fun pv => tdot (snd pv) (snd pv)) / n / n.
Proof.
  induction d as [|[p v] d IH]; cbn [map].
  - rewrite !sum_over_nil. unfold Rdiv. lra.
  - rewrite !sum_over_cons, IH. cbn [snd]. rewrite tdot_div_l, tdot_div_r.
    unfold Rdiv. lra.
Qed.

Lemma keys_scaled (d : direction) n :
  (map (fun '(p, v) => (p, map (fun x => x / n) v)) d).*1 = d.*1.
Proof. induction d as [|[p v] d IH]; cbn; [reflexivity|]. rewrite IH. reflexivity. Qed.

(** X8: [normalize] of a direction of non-zero norm [n] returns the
    direction over the same parameters with every tensor divided by
    [n]; the result has norm one and [normalize] leaves it as it is. *)
Theorem normalize_unit_norm (d : direction) (n : R) :
  v_norm d = Ok n -> n <> 0 ->
  exists d',
    normalize d = Ok d' /\
    d' = map (fun '(p, v) => (p, map (fun x => x / n) v)) d /\
    d'.*1 = d.*1 /\
    v_norm d' = Ok 1 /\
    normalize d' = Ok d'.
Proof.
  intros Hn Hnz.
  pose proof (v_norm_nonneg d n Hn) as Hpos.
  destruct (v_norm_eq d n Hn) as [Hd Hs].
  set (S := sum_over d (fun pv => tdot (snd pv) (snd pv))) in *.
  assert (HS : n * n = S).
  { rewrite Hs. apply sqrt_sqrt.
    unfold S. apply sum_over_nonneg. intros pv _. apply tdot_self_nonneg. }
  eexists. split; [|split; [reflexivity|]].
  - unfold normalize. rewrite Hn, bind_Ok. cbv zeta.
    rewrite decide_False by exact Hnz.
    rewrite (forM_normalize n) by exact Hnz. reflexivity.
  - split; [apply keys_scaled|].
    assert (Hv1 : v_norm (map (fun '(p, v) => (p, map (fun x => x / n) v)) d) = Ok 1).
    { destruct d as [|[p v] d]; [contradiction|].
      change (map (fun '(p0, v0) => (p0, map (fun x => x / n) v0)) ((p, v) :: d))
        with ((p, map (fun x => x / n) v)
              :: map (fun '(p0, v0) => (p0, map (fun x => x / n) v0)) d).
      rewrite v_norm_cons.
      change ((p, map (fun x => x / n) v)
              :: map (fun '(p0, v0) => (p0, map (fun x => x / n) v0)) d)
        with (map (fun '(p0, v0) => (p0, map (fun x => x / n) v0)) ((p, v) :: d)).
      rewrite sum_sq_scaled. fold S. rewrite <- HS. f_equal.
      replace (n * n / n / n) with 1 by (field; exact Hnz). apply sqrt_1. }
    split; [exact Hv1|].
    unfold normalize. rewrite Hv1, bind_Ok. cbv zeta.
    rewrite decide_False by lra.
    rewrite (forM_normalize 1) by lra. cbn [app]. f_equal.
    clear. induction d as [|[p v] d IH]; cbn [map]; [reflexivity|].
    rewrite IH, map_div_1. reflexivity.
Qed.

(** X9: [normalize] of [drsomnd_profile.py] on a flat tensor of
    non-zero norm returns the tensor divided by its norm; the result has
    norm one and [normalize] leaves it as it is. *)
Theorem F_normalize_unit_norm (v : tensor) :
  tnorm v <> 0 ->
  DRSOMF.normalize v = Some (map (fun x => x / tnorm v) v) /\
  tnorm (map (fun x => x / tnorm v) v) = 1 /\
  DRSOMF.normalize (map (fun x => x / tnorm v) v) = Some (map (fun x => x / tnorm v) v).
Proof.
  intros Hnz.
  assert (H1 : tnorm (map (fun x => x / tnorm v) v) = 1).
  { unfold tnorm at 1. fold (tdot (map (fun x => x / tnorm v) v) (map (fun x => x / tnorm v) v)).
    rewrite tdot_div_l, tdot_div_r, <- tnorm_sq. cbn [pow].
    replace (tnorm v * (tnorm v * 1) / tnorm v / tnorm v) with 1 by (field; exact Hnz).
    apply sqrt_1. }
  split; [|split; [exact H1|]].
  - unfold DRSOMF.normalize. cbv zeta. rewrite decide_False by exact Hnz.
    apply tdiv_nonzero. exact Hnz.
  - unfold DRSOMF.normalize. cbv zeta. rewrite H1.
    rewrite decide_False by lra. rewrite tdiv_1. reflexivity.
Qed.

(** ** What [step] leaves alone *)

Lemma update_by_rho_setup s rho :
  setup (update_by_rho s rho) = setup s /\
  heap (update_by_rho s rho) = heap s /\
  state (update_by_rho s rho) = state s.
Proof.
  unfold update_by_rho. destruct (xle _ _); [cbn; auto|].
  destruct (xge _ _); cbn; auto.
Qed.

Lemma forM_invariant {A B} (P : A -> Prop) (l : list B) (f : B -> A -> result A) a a' :
  (forall b x y, P x -> f b x = Ok y -> P y) ->
  P a -> forM l f a = Ok a' -> P a'.
Proof.
  intros Hf. revert a. induction l as [|b l IH]; intros a Ha; cbn [forM].
  - intros [= <-]. exact Ha.
  - intros H. apply bind_inv in H as (y & Hy & H). eapply IH; [|exact H].
    eapply Hf; eassumption.
Qed.

Lemma save_momentum_setup U s d key s' :
  _save_momentum U s d key = Ok s' ->
  setup s' = setup s /\ heap s' = heap s /\ gamma s' = gamma s.
Proof.
  unfold _save_momentum. intros H.
  apply bind_inv in H as (st & _ & H). injection H as <-. cbn. auto.
Qed.

Lemma use_fixed_momentum_setup s m s' d :
  use_fixed_momentum s m = (s', d) -> setup s' = setup s.
Proof.
  unfold use_fixed_momentum. destruct (for_ _ _ _) as [st d0].
  intros H. injection H as <- _. reflexivity.
Qed.

Lemma for_setup {B C} (l : list B) (f : B -> DRSOMB.t * C -> DRSOMB.t * C) :
  (forall b s c, setup (fst (f b (s, c))) = setup s) ->
  forall s c, setup (fst (for_ l f (s, c))) = setup s.
Proof.
  intros Hf. induction l as [|b l IH]; intros s c.
  - reflexivity.
  - unfold for_ in *. cbn [fold_left].
    destruct (f b (s, c)) as [s1 c1] eqn:E.
    rewrite IH. specialize (Hf b s c). rewrite E in Hf. exact Hf.
Qed.

Lemma interpolation_setup U cl s dirs fx c p_copy delta mult s' Q :
  compute_Q_via_interpolation U cl s dirs fx c p_copy delta mult = Ok (s', Q) ->
  setup s' = setup s.
Proof.
  unfold compute_Q_via_interpolation. cbv zeta.
  match goal with
  | |- context [for_ ?l ?f (s, ?d)] =>
      assert (Hloop : setup (fst (for_ l f (s, d))) = setup s);
      [apply for_setup; intros b s0 c0; reflexivity|];
      destruct (for_ l f (s, d)) as [s1 df1]
  end.
  cbn [fst] in Hloop.
  intros H. apply bind_inv in H as (q & _ & H).
  apply bind_inv in H as (Q0 & _ & H). injection H as <- _. exact Hloop.
Qed.

Lemma hvp_setup cl s dirs style s' Q :
  compute_Q_via_hvp cl s dirs style = Ok (s', Q) -> setup s' = setup s.
Proof.
  unfold compute_Q_via_hvp. cbv zeta. intros H.
  apply bind_inv in H as (Hv1 & _ & H). injection H as <- _. reflexivity.
Qed.

Lemma update_trust_region_setup U cl s p_copy dirs fx s' :
  update_trust_region U cl s p_copy dirs fx = Ok s' -> setup s' = setup s.
Proof.
  unfold update_trust_region. cbv zeta. intros H.
  destruct (decide (qp_freq (decayrule s) = 0%nat)); [discriminate|].
  destruct (negb _).
  - injection H as <-. reflexivity.
  - apply bind_inv in H as ([s1 Q1] & HQ & H). injection H as <-.
    transitivity (setup s1); [reflexivity|].
    destruct (qpmode s).
    + apply bind_inv in HQ as ([s2 Q2] & HQ & H). injection H as <- _.
      transitivity (setup s2); [reflexivity|]. eapply hvp_setup; exact HQ.
    + apply bind_inv in HQ as ([s2 Q2] & HQ & H). injection H as <- _.
      transitivity (setup s2); [reflexivity|]. eapply hvp_setup; exact HQ.
    + eapply interpolation_setup; exact HQ.
    + discriminate.
Qed.

Lemma prologue_setup U s cl s1 dirs p_copy loss :
  step_prologue U s cl = Ok (s1, dirs, p_copy, loss) ->
  setup s1 = setup (adjust_gamma_and_radius U s) /\
  loss = objective cl (param_values (adjust_gamma_and_radius U s)).
Proof.
  unfold step_prologue. cbv zeta. intros H.
  destruct (_clone_param _) as [sc pc] eqn:Hc.
  assert (Hsc : setup sc = setup (adjust_gamma_and_radius U s)).
  { unfold _clone_param in Hc. destruct (clone_all _ _) as [h qs].
    injection Hc as <- _. reflexivity. }
  apply bind_inv in H as (g & _ & H).
  apply bind_inv in H as ([s2 ds] & H2 & H).
  apply bind_inv in H as (s3 & H3 & H). injection H as <- _ _ <-.
  split; [|reflexivity].
  rewrite (update_trust_region_setup _ _ _ _ _ _ _ H3), <- Hsc.
  destruct (decide (fixed_momentum sc < 0)).
  - apply bind_inv in H2 as (ds0 & _ & H2). injection H2 as <- _. reflexivity.
  - destruct (use_fixed_momentum sc (fixed_momentum sc)) as [sf d] eqn:Hf.
    injection H2 as <- _. eapply use_fixed_momentum_setup; exact Hf.
Qed.

Lemma loop_body_setup U cl dirs p_copy loss L f :
  loop_body U cl dirs p_copy loss L = Ok f ->
  match f with
  | Continue L' | Next L' | Break L' => setup (self_ L') = setup (self_ L)
  end.
Proof.
  unfold loop_body. intros H.
  apply bind_inv in H as ([s' est] & Hc & H).
  apply compute_step_inv in Hc as (a & nrm & _ & -> & _).
  destruct (decide (est < 0)); [injection H as <-; reflexivity|].
  cbv zeta in H.
  match type of H with
  | context [update_by_rho ?x ?r] =>
      destruct (update_by_rho_setup x r) as (Hu & _ & _);
      assert (Hx : setup x = setup (self_ L)) by reflexivity;
      set (s2 := update_by_rho x r) in *; clearbody s2
  end.
  rewrite Hx in Hu. clear Hx.
  destruct (xgt _ _); cbn [negb] in H.
  - apply bind_inv in H as (s3 & H3 & H). injection H as <-. cbn [self_].
    destruct (bool_decide _); [discriminate|].
    destruct (bool_decide _).
    + apply save_momentum_setup in H3 as (-> & _). exact Hu.
    + injection H3 as <-. exact Hu.
  - injection H as <-. cbn [self_]. unfold _set_param.
    transitivity (setup s2); [reflexivity|exact Hu].
Qed.

Lemma while_loop_setup U fuel cl dirs p_copy loss L0 L :
  while_loop U fuel cl dirs p_copy loss L0 = Some (Ok L) ->
  setup (self_ L) = setup (self_ L0).
Proof.
  revert L0. induction fuel as [|fuel IH]; intros L0; cbn [while_loop].
  - destruct (_ <? _)%nat; [discriminate|]. intros [= <-]. reflexivity.
  - destruct (_ <? _)%nat; [|intros [= <-]; reflexivity].
    destruct (loop_body U cl dirs p_copy loss L0) as [[L'|L'|L']|e] eqn:Hb;
      try discriminate;
      pose proof (loop_body_setup _ _ _ _ _ _ _ Hb) as Hs; cbn in Hs.
    + intros Hw. rewrite (IH L' Hw). exact Hs.
    + intros [= <-]. exact Hs.
    + intros Hw. rewrite (IH L' Hw). exact Hs.
Qed.

(** X10: every call of [step] that returns, returns the loss of the
    closure at the parameters it was entered with (after
    [adjust_gamma_and_radius]) and has advanced [self.iter] by exactly
    one, whatever the number of passes of the inner loop; the
    parameter list, the configured directions, the budget of the inner
    loop, [gammalb] and the two rule sets are what they were. *)
Theorem step_advances_iter U fuel s cl s' l :
  step U fuel s (Some cl) = Some (Ok (s', l)) ->
  l = objective cl (param_values (adjust_gamma_and_radius U s)) /\
  iter s' = S (iter (adjust_gamma_and_radius U s)) /\
  _params s' = _params (adjust_gamma_and_radius U s) /\
  directions s' = directions (adjust_gamma_and_radius U s) /\
  _max_iter_adj s' = _max_iter_adj (adjust_gamma_and_radius U s) /\
  gammalb s' = gammalb (adjust_gamma_and_radius U s) /\
  adjrule s' = adjrule (adjust_gamma_and_radius U s) /\
  decayrule s' = decayrule (adjust_gamma_and_radius U s).
Proof.
  unfold step. intros H.
  destruct (step_prologue U s cl) as [[[[s1 dirs] p_copy] loss]|e] eqn:Hp;
    [|discriminate].
  destruct (prologue_setup _ _ _ _ _ _ _ Hp) as [Hs1 Hl].
  cbv zeta in H.
  destruct (while_loop U fuel cl dirs p_copy loss _) as [[L|e]|] eqn:Hw;
    try discriminate.
  cbn in H. injection H as <- <-.
  apply while_loop_setup in Hw. cbn [self_] in Hw. rewrite Hs1 in Hw.
  split; [exact Hl|].
  assert (He : setup (step_epilogue L) =
               (_params (self_ L), directions (self_ L), bool_normalize (self_ L),
                fixed_momentum (self_ L), qpmode (self_ L), qpsolver (self_ L),
                _max_iter_adj (self_ L), gammalb (self_ L), radiusub (self_ L),
                decayrule (self_ L), adjrule (self_ L), delta (self_ L),
                (iter (self_ L) + 1)%nat)).
  { unfold step_epilogue. destruct (negb (acc_step L)); reflexivity. }
  unfold setup in Hw, He.
  injection Hw as W1 W2 _ _ _ _ W3 W4 _ W5 W6 _ W7.
  injection He as E1 E2 _ _ _ _ E3 E4 _ E5 E6 _ E7.
  rewrite E1, E2, E3, E4, E5, E6, E7, W1, W2, W3, W4, W5, W6, W7.
  repeat split. lia.
Qed.

(** ** Saving the momentum *)

Lemma sread_Some st p k v : st p k = Some v -> sread st p k = Ok v.
Proof. unfold sread. intros ->. reflexivity. Qed.

Lemma sread_None st p k : st p k = None -> sread st p k = Raise KeyError.
Proof. unfold sread. intros ->. reflexivity. Qed.

Lemma save_loop_spec U (d : direction) key rate (ps : list loc) st :
  (forall p, p ∈ ps -> is_Some (st p key)) -> NoDup ps ->
  exists st',
    forM ps (fun p st =>
        buf ← sread st p key;
        Ok (sset st p key (update_running_stat U (dget d p) buf rate))) st = Ok st' /\
    forall p k,
      st' p k = if decide (p ∈ ps /\ k = key)
                then (fun buf => update_running_stat U (dget d p) buf rate) <$> st p k
                else st p k.
Proof.
  revert st. induction ps as [|q ps IH]; intros st Hall Hnd.
  - exists st. split; [reflexivity|]. intros p k.
    destruct (decide _) as [[H _]|]; [inversion H|reflexivity].
  - apply NoDup_cons in Hnd as [Hq Hnd].
    destruct (Hall q ltac:(left)) as [buf Hbuf].
    cbn [forM]. rewrite (sread_Some _ _ _ _ Hbuf), !bind_Ok.
    destruct (IH (sset st q key (update_running_stat U (dget d q) buf rate)))
      as (st' & Hst' & Hspec).
    + intros p Hp. rewrite sset_lookup.
      destruct (decide _); [eexists; reflexivity|]. apply Hall. right. exact Hp.
    + exact Hnd.
    + exists st'. split; [exact Hst'|]. intros p k. rewrite Hspec, sset_lookup.
      repeat case_decide; try reflexivity;
        try (exfalso; rewrite ?elem_of_cons in *; intuition congruence).
      * destruct H0 as [-> ->]. rewrite Hbuf. reflexivity.
Qed.

Lemma save_loop_missing U (d : direction) key rate (ps : list loc) st :
  (exists p, p ∈ ps /\ st p key = None) ->
  forM ps (fun p st =>
      buf ← sread st p key;
      Ok (sset st p key (update_running_stat U (dget d p) buf rate))) st
  = Raise KeyError.
Proof.
  revert st. induction ps as [|q ps IH]; intros st (p & Hp & Hnone).
  - inversion Hp.
  - cbn [forM].
    destruct (st q key) as [buf|] eqn:Hq;
      [rewrite (sread_Some _ _ _ _ Hq)|rewrite (sread_None _ _ _ Hq); reflexivity].
    rewrite !bind_Ok. apply IH. exists p.
    apply elem_of_cons in Hp as [->|Hp]; [congruence|].
    split; [exact Hp|]. rewrite sset_lookup.
    destruct (decide _) as [[-> _]|]; [congruence|exact Hnone].
Qed.

Lemma save_momentum_updates U s d key :
  (forall p, p ∈ _params s -> is_Some (state s p key)) -> NoDup (_params s) ->
  exists s',
    _save_momentum U s d key = Ok s' /\
    heap s' = heap s /\ setup s' = setup s /\ gamma s' = gamma s /\
    forall p k,
      state s' p k =
      if decide (p ∈ _params s /\ k = key)
      then (fun buf => update_running_stat U (dget d p) buf (qp_rate (decayrule s)))
             <$> state s p k
      else state s p k.
Proof.
  intros Hall Hnd.
  destruct (save_loop_spec U d key (qp_rate (decayrule s)) (_params s) (state s) Hall Hnd)
    as (st' & Hst' & Hspec).
  exists (set_state s st'). split.
  - unfold _save_momentum. rewrite Hst', bind_Ok. reflexivity.
  - repeat split; try reflexivity. exact Hspec.
Qed.

(** X11: [_save_momentum(vlist, key)] raises [KeyError] when some
    parameter has no buffer under [key]; when every parameter has one
    (and the parameters are distinct) it returns, the buffer of every
    parameter [p] under [key] is [update_running_stat(vlist[p], buffer,
    qp_rate)] of the buffer before, and every other entry of the state,
    the parameters, the configuration and [gamma] are unchanged. *)
Theorem save_momentum_spec U s d key :
  d.*1 = _params s ->
  ((exists p, p ∈ _params s /\ state s p key = None) ->
   _save_momentum U s d key = Raise KeyError) /\
  ((forall p, p ∈ _params s -> is_Some (state s p key)) -> NoDup (_params s) ->
   exists s',
     _save_momentum U s d key = Ok s' /\
     heap s' = heap s /\ setup s' = setup s /\ gamma s' = gamma s /\
     forall p k,
       state s' p k =
       if decide (p ∈ _params s /\ k = key)
       then (fun buf => update_running_stat U (dget d p) buf (qp_rate (decayrule s)))
              <$> state s p k
       else state s p k).
Proof.
  intros _. split.
  - intros H. unfold _save_momentum. rewrite save_loop_missing by exact H. reflexivity.
  - apply save_momentum_updates.
Qed.

(** ** A pass that accepts its trial step *)

Lemma setup_directions s s' : setup s' = setup s -> directions s' = directions s.
Proof. unfold setup. intros H. injection H as _ H _ _ _ _ _ _ _ _ _ _ _. exact H. Qed.

Lemma setup_params s s' : setup s' = setup s -> _params s' = _params s.
Proof. unfold setup. intros H. injection H as H _ _ _ _ _ _ _ _ _ _ _ _. exact H. Qed.

Lemma setup_iter s s' : setup s' = setup s -> iter s' = iter s.
Proof. unfold setup. intros H. injection H as _ _ _ _ _ _ _ _ _ _ _ _ H. exact H. Qed.

Lemma setup_decayrule s s' : setup s' = setup s -> decayrule s' = decayrule s.
Proof. unfold setup. intros H. injection H as _ _ _ _ _ _ _ _ _ H _ _ _. exact H. Qed.

Lemma loop_body_accept U cl dirs p_copy loss L s' est :
  compute_step U (self_ L) = Ok (s', est) -> ~ est < 0 ->
  xgt (trial cl dirs loss est s').1.2
      (eta (adjrule (trial cl dirs loss est s').1.1)) = true ->
  loop_body U cl dirs p_copy loss L =
  (self ← (if bool_decide ("momentum_g" ∈ directions (self_ L)) then
             Raise (ValueError "not implemented")
           else if bool_decide ("momentum" ∈ directions (self_ L)) then
             _save_momentum U (trial cl dirs loss est s').1.1
               (trial cl dirs loss est s').2 "momentum"
           else Ok (trial cl dirs loss est s').1.1);
   Ok (Break {| self_ := self; acc_step := true; iter_adj := iter_adj L |})).
Proof.
  intros Hc Hneg Hx. unfold loop_body. rewrite Hc, bind_Ok.
  rewrite decide_False by exact Hneg. cbv zeta.
  unfold trial in Hx. cbv zeta in Hx. cbn [fst snd] in Hx. rewrite Hx. cbn [negb].
  unfold trial. cbv zeta. cbn [fst snd].
  match goal with
  | |- context [update_by_rho ?x ?r] =>
      destruct (update_by_rho_setup x r) as (Hu & _ & _);
      apply setup_directions in Hu; rewrite Hu
  end.
  apply compute_step_inv in Hc as (a & nrm & _ & -> & _). reflexivity.
Qed.

(** X12: a pass of the inner loop of [step] whose trial step is
    accepted ([rho > eta]), with the direction [momentum_g] configured,
    raises [ValueError("not implemented")], and so does the loop. *)
Theorem accepted_step_momentum_g_raises U fuel cl dirs p_copy loss L s' est :
  Forall (shaped (self_ L)) dirs ->
  compute_step U (self_ L) = Ok (s', est) -> ~ est < 0 ->
  xgt (trial cl dirs loss est s').1.2
      (eta (adjrule (trial cl dirs loss est s').1.1)) = true ->
  "momentum_g" ∈ directions (self_ L) ->
  (iter_adj L < _max_iter_adj (self_ L))%nat ->
  loop_body U cl dirs p_copy loss L = Raise (ValueError "not implemented") /\
  while_loop U (S fuel) cl dirs p_copy loss L
    = Some (Raise (ValueError "not implemented")).
Proof.
  intros _ Hc Hneg Hx Hg Hlt.
  assert (Hb : loop_body U cl dirs p_copy loss L = Raise (ValueError "not implemented")).
  { rewrite (loop_body_accept _ _ _ _ _ _ _ _ Hc Hneg Hx).
    rewrite bool_decide_eq_true_2 by exact Hg. reflexivity. }
  split; [exact Hb|]. cbn [while_loop].
  destruct (Nat.ltb_spec (iter_adj L) (_max_iter_adj (self_ L))); [|lia].
  rewrite Hb. reflexivity.
Qed.

(** X13: a pass of the inner loop of [step] whose trial step is
    accepted ([rho > eta]), with [momentum] configured and [momentum_g]
    not, leaves the loop at [break]: [acc_step] is true, [iter_adj] is
    not incremented, the parameters stay at the trial point, [gamma] is
    the one the ratio test has set, the buffer [momentum] of every
    parameter is updated with the step by [update_running_stat], and
    after the loop only [self.iter] is advanced (no restart). *)
Theorem accepted_step_keeps_trial U fuel cl dirs p_copy loss L s' est :
  Forall (shaped (self_ L)) dirs ->
  compute_step U (self_ L) = Ok (s', est) -> ~ est < 0 ->
  xgt (trial cl dirs loss est s').1.2
      (eta (adjrule (trial cl dirs loss est s').1.1)) = true ->
  "momentum_g" ∉ directions (self_ L) ->
  "momentum" ∈ directions (self_ L) ->
  (forall p, p ∈ _params (self_ L) -> is_Some (state (self_ L) p "momentum")) ->
  NoDup (_params (self_ L)) ->
  (iter_adj L < _max_iter_adj (self_ L))%nat ->
  exists L',
    loop_body U cl dirs p_copy loss L = Ok (Break L') /\
    while_loop U (S fuel) cl dirs p_copy loss L = Some (Ok L') /\
    acc_step L' = true /\ iter_adj L' = iter_adj L /\
    heap (self_ L') = heap (_use_new_d s' (build_direction s' dirs (alpha s'))) /\
    gamma (self_ L') = gamma (trial cl dirs loss est s').1.1 /\
    (forall p k,
       state (self_ L') p k =
       if decide (p ∈ _params (self_ L) /\ k = "momentum")
       then (fun buf =>
               update_running_stat U (dget (build_direction s' dirs (alpha s')) p) buf
                 (qp_rate (decayrule (self_ L)))) <$> state (self_ L) p k
       else state (self_ L) p k) /\
    step_epilogue L' = set_iter (self_ L') (iter (self_ L) + 1).
Proof.
  intros _ Hc Hneg Hx Hg Hm Hkeys Hnd Hlt.
  pose proof (loop_body_accept U cl dirs p_copy loss L s' est Hc Hneg Hx) as Hb.
  rewrite bool_decide_eq_false_2 in Hb by exact Hg.
  rewrite bool_decide_eq_true_2 in Hb by exact Hm.
  pose proof Hc as Hc'.
  apply compute_step_inv in Hc' as (a & nrm & _ & Hs' & _).
  assert (Hs2 : setup (trial cl dirs loss est s').1.1 = setup (self_ L) /\
                heap (trial cl dirs loss est s').1.1
                  = heap (_use_new_d s' (build_direction s' dirs (alpha s'))) /\
                state (trial cl dirs loss est s').1.1 = state (self_ L)).
  { unfold trial. cbv zeta. cbn [fst snd].
    match goal with
    | |- context [update_by_rho ?x ?r] =>
        destruct (update_by_rho_setup x r) as (Hu & Hh & Hst)
    end.
    rewrite Hu, Hh, Hst. subst s'. repeat split; reflexivity. }
  destruct Hs2 as (Hset & Hheap & Hstate).
  destruct (save_momentum_updates U (trial cl dirs loss est s').1.1
              (trial cl dirs loss est s').2 "momentum")
    as (s3 & Hsave & Hh3 & Hset3 & Hg3 & Hst3).
  { intros p Hp. rewrite Hstate. apply Hkeys.
    rewrite <- (setup_params _ _ Hset). exact Hp. }
  { rewrite (setup_params _ _ Hset). exact Hnd. }
  rewrite Hsave, bind_Ok in Hb.
  eexists. split; [exact Hb|]. split.
  { cbn [while_loop].
    destruct (Nat.ltb_spec (iter_adj L) (_max_iter_adj (self_ L))); [|lia].
    rewrite Hb. reflexivity. }
  cbn [self_ acc_step iter_adj].
  split; [reflexivity|]. split; [reflexivity|].
  split; [rewrite Hh3; exact Hheap|]. split; [exact Hg3|]. split.
  - intros p k. rewrite Hst3, Hstate, (setup_params _ _ Hset).
    rewrite (setup_decayrule _ _ Hset). reflexivity.
  - unfold step_epilogue. cbn [acc_step self_ negb].
    rewrite (setup_iter _ _ Hset3), (setup_iter _ _ Hset). reflexivity.
Qed.

(** ** The properties on Scenario R and on Scenario S *)

Lemma dirs0_shaped s :
  _params s = [0%nat] -> length (read (heap s) 0%nat) = 1%nat ->
  (forall p, length (grads s p) = 1%nat) ->
  Forall (shaped s) dirs0.
Proof.
  intros Hp Hh Hg.
  repeat constructor; try (rewrite Hp; reflexivity);
    rewrite Hp in H; apply list_elem_of_singleton in H as ->;
    rewrite ?Hg, Hh; reflexivity.
Qed.

Lemma dirs0_shaped_R : Forall (shaped s1_0) dirs0.
Proof. apply dirs0_shaped; reflexivity. Qed.

Lemma cl_sq_hv s d : _params s = [0%nat] -> length (hv cl_sq s d) = length (_params s).
Proof. intros ->. reflexivity. Qed.

Lemma construct_G_is_gram_witness :
  construct_G s1_0 dirs0 0%nat 1%nat = 0 /\ 0 <= construct_G s1_0 dirs0 0%nat 0%nat.
Proof.
  apply (construct_G_is_gram s1_0 dirs0 0%nat 1%nat).
  - exact dirs0_shaped_R.
  - cbn. lia.
  - cbn. lia.
Defined.

Lemma construct_c_descent_witness : construct_c s1_0 dirs0 0%nat <= 0.
Proof.
  apply (proj2 (construct_c_descent s1_0 false
                  [(0%nat, tscale (-1) [2 * 1])] [[(0%nat, [3])]] eq_refl
                  (Forall_inv_tail dirs0_shaped_R))).
Defined.


Lemma update_trust_region_errors_witness :
  update_trust_region U_fwd cl_sq s1_0 [1%nat] dirs0 loss0 = Ok s1_0.
Proof.
  apply (proj1 (proj2 (update_trust_region_errors U_fwd cl_sq s1_0 [1%nat] dirs0 loss0
                         dirs0_shaped_R))).
  - cbn. lia.
  - cbn. lia.
Defined.

Lemma update_trust_region_automatic_witness :
  exists s', update_trust_region U_fwd cl_sq (set_iter s1_0 2) [1%nat] dirs0 loss0 = Ok s' /\
    c s' = construct_c (set_iter s1_0 2) dirs0 /\
    dim s' = 2%nat.
Proof.
  destruct (update_trust_region_automatic U_fwd cl_sq (set_iter s1_0 2) [1%nat] dirs0 loss0)
    as (s' & s1 & Q1 & H & _ & _ & Hc & _ & Hd & _).
  - discriminate.
  - apply dirs0_shaped; reflexivity.
  - intros d _. apply cl_sq_hv. reflexivity.
  - reflexivity.
  - cbn. lia.
  - reflexivity.
  - intros l Hl. discriminate.
  - exists s'. split; [exact H|]. split; [exact Hc|exact Hd].
Defined.

Lemma tnorm_3_4 : tnorm [3; 4] = 5.
Proof.
  unfold tnorm, tsum, tmul. cbn [zip_with fold_right].
  replace (3 * 3 + (4 * 4 + 0)) with (5 * 5) by lra.
  apply sqrt_square. lra.
Qed.

Lemma v_norm_3_4 : v_norm [(0%nat, [3; 4])] = Ok 5.
Proof.
  rewrite v_norm_cons, sum_over_cons, sum_over_nil. cbn [snd]. f_equal.
  unfold tdot, tsum, tmul. cbn [zip_with fold_right].
  replace (3 * 3 + (4 * 4 + 0) + 0) with (5 * 5) by lra.
  apply sqrt_square. lra.
Qed.

Lemma normalize_unit_norm_witness :
  exists d',
    normalize [(0%nat, [3; 4])] = Ok d' /\
    d' = [(0%nat, [3 / 5; 4 / 5])] /\
    d'.*1 = [0%nat] /\
    v_norm d' = Ok 1 /\
    normalize d' = Ok d'.
Proof.
  apply (normalize_unit_norm [(0%nat, [3; 4])] 5 v_norm_3_4). lra.
Defined.

Lemma F_normalize_unit_norm_witness :
  DRSOMF.normalize [3; 4] = Some (map (fun x => x / tnorm [3; 4]) [3; 4]) /\
  tnorm (map (fun x => x / tnorm [3; 4]) [3; 4]) = 1 /\
  DRSOMF.normalize (map (fun x => x / tnorm [3; 4]) [3; 4])
    = Some (map (fun x => x / tnorm [3; 4]) [3; 4]).
Proof.
  apply (F_normalize_unit_norm [3; 4]). rewrite tnorm_3_4. lra.
Defined.

Lemma step_advances_iter_witness :
  loss0 = objective cl_sq (param_values opt0) /\
  iter (step_epilogue L_rej) = 2%nat /\
  _params (step_epilogue L_rej) = [0%nat] /\
  directions (step_epilogue L_rej) = ["momentum"%string] /\
  _max_iter_adj (step_epilogue L_rej) = 2%nat /\
  gammalb (step_epilogue L_rej) = gammalb opt0 /\
  adjrule (step_epilogue L_rej) = adj0 /\
  decayrule (step_epilogue L_rej) = decay0.
Proof.
  apply (step_advances_iter U_fwd 1 opt0 cl_sq (step_epilogue L_rej) loss0).
  exact (step_reject_final _ _ _ _ _ _ _ _ _ (prologue_R _ _) loop_fwd).
Defined.

Lemma s1_0_has_momentum p :
  p ∈ _params s1_0 -> is_Some (state s1_0 p "momentum").
Proof.
  intros Hp. apply list_elem_of_singleton in Hp as ->. eexists. reflexivity.
Qed.

Lemma save_momentum_spec_witness :
  exists s',
    _save_momentum U_fwd s1_0 [(0%nat, [1])] "momentum" = Ok s' /\
    heap s' = heap s1_0 /\ setup s' = setup s1_0 /\ gamma s' = gamma s1_0 /\
    forall p k,
      state s' p k =
      if decide (p ∈ _params s1_0 /\ k = "momentum")
      then (fun buf => update_running_stat U_fwd (dget [(0%nat, [1])] p) buf
                         (qp_rate (decayrule s1_0))) <$> state s1_0 p k
      else state s1_0 p k.
Proof.
  apply (proj2 (save_momentum_spec U_fwd s1_0 [(0%nat, [1])] "momentum" eq_refl)).
  - exact s1_0_has_momentum.
  - apply NoDup_singleton.
Defined.

(** Scenario S: the trial that is accepted. *)
Lemma est_half_value : est_half = 2.
Proof.
  unfold est_half, trs_est, dot, matvec. cbv [sum_n zeros2 vec_of nth]. lra.
Qed.

Lemma update_by_rho_adjrule s rho : adjrule (update_by_rho s rho) = adjrule s.
Proof.
  unfold update_by_rho. destruct (xle _ _); [reflexivity|].
  destruct (xge _ _); reflexivity.
Qed.

Lemma trial_half_rho (s : DRSOMB.t) :
  heap s = [[1]; [1]] -> _params s = [0%nat] -> alpha s = vec_of [1 / 2; 0] ->
  adjrule s = adj0 ->
  xgt (trial cl_sq dirs0 loss0 est_half s).1.2
      (eta (adjrule (trial cl_sq dirs0 loss0 est_half s).1.1)) = true.
Proof.
  intros Hh Hp Ha Hadj. unfold trial. cbv zeta. cbn [fst snd].
  rewrite update_by_rho_adjrule.
  assert (Hx : adjrule (_use_new_d s (build_direction s dirs0 (alpha s))) = adj0)
    by exact Hadj.
  rewrite Hx.
  assert (Hobj : objective cl_sq
            (param_values (_use_new_d s (build_direction s dirs0 (alpha s)))) = 0).
  { unfold param_values, _use_new_d, build_direction.
    cbn [heap _params set_heap]. rewrite Hh, Hp, Ha.
    change (objective cl_sq _)
      with ((1 + (0 + 1 / 2 * (-1 * (2 * 1)) + 0 * 3)) *
            (1 + (0 + 1 / 2 * (-1 * (2 * 1)) + 0 * 3))). lra. }
  rewrite Hobj, est_half_value. unfold torch_div, loss0.
  rewrite decide_False by lra. unfold xgt. cbn [eta adj0].
  apply bool_decide_eq_true_2. lra.
Qed.

Lemma accepted_step_momentum_g_raises_witness :
  loop_body U_half cl_sq dirs0 [1%nat] loss0
    {| self_ := s1_g; acc_step := false; iter_adj := 1 |}
    = Raise (ValueError "not implemented") /\
  while_loop U_half 1 cl_sq dirs0 [1%nat] loss0
    {| self_ := s1_g; acc_step := false; iter_adj := 1 |}
    = Some (Raise (ValueError "not implemented")).
Proof.
  apply (accepted_step_momentum_g_raises U_half 0 cl_sq dirs0 [1%nat] loss0
           {| self_ := s1_g; acc_step := false; iter_adj := 1 |} s_half_g est_half).
  - apply dirs0_shaped; reflexivity.
  - reflexivity.
  - rewrite est_half_value. lra.
  - apply trial_half_rho; reflexivity.
  - cbn. left.
  - cbn. lia.
Defined.

Lemma accepted_step_keeps_trial_witness :
  exists L',
    loop_body U_half cl_sq dirs0 [1%nat] loss0 L_start = Ok (Break L') /\
    while_loop U_half 1 cl_sq dirs0 [1%nat] loss0 L_start = Some (Ok L') /\
    acc_step L' = true /\ iter_adj L' = 1%nat /\
    heap (self_ L') = heap (_use_new_d s_half (build_direction s_half dirs0 (alpha s_half))).
Proof.
  destruct (accepted_step_keeps_trial U_half 0 cl_sq dirs0 [1%nat] loss0 L_start
              s_half est_half) as (L' & Hb & Hw & Ha & Hi & Hh & _).
  - exact dirs0_shaped_R.
  - reflexivity.
  - rewrite est_half_value. lra.
  - apply trial_half_rho; reflexivity.
  - cbn. intros H. apply list_elem_of_singleton in H. discriminate.
  - cbn. left.
  - exact s1_0_has_momentum.
  - apply NoDup_singleton.
  - cbn. lia.
  - exists L'. auto.
Defined.

Lemma sampling_shape_witness :
  length (sampling 4 2 1) = length (build_natural_basis (nth 0 (sampling 4 2 1) []))
  <-> 4%nat = 4%nat.
Proof.
  apply (proj2 (proj2 (sampling_shape 4 2 1))). lia.
Defined.

End Model.

(** ** The retry of the root finder *)

Section RootRetry.
Import DRSOMF.

Lemma compute_root_unfold K n Q c gamma tr lmin lmax :
  py_min (eigvalsh K n Q) = Ok lmin -> py_max (eigvalsh K n Q) = Ok lmax ->
  _compute_root K n Q c gamma tr =
  (alpha ←
     match lsolve K n (madd Q (mscale tr (code_lambda lmin lmax gamma))) (vneg c) with
     | Some alpha => Ok alpha
     | None =>
         match lsolve K n (madd Q (mscale tr (code_lambda lmin lmax gamma + 1 / 10000)))
                 (vneg c) with
         | Some alpha => Ok alpha
         | None => Raise LinAlgError
         end
     end;
   Ok (0%nat, code_lambda lmin lmax gamma, alpha, _norm n alpha tr, true)).
Proof.
  intros Hmin Hmax. unfold _compute_root. rewrite Hmin, Hmax, !bind_Ok. reflexivity.
Qed.

(** X14: when the first solve of [_compute_root] fails on a singular
    system, the root finder solves the system shifted by [1e-4]: if that
    solve succeeds, [_compute_root] returns its solution, which satisfies
    [(Q + (lambda + 1e-4) tr) alpha = -c], and still reports the
    unshifted multiplier [lambda]; if it fails too, [LinAlgError] is
    raised. *)
Theorem compute_root_retry K n Q c gamma tr lmin lmax :
  py_min (eigvalsh K n Q) = Ok lmin -> py_max (eigvalsh K n Q) = Ok lmax ->
  lsolve K n (madd Q (mscale tr (code_lambda lmin lmax gamma))) (vneg c) = None ->
  lsolve_ok K n (madd Q (mscale tr (code_lambda lmin lmax gamma + 1 / 10000))) (vneg c) ->
  match lsolve K n (madd Q (mscale tr (code_lambda lmin lmax gamma + 1 / 10000))) (vneg c) with
  | Some a =>
      _compute_root K n Q c gamma tr
        = Ok (0%nat, code_lambda lmin lmax gamma, a, _norm n a tr, true) /\
      forall i, (i < n)%nat ->
        matvec n Q a i + (code_lambda lmin lmax gamma + 1 / 10000) * matvec n tr a i
        = - c i
  | None => _compute_root K n Q c gamma tr = Raise LinAlgError
  end.
Proof.
  intros Hmin Hmax H1 Hok.
  rewrite (compute_root_unfold K n Q c gamma tr lmin lmax Hmin Hmax), H1.
  destruct (lsolve K n (madd Q (mscale tr (code_lambda lmin lmax gamma + 1 / 10000)))
              (vneg c)) as [a|] eqn:H2; [|reflexivity].
  split; [reflexivity|].
  intros i Hi. destruct Hok as [Hsol _]. specialize (Hsol a H2 i Hi).
  rewrite matvec_madd, matvec_mscale in Hsol. unfold vneg in Hsol. lra.
Qed.

Lemma compute_root_retry_witness :
  _compute_root exact_kernel 1 (mat_of [[-1]]) (vec_of [-1]) 0 (mat_of [[1]])
  = Ok (0%nat, code_lambda (-1) (-1) 0,
        vec_of [vneg (vec_of [-1]) 0%nat /
                madd (mat_of [[-1]])
                  (mscale (mat_of [[1]]) (code_lambda (-1) (-1) 0 + 1 / 10000)) 0%nat 0%nat],
        _norm 1
          (vec_of [vneg (vec_of [-1]) 0%nat /
                   madd (mat_of [[-1]])
                     (mscale (mat_of [[1]]) (code_lambda (-1) (-1) 0 + 1 / 10000))
                     0%nat 0%nat]) (mat_of [[1]]), true).
Proof.
  assert (Hl : code_lambda (-1) (-1) 0 = 1).
  { unfold code_lambda. cbv zeta.
    replace (- -1) with 1 by lra. rewrite (Rmax_right 0 1) by lra.
    rewrite decide_False by lra. rewrite (Rmax_left (1 - 0) 0) by lra. lra. }
  assert (H1 : lsolve exact_kernel 1
                 (madd (mat_of [[-1]]) (mscale (mat_of [[1]]) (code_lambda (-1) (-1) 0)))
                 (vneg (vec_of [-1])) = None).
  { cbn [lsolve exact_kernel exact_lsolve]. rewrite Hl.
    rewrite decide_True; [reflexivity|].
    cbv [madd mscale mat_of nth]. lra. }
  pose proof (compute_root_retry exact_kernel 1 (mat_of [[-1]]) (vec_of [-1]) 0
                (mat_of [[1]]) (-1) (-1) eq_refl eq_refl H1
                (exact_lsolve_ok_1 _ _)) as H.
  cbn [lsolve exact_kernel exact_lsolve] in H.
  rewrite decide_False in H.
  - exact (proj1 H).
  - rewrite Hl. cbv [madd mscale mat_of nth]. lra.
Defined.

End RootRetry.
